(** * langcodes: the BCP 47 tag parser and the meaning builder

    A shallow embedding of [langcodes/tag_parser.py] and
    [langcodes/semantics.py].

    Modelling conventions.
    - A Python [str] is a [string].  Language tags are ASCII; a character
      whose code is 128 or more is outside the modelled domain and is
      treated as uncased, non-alphabetic and non-numeric, which is not
      what Python does with a letter or a digit outside ASCII.  Where a
      property of an arbitrary tag rests on the case or the class of its
      characters, it is stated for a tag that satisfies [Py.isascii].
    - A call either returns, raises, or exhausts its recursion budget:
      type [result].  The recursion of the parser nests once per subtag;
      [parse_subtags_fuel] takes the depth it may use, and [parse_subtags]
      gives it one more than the number of subtags, which is shown to be
      enough.  An exhausted budget stands for the interpreter's
      [RecursionError]; the interpreter's own limit is not modelled.  The
      recursion of [tag_to_meaning] follows the replacement table and
      carries an explicit depth budget.
    - A Python [dict] keyed by strings is a [gmap string _]; a Python
      [set] of strings is a [gset string].  The results studied here do
      not depend on the iteration order of either.
    - The tables of [langcodes.db] are not part of the two modules
      embedded here; they are parameters (record [LanguageDB]). *)

From Stdlib Require Import Ascii String.
From stdpp Require Import gmap strings list fin_maps sorting.

Local Open Scope nat_scope.
#[local] Set Warnings "-clear-no-such-hyp".

(** ** Outcomes of a call *)

Inductive exn : Type :=
| LanguageTagError (msg : string)
| KeyError (key : string)
| IndexError
| TypeError
| AttributeError
| RuntimeError (msg : string).

Inductive result (A : Type) : Type :=
| Ok (a : A)
| Raise (e : exn)
| OutOfFuel.

Arguments Ok {A} a.
Arguments Raise {A} e.
Arguments OutOfFuel {A}.

#[global] Instance result_ret : MRet result := λ A a, Ok a.
#[global] Instance result_bind : MBind result := λ A B f r,
  match r with
  | Ok a => f a
  | Raise e => Raise e
  | OutOfFuel => OutOfFuel
  end.
#[global] Instance result_fmap : FMap result := λ A B f r,
  match r with
  | Ok a => Ok (f a)
  | Raise e => Raise e
  | OutOfFuel => OutOfFuel
  end.

(** ** Python string primitives (ASCII) *)

Module Py.

Definition code (c : ascii) : nat := nat_of_ascii c.

Definition is_upper (c : ascii) : bool := (65 <=? code c) && (code c <=? 90).
Definition is_lower (c : ascii) : bool := (97 <=? code c) && (code c <=? 122).
Definition is_alpha_char (c : ascii) : bool := is_upper c || is_lower c.
Definition is_digit_char (c : ascii) : bool := (48 <=? code c) && (code c <=? 57).

Definition lower_char (c : ascii) : ascii :=
  if is_upper c then ascii_of_nat (code c + 32) else c.
Definition upper_char (c : ascii) : ascii :=
  if is_lower c then ascii_of_nat (code c - 32) else c.

Fixpoint map_chars (f : ascii → ascii) (s : string) : string :=
  match s with
  | EmptyString => EmptyString
  | String c s' => String (f c) (map_chars f s')
  end.

(** [s.lower()], [s.upper()] *)
Definition lower (s : string) : string := map_chars lower_char s.
Definition upper (s : string) : string := map_chars upper_char s.

(** [s.replace(a, b)] for one-character [a] and [b] *)
Definition replace_char (a b : ascii) (s : string) : string :=
  map_chars (λ c, if Ascii.eqb c a then b else c) s.

Fixpoint all_chars (p : ascii → bool) (s : string) : bool :=
  match s with
  | EmptyString => true
  | String c s' => p c && all_chars p s'
  end.

(** [s.isascii()] *)
Definition isascii (s : string) : bool := all_chars (λ c, code c <? 128) s.

(** [s.isalpha()], [s.isdigit()]: false on the empty string *)
Definition isalpha (s : string) : bool :=
  negb (String.length s =? 0) && all_chars is_alpha_char s.
Definition isdigit (s : string) : bool :=
  negb (String.length s =? 0) && all_chars is_digit_char s.

(** [s[0].isdigit()] where [s] is known to be non-empty *)
Definition first_isdigit (s : string) : bool :=
  match s with
  | EmptyString => false
  | String c _ => is_digit_char c
  end.

(** [s.title()]: a cased character is upper-cased when it follows an
    uncased one (or starts the string), lower-cased otherwise. *)
Fixpoint title_from (previous_is_cased : bool) (s : string) : string :=
  match s with
  | EmptyString => EmptyString
  | String c s' =>
      if is_lower c then
        String (if previous_is_cased then c else upper_char c) (title_from true s')
      else if is_upper c then
        String (if previous_is_cased then lower_char c else c) (title_from true s')
      else String c (title_from false s')
  end.
Definition title (s : string) : string := title_from false s.

(** [s.split(sep)] for a one-character separator *)
Fixpoint split (sep : ascii) (s : string) : list string :=
  match s with
  | EmptyString => [EmptyString]
  | String c s' =>
      if Ascii.eqb c sep then EmptyString :: split sep s'
      else match split sep s' with
           | [] => [String c EmptyString]
           | w :: ws => String c w :: ws
           end
  end.

(** [sep.join(l)] *)
Fixpoint join (sep : string) (l : list string) : string :=
  match l with
  | [] => ""
  | [x] => x
  | x :: rest => x +:+ sep +:+ join sep rest
  end.

Definition str_in (s : string) (l : list string) : bool :=
  existsb (String.eqb s) l.

Fixpoint has_char (a : ascii) (s : string) : bool :=
  match s with
  | EmptyString => false
  | String c s' => Ascii.eqb c a || has_char a s'
  end.

Definition squote : ascii := ascii_of_nat 39.
Definition dquote : ascii := ascii_of_nat 34.
Definition backslash : ascii := ascii_of_nat 92.

Definition hex_digit (n : nat) : ascii :=
  if n <? 10 then ascii_of_nat (48 + n) else ascii_of_nat (87 + n).

(** One character of [repr(s)], [q] being the chosen quote. *)
Definition repr_char (q c : ascii) : string :=
  if Ascii.eqb c q || Ascii.eqb c backslash then String backslash (String c "")
  else if code c =? 10 then String backslash "n"
  else if code c =? 13 then String backslash "r"
  else if code c =? 9 then String backslash "t"
  else if (code c <? 32) || (127 <=? code c) then
    String backslash (String "x" (String (hex_digit (code c / 16))
                                   (String (hex_digit (code c mod 16)) "")))
  else String c "".

Fixpoint repr_body (q : ascii) (s : string) : string :=
  match s with
  | EmptyString => EmptyString
  | String c s' => repr_char q c +:+ repr_body q s'
  end.

(** [repr(s)], what [%r] formats: single quotes unless the string holds
    a single quote and no double quote. *)
Definition repr (s : string) : string :=
  let q := if has_char squote s && negb (has_char dquote s) then dquote else squote in
  String q (repr_body q s +:+ String q "").

(** [sorted(xs)] on strings: code-point order *)
Definition sorted (l : list string) : list string :=
  merge_sort (λ a b : string, Is_true (String.leb a b)) l.

End Py.

(** ** tag_parser.py *)

(** A parsed component: [(type, value)]. *)
Definition component : Type := string * string.

Definition EXCEPTIONS : list string :=
  [ "en-gb-oed"; "i-ami"; "i-bnn"; "i-default"; "i-enochian"; "i-hak";
    "i-klingon"; "i-lux"; "i-mingo"; "i-navajo"; "i-pwn"; "i-tao"; "i-tay";
    "i-tsu"; "sgn-be-fr"; "sgn-be-nl"; "sgn-ch-de";
    "art-lojban"; "cel-gaulish"; "no-bok"; "no-nyn"; "zh-guoyu"; "zh-hakka";
    "zh-min"; "zh-min-nan"; "zh-xiang" ].

Definition EXTLANG : nat := 0.
Definition SCRIPT : nat := 1.
Definition REGION : nat := 2.
Definition VARIANT : nat := 3.
Definition EXTENSION : nat := 4.

Definition SUBTAG_TYPES : list string :=
  [ "extlang"; "script"; "region"; "variant"; "extension"; "end of string" ].

(** [l[i]] for a non-negative [i] *)
Definition index {A} (l : list A) (i : nat) : result A :=
  match l !! i with
  | Some x => Ok x
  | None => Raise IndexError
  end.

Definition normalize_characters (tag : string) : string :=
  Py.replace_char "_" "-" (Py.lower tag).

Definition subtag_error {A} (subtag : string) (expected : string) : result A :=
  Raise (LanguageTagError ("Expected " +:+ expected +:+ ", got " +:+ Py.repr subtag)).

(** The default of [subtag_error]'s second argument. *)
Definition a_valid_subtag : string := "a valid subtag".

Definition order_error_message (got_str subtag expect_str : string) : string :=
  "This " +:+ got_str +:+ " subtag, " +:+ Py.repr subtag +:+
  ", is out of place. Expected " +:+ expect_str +:+ ".".

(** The English disjunction of [options], as [order_error] builds it. *)
Definition expect_str_of (options : list string) : result string :=
  if length options =? 1 then index options 0
  else if length options =? 2 then
    o0 ← index options 0; o1 ← index options 1; Ok (o0 +:+ " or " +:+ o1)
  else
    last_option ← index options (length options - 1);
    Ok (Py.join ", " (take (length options - 1) options) +:+ ", or " +:+ last_option).

Definition order_error {A} (subtag : string) (got expected : nat) : result A :=
  let options := drop expected SUBTAG_TYPES in
  expect_str ← expect_str_of options;
  got_str ← index SUBTAG_TYPES got;
  Raise (LanguageTagError (order_error_message got_str subtag expect_str)).

(** The [while] loop of [parse_extlang]; [rest] is [subtags[index:]]. *)
Fixpoint extlang_loop (rest : list string) (index : nat) (parsed : list component)
  : nat * list component :=
  match rest with
  | s :: rest' =>
      if (String.length s =? 3) && (index <? 3)
      then extlang_loop rest' (S index) (parsed ++ [("extlang", s)])
      else (index, parsed)
  | [] => (index, parsed)
  end.

(** The [while] loop of [parse_extension]; [rest] is [subtags[boundary:]]. *)
Fixpoint boundary_loop (rest : list string) (boundary : nat) : nat :=
  match rest with
  | s :: rest' =>
      if negb (String.length s =? 1) then boundary_loop rest' (S boundary)
      else boundary
  | [] => boundary
  end.

Section open_recursion.
(** [parse_subtags], as [parse_extlang] and [parse_extension] call it. *)
Variable parse_subtags : list string → nat → result (list component).

Definition parse_extlang_with (subtags : list string) : result (list component) :=
  let '(index, parsed) := extlang_loop subtags 0 [] in
  rest ← parse_subtags (drop index subtags) SCRIPT;
  Ok (parsed ++ rest).

Definition parse_extension_with (subtags : list string) : result (list component) :=
  subtag ← index subtags 0;
  if length subtags =? 1 then
    Raise (LanguageTagError
             ("The subtag " +:+ Py.repr subtag +:+ " must be followed by something"))
  else if String.eqb subtag "x" then
    Ok [("private", Py.join "-" subtags)]
  else
    let boundary := boundary_loop (drop 1 subtags) 1 in
    rest ← parse_subtags (drop boundary subtags) EXTENSION;
    Ok (("extension", Py.join "-" (take boundary subtags)) :: rest).

(** The tail of [parse_subtags], once [tagtype] is decided. *)
Definition parse_typed (subtag : string) (rest : list string) (expect : nat)
    (tagtype : option nat) : result (list component) :=
  match tagtype with
  | None => subtag_error subtag a_valid_subtag
  | Some tagtype =>
      if tagtype <? expect then order_error subtag tagtype expect
      else
        let expect :=
          if (tagtype =? SCRIPT) || (tagtype =? REGION) then tagtype + 1 else tagtype in
        typename ← index SUBTAG_TYPES tagtype;
        let subtag :=
          if tagtype =? SCRIPT then Py.title subtag
          else if tagtype =? REGION then Py.upper subtag
          else subtag in
        parsed ← parse_subtags rest expect;
        Ok ((typename, subtag) :: parsed)
  end.

Definition parse_subtags_body (subtags : list string) (expect : nat)
  : result (list component) :=
  match subtags with
  | [] => Ok []
  | subtag :: rest =>
      let tag_length := String.length subtag in
      if (tag_length =? 0) || (8 <? tag_length) then
        subtag_error subtag "1-8 characters"
      else if tag_length =? 1 then
        parse_extension_with subtags
      else if tag_length =? 2 then
        parse_typed subtag rest expect
          (if Py.isalpha subtag then Some REGION else None)
      else if tag_length =? 3 then
        if Py.isalpha subtag then
          if expect <=? EXTLANG then parse_extlang_with subtags
          else order_error subtag EXTLANG expect
        else
          parse_typed subtag rest expect
            (if Py.isdigit subtag then Some REGION else None)
      else if tag_length =? 4 then
        parse_typed subtag rest expect
          (if Py.isalpha subtag then Some SCRIPT
           else if Py.first_isdigit subtag then Some VARIANT
           else None)
      else
        parse_typed subtag rest expect (Some VARIANT)
  end.
End open_recursion.

(** Every recursive call is on a strictly shorter list of subtags, so a
    depth budget of one more than the number of subtags is never
    exhausted ([parse_subtags_unfold] and [parse_subtags_terminates]
    below). *)
Fixpoint parse_subtags_fuel (fuel : nat) (subtags : list string) (expect : nat)
  : result (list component) :=
  match fuel with
  | 0 => OutOfFuel
  | S fuel' => parse_subtags_body (parse_subtags_fuel fuel') subtags expect
  end.

Definition parse_subtags (subtags : list string) (expect : nat) : result (list component) :=
  parse_subtags_fuel (S (length subtags)) subtags expect.

Definition parse_extlang : list string → result (list component) :=
  parse_extlang_with parse_subtags.

Definition parse_extension : list string → result (list component) :=
  parse_extension_with parse_subtags.

Definition parse (tag : string) : result (list component) :=
  let tag := normalize_characters tag in
  if Py.str_in tag EXCEPTIONS then Ok [("grandfathered", tag)]
  else
    let subtags := Py.split "-" tag in
    subtag0 ← index subtags 0;
    if String.eqb subtag0 "x" then
      if length subtags =? 1 then
        Raise (LanguageTagError "'x' is not a language tag on its own")
      else Ok [("language", tag)]
    else if 2 <=? String.length subtag0 then
      parsed ← parse_subtags (drop 1 subtags) EXTLANG;
      Ok (("language", subtag0) :: parsed)
    else subtag_error subtag0 "a language code".

(** ** semantics.py *)

(** A value stored in a meaning: a string, or a set of strings. *)
Inductive fvalue : Type :=
| VStr (s : string)
| VSet (s : gset string).

#[global] Instance fvalue_eq_dec : EqDecision fvalue.
Proof. solve_decision. Defined.

(** The interface of [langcodes.db.LanguageDB] that [semantics.py] reads. *)
Record LanguageDB : Type := {
  language_replacements : bool → list (string * string);
  macrolanguages : list (string * string);
  region_replacements : list (string * string);
  suppressed_scripts : list (string * string)
}.

(** A dict comprehension over pairs: a later pair overwrites an earlier one. *)
Definition dict_of (pairs : list (string * string)) : gmap string string :=
  foldl (λ d kv, <[kv.1 := kv.2]> d) ∅ pairs.

(** [x in d] *)
Definition contains {V} (d : gmap string V) (k : string) : bool :=
  bool_decide (is_Some (d !! k)).

(** [d[k]] *)
Definition getitem {V} (d : gmap string V) (k : string) : result V :=
  match d !! k with
  | Some v => Ok v
  | None => Raise (KeyError k)
  end.

(** Truth value of a string or a set: empty is false. *)
Definition truthy (v : fvalue) : bool :=
  match v with
  | VStr s => negb (String.eqb s "")
  | VSet s => negb (bool_decide (s = ∅))
  end.

(** A value used as a dict key or formatted as a subtag must be a string. *)
Definition as_str (v : fvalue) : result string :=
  match v with
  | VStr s => Ok s
  | VSet _ => Raise TypeError
  end.

(** The items a [for] loop over the value sees (a string yields its characters). *)
Definition items_of (v : fvalue) : list string :=
  match v with
  | VSet s => elements s
  | VStr s => (λ c, String c "") <$> list_ascii_of_string s
  end.

(** [meaning.setdefault(typ, set()).add(value)] *)
Definition setdefault_add (meaning : gmap string fvalue) (typ value : string)
  : result (gmap string fvalue) :=
  match meaning !! typ with
  | None => Ok (<[typ := VSet {[ value ]}]> meaning)
  | Some (VSet s) => Ok (<[typ := VSet (s ∪ {[ value ]})]> meaning)
  | Some (VStr _) => Raise AttributeError
  end.

(** [meaning.update(other)]: the entries of [other] win. *)
Definition update (meaning other : gmap string fvalue) : gmap string fvalue :=
  other ∪ meaning.

(** A [for] loop whose body may raise. *)
Fixpoint for_each {S X} (body : S → X → result S) (s : S) (xs : list X) : result S :=
  match xs with
  | [] => Ok s
  | x :: xs' => s' ← body s x; for_each body s' xs'
  end.

Section semantics.
Variable DB : LanguageDB.
Variable LIKELY_SUBTAGS : gmap string string.

Definition NORMALIZED_LANGUAGES : gmap string string :=
  dict_of ((λ p, (Py.lower p.1, Py.lower p.2)) <$> language_replacements DB false).

Definition NORMALIZED_MACROLANGUAGES : gmap string string :=
  dict_of ((λ p, (Py.lower p.1, p.2)) <$> language_replacements DB true).

Definition MACROLANGUAGES : gmap string string :=
  dict_of (macrolanguages DB).

Definition NORMALIZED_REGIONS : gmap string string :=
  dict_of ((λ p, (Py.upper p.1, Py.upper p.2)) <$> region_replacements DB).

Definition DEFAULT_SCRIPTS : gmap string string :=
  dict_of (suppressed_scripts DB).

(** The body of the loop of [tag_to_meaning] for one component;
    [tag_to_meaning_rec] is the recursive call. *)
Definition tag_to_meaning_step
    (tag_to_meaning_rec : string → bool → result (gmap string fvalue))
    (normalize : bool) (meaning : gmap string fvalue) (c : component)
  : result (gmap string fvalue) :=
  let '(typ, value) := c in
  let accumulate_or_store :=
    if Py.str_in typ ["extlang"; "variant"; "extension"] then
      setdefault_add meaning typ value
    else if String.eqb typ "language" then
      if String.eqb value "und" then Ok meaning
      else if normalize && contains NORMALIZED_LANGUAGES value then
        replacement ← getitem NORMALIZED_LANGUAGES value;
        other ← tag_to_meaning_rec replacement normalize;
        Ok (update meaning other)
      else
        let meaning := <[typ := VStr value]> meaning in
        if contains MACROLANGUAGES value then
          macro ← getitem MACROLANGUAGES value;
          Ok (<["macrolanguage" := VStr macro]> meaning)
        else Ok meaning
    else if String.eqb typ "region" then
      if normalize && contains NORMALIZED_REGIONS value then
        new ← getitem NORMALIZED_REGIONS value;
        Ok (<[typ := VStr new]> meaning)
      else Ok (<[typ := VStr value]> meaning)
    else Ok (<[typ := VStr value]> meaning) in
  if String.eqb typ "extlang" && normalize then
    language ← getitem meaning "language";
    if truthy language then
      (* the language is only ever stored as a string
         ([tag_to_meaning_typed]), so [as_str] does not raise here *)
      language ← as_str language;
      let minitag := language +:+ "-" +:+ value in
      if contains NORMALIZED_LANGUAGES minitag then
        replacement ← getitem NORMALIZED_LANGUAGES minitag;
        other ← tag_to_meaning_rec replacement normalize;
        Ok (update meaning other)
      else setdefault_add meaning typ value
    else accumulate_or_store
  else accumulate_or_store.

(** [fuel] bounds the depth of the recursion through the replacement
    table, which the source does not bound. *)
Fixpoint tag_to_meaning (fuel : nat) (tag : string) (normalize : bool)
  : result (gmap string fvalue) :=
  match fuel with
  | 0 => OutOfFuel
  | S fuel' =>
      tag ← (if normalize && contains NORMALIZED_LANGUAGES (Py.lower tag)
             then getitem NORMALIZED_LANGUAGES (Py.lower tag)
             else Ok tag);
      components ← parse tag;
      for_each (tag_to_meaning_step (tag_to_meaning fuel') normalize) ∅ components
  end.

Definition prefer_macrolanguage (meaning : gmap string fvalue)
  : result (gmap string fvalue) :=
  language ← as_str (default (VStr "und") (meaning !! "language"));
  if contains NORMALIZED_MACROLANGUAGES language then
    new ← getitem NORMALIZED_MACROLANGUAGES language;
    let copied := <["language" := VStr new]> meaning in
    Ok (delete "macrolanguage" copied)
  else Ok meaning.

(** [subtags.append(meaning[key])] when [key in meaning] *)
Definition append_field (meaning : gmap string fvalue) (key : string)
    (subtags : list fvalue) : list fvalue :=
  match meaning !! key with
  | Some v => subtags ++ [v]
  | None => subtags
  end.

(** [for x in sorted(meaning[key]): subtags.append(x)] when [key in meaning] *)
Definition append_sorted (meaning : gmap string fvalue) (key : string)
    (subtags : list fvalue) : list fvalue :=
  match meaning !! key with
  | Some v => subtags ++ (VStr <$> Py.sorted (items_of v))
  | None => subtags
  end.

(** The final ['-'.join(subtags)] raises on an item that is not a string. *)
Definition meaning_to_tag (meaning : gmap string fvalue) : result string :=
  let subtags := [default (VStr "und") (meaning !! "language")] in
  let subtags := append_field meaning "script" subtags in
  let subtags := append_field meaning "region" subtags in
  let subtags := append_sorted meaning "variant" subtags in
  let subtags := append_sorted meaning "extension" subtags in
  let subtags := append_field meaning "private" subtags in
  strs ← mapM as_str subtags;
  Ok (Py.join "-" strs).

Definition simplify_script (meaning : gmap string fvalue)
  : result (gmap string fvalue) :=
  match meaning !! "language", meaning !! "script" with
  | Some language, Some script =>
      language ← as_str language;
      if bool_decide (VStr <$> DEFAULT_SCRIPTS !! language = Some script)
      then Ok (delete "script" meaning)
      else Ok meaning
  | _, _ => Ok meaning
  end.

Definition standardize_tag (fuel : nat) (tag : string) (macro : bool) : result string :=
  meaning ← tag_to_meaning fuel tag true;
  meaning ← (if macro then prefer_macrolanguage meaning else Ok meaning);
  simplified ← simplify_script meaning;
  meaning_to_tag simplified.
End semantics.

(** [mine.issubset(yours)]: [yours] is iterated, whatever it is. *)
Definition issubset (mine : gset string) (yours : fvalue) : bool :=
  forallb (λ x, Py.str_in x (items_of yours)) (elements mine).

(** The loop of [meaning_superset] over the items of [meaning1]. *)
Fixpoint meaning_superset_loop (items : list (string * fvalue))
    (meaning2 : gmap string fvalue) : bool :=
  match items with
  | [] => true
  | (key, mine) :: items' =>
      match meaning2 !! key with
      | None => false
      | Some yours =>
          match mine with
          | VSet mine =>
              if negb (issubset mine yours) then false
              else meaning_superset_loop items' meaning2
          | VStr _ =>
              if negb (bool_decide (mine = yours)) then false
              else meaning_superset_loop items' meaning2
          end
      end
  end.

Definition meaning_superset (meaning1 meaning2 : gmap string fvalue) : bool :=
  meaning_superset_loop (map_to_list meaning1) meaning2.

Definition BROADER_KEYSETS : list (list string) :=
  [ ["language"; "script"; "region"];
    ["language"; "script"];
    ["language"; "region"];
    ["language"];
    ["macrolanguage"; "script"; "region"];
    ["macrolanguage"; "script"];
    ["macrolanguage"; "region"];
    ["macrolanguage"];
    ["script"; "region"];
    ["script"];
    ["region"];
    [] ].

(** [{key: d[key] for key in keys if key in d}] *)
Definition restrict (d : gmap string fvalue) (keys : list string) : gmap string fvalue :=
  foldl (λ filtered key,
           match d !! key with
           | Some v => <[key := v]> filtered
           | None => filtered
           end) ∅ keys.

Definition _filter_keys (d : gmap string fvalue) (keys : list string)
  : gmap string fvalue :=
  let filtered := restrict d keys in
  match filtered !! "macrolanguage", filtered !! "language" with
  | Some macro, None => delete "macrolanguage" (<["language" := macro]> filtered)
  | _, _ => filtered
  end.

(** The generator, as the list of what it yields. *)
Definition broader_meanings (meaning : gmap string fvalue) : list (gmap string fvalue) :=
  meaning ::
  filter (λ filtered, filtered ≠ meaning) (_filter_keys meaning <$> BROADER_KEYSETS).

Definition likely_subtags_failure : string :=
  "Couldn't fill in likely values. This represents a problem with " +:+
  "langcodes.db.LIKELY_SUBTAGS.".

Section likely.
Variable DB : LanguageDB.
Variable LIKELY_SUBTAGS : gmap string string.

(** The loop of [fill_likely_values] over what [broader_meanings] yields. *)
Fixpoint fill_likely_loop (fuel : nat) (meaning : gmap string fvalue)
    (candidates : list (gmap string fvalue)) : result (gmap string fvalue) :=
  match candidates with
  | [] => Raise (RuntimeError likely_subtags_failure)
  | check_meaning :: candidates' =>
      tag ← meaning_to_tag check_meaning;
      if contains LIKELY_SUBTAGS tag then
        likely ← getitem LIKELY_SUBTAGS tag;
        result ← tag_to_meaning DB fuel likely true;
        Ok (update result meaning)
      else fill_likely_loop fuel meaning candidates'
  end.

Definition fill_likely_values (fuel : nat) (meaning : gmap string fvalue)
  : result (gmap string fvalue) :=
  fill_likely_loop fuel meaning (broader_meanings meaning).
End likely.

(** ** A sample of the registry

    Modelled from the spec: the contents of [langcodes.db] are not part of
    the embedded modules.  These are the entries that the documented
    examples of [standardize_tag] and [tag_to_meaning] rely on; they serve
    as a concrete instance of the tables. *)
Definition sample_DB : LanguageDB := {|
  language_replacements := λ macro,
    if macro then [("cmn", "zh"); ("arb", "ar")]
    else [("sgn-US", "ase"); ("sh", "sr-Latn"); ("zh-cmn", "cmn"); ("zh-yue", "yue")];
  macrolanguages := [("sr", "sh"); ("cmn", "zh"); ("yue", "zh"); ("arb", "ar")];
  region_replacements := [("UK", "GB"); ("QU", "EU")];
  suppressed_scripts := [("en", "Latn"); ("yi", "Hebr"); ("ar", "Arab")]
|}.

(** Modelled from the spec: the table [langcodes.db.LIKELY_SUBTAGS] is not
    part of the embedded modules.  A sample of it: the empty record, [en]
    and [zh] have an entry. *)
Definition sample_LIKELY_SUBTAGS : gmap string string :=
  dict_of [("und", "en-Latn-US"); ("en", "en-Latn-US"); ("zh", "zh-Hans-CN")].

(** ** Notions used to state the properties *)

(** Kind detection by subtag shape, as the specification lists it
    (section 4.2), giving the rank of the detected kind. *)
Definition detected_rank (subtag : string) : option nat :=
  let n := String.length subtag in
  if n =? 1 then Some EXTENSION
  else if (n =? 2) && Py.isalpha subtag then Some REGION
  else if (n =? 3) && Py.isalpha subtag then Some EXTLANG
  else if (n =? 3) && Py.isdigit subtag then Some REGION
  else if (n =? 4) && Py.isalpha subtag then Some SCRIPT
  else if (n =? 4) && Py.first_isdigit subtag then Some VARIANT
  else if (5 <=? n) && (n <=? 8) then Some VARIANT
  else None.

(** The rank of a component type; [private] and [language] have none. *)
Definition kind_rank (typ : string) : option nat :=
  if String.eqb typ "extlang" then Some EXTLANG
  else if String.eqb typ "script" then Some SCRIPT
  else if String.eqb typ "region" then Some REGION
  else if String.eqb typ "variant" then Some VARIANT
  else if String.eqb typ "extension" then Some EXTENSION
  else None.

Definition ranks (components : list component) : list nat :=
  omap (λ c, kind_rank c.1) components.

Definition count_rank (r : nat) (components : list component) : nat :=
  length (filter (λ x, x = r) (ranks components)).

(** Components in the order of the ranks, none below the cursor [expect],
    with at most one script and at most one region. *)
Definition ordered_from (expect : nat) (components : list component) : Prop :=
  StronglySorted le (ranks components) ∧
  Forall (le expect) (ranks components) ∧
  count_rank SCRIPT components ≤ 1 ∧
  count_rank REGION components ≤ 1.

(** The macrolanguage annotation of a language that is stored as it is. *)
Definition annotate_macrolanguage (table : gmap string string) (value : string)
    (meaning : gmap string fvalue) : gmap string fvalue :=
  match table !! value with
  | Some macro => <["macrolanguage" := VStr macro]> meaning
  | None => meaning
  end.

(** The field names of a meaning record, as the specification documents them. *)
Definition MEANING_FIELDS : list string :=
  [ "language"; "macrolanguage"; "script"; "region";
    "extlang"; "variant"; "extension"; "private" ].

(** The types of the components that [parse] returns. *)
Definition COMPONENT_TYPES : list string :=
  [ "language"; "extlang"; "script"; "region"; "variant"; "extension";
    "private"; "grandfathered" ].

(** Every key of [meaning] satisfies [P]. *)
Definition keys_in (P : string → Prop) (meaning : gmap string fvalue) : Prop :=
  ∀ k, is_Some (meaning !! k) → P k.

(** The set stored under [typ], empty when there is none. *)
Definition set_at (meaning : gmap string fvalue) (typ : string) : gset string :=
  match meaning !! typ with
  | Some (VSet s) => s
  | _ => ∅
  end.

(** The structural transcription of a classification, as the
    specification words it: the values of [extlang], [variant] and
    [extension] accumulate into sets, the undetermined language is
    dropped, every other kind is stored as it is.  [table] annotates a
    stored language with its macrolanguage; with the empty table the
    transcription is literal. *)
Definition transcribe_step (table : gmap string string)
    (meaning : gmap string fvalue) (c : component) : gmap string fvalue :=
  let '(typ, value) := c in
  if Py.str_in typ ["extlang"; "variant"; "extension"] then
    <[typ := VSet (set_at meaning typ ∪ {[ value ]})]> meaning
  else if String.eqb typ "language" then
    if String.eqb value "und" then meaning
    else annotate_macrolanguage table value (<["language" := VStr value]> meaning)
  else <[typ := VStr value]> meaning.

Definition transcribe (table : gmap string string) (components : list component)
  : gmap string fvalue :=
  foldl (transcribe_step table) ∅ components.

(** The fields that hold sets do hold sets. *)
Definition sets_typed (meaning : gmap string fvalue) : Prop :=
  ∀ typ v, typ ∈ ["extlang"; "variant"; "extension"] →
           meaning !! typ = Some v → ∃ s, v = VSet s.

(** A registry with no entry at all. *)
Definition no_DB : LanguageDB := {|
  language_replacements := λ _, [];
  macrolanguages := [];
  region_replacements := [];
  suppressed_scripts := []
|}.

(** The fields of a meaning record whose values are sets. *)
Definition SET_FIELDS : list string := ["variant"; "extension"; "extlang"].

(** A meaning record as section 3 of the specification describes it: a set
    under each set-valued field, a string under every other field. *)
Definition well_formed (meaning : gmap string fvalue) : Prop :=
  ∀ k v, meaning !! k = Some v →
         if bool_decide (k ∈ SET_FIELDS) then ∃ s, v = VSet s else ∃ s, v = VStr s.

(** What [meaning_superset] requires of one field. *)
Definition field_within (mine yours : fvalue) : bool :=
  match mine with
  | VSet s => issubset s yours
  | VStr _ => bool_decide (mine = yours)
  end.

(** The candidate [check_meaning] has a tag, and the tag has no entry in
    the table of likely subtags. *)
Definition no_likely_entry (LIKELY_SUBTAGS : gmap string string)
    (check_meaning : gmap string fvalue) : Prop :=
  ∃ tag, meaning_to_tag check_meaning = Ok tag ∧ LIKELY_SUBTAGS !! tag = None.

(** The entries of the registry that the documented examples of
    [standardize_tag] go through, read in the tables that [semantics.py]
    derives from it. *)
Record documented_entries (DB : LanguageDB) : Prop := {
  (* tags and languages that are replaced *)
  replaced_sgn_us : NORMALIZED_LANGUAGES DB !! "sgn-us" = Some "ase";
  replaced_sh : NORMALIZED_LANGUAGES DB !! "sh" = Some "sr-latn";
  replaced_zh_cmn : NORMALIZED_LANGUAGES DB !! "zh-cmn" = Some "cmn";
  (* tags and languages that are not *)
  kept_en_us : NORMALIZED_LANGUAGES DB !! "en_us" = None;
  kept_en_latn : NORMALIZED_LANGUAGES DB !! "en-latn" = None;
  kept_en_uk : NORMALIZED_LANGUAGES DB !! "en-uk" = None;
  kept_sh_qu : NORMALIZED_LANGUAGES DB !! "sh-qu" = None;
  kept_sr_latn : NORMALIZED_LANGUAGES DB !! "sr-latn" = None;
  kept_zh_cmn_hans_cn : NORMALIZED_LANGUAGES DB !! "zh-cmn-hans-cn" = None;
  kept_en : NORMALIZED_LANGUAGES DB !! "en" = None;
  kept_sr : NORMALIZED_LANGUAGES DB !! "sr" = None;
  kept_ase : NORMALIZED_LANGUAGES DB !! "ase" = None;
  kept_zh : NORMALIZED_LANGUAGES DB !! "zh" = None;
  kept_cmn : NORMALIZED_LANGUAGES DB !! "cmn" = None;
  (* regions *)
  region_uk : NORMALIZED_REGIONS DB !! "UK" = Some "GB";
  region_qu : NORMALIZED_REGIONS DB !! "QU" = Some "EU";
  region_us : NORMALIZED_REGIONS DB !! "US" = None;
  region_cn : NORMALIZED_REGIONS DB !! "CN" = None;
  (* default scripts *)
  script_en : DEFAULT_SCRIPTS DB !! "en" = Some "Latn";
  script_sr : DEFAULT_SCRIPTS DB !! "sr" = None;
  script_zh : DEFAULT_SCRIPTS DB !! "zh" = None;
  (* macrolanguage preference *)
  macro_cmn : NORMALIZED_MACROLANGUAGES DB !! "cmn" = Some "zh"
}.

(** [r1] is [r2], unless the budget of [r1] was exhausted. *)
Definition below {A} (r1 r2 : result A) : Prop := r1 = OutOfFuel ∨ r1 = r2.

(** ** The remaining transform of semantics.py *)

(** [assume_script]: the default script of the language is filled in when
    the record has a language and no script.  The look-up
    [DEFAULT_SCRIPTS[lang]] raises [TypeError] on a key that is not a
    string; its [KeyError] is caught. *)
Definition assume_script (DB : LanguageDB) (meaning : gmap string fvalue)
  : result (gmap string fvalue) :=
  match meaning !! "language", meaning !! "script" with
  | Some lang, None =>
      lang ← as_str lang;
      match DEFAULT_SCRIPTS DB !! lang with
      | Some script => Ok (<["script" := VStr script]> meaning)
      | None => Ok meaning
      end
  | _, _ => Ok meaning
  end.

(** ** Further notions used to state properties *)

(** The conventional form of the value of a component, by its type. *)
Definition well_shaped (c : component) : Prop :=
  (c.1 = "extlang" → String.length c.2 = 3) ∧
  (c.1 = "script" →
     String.length c.2 = 4 ∧ Py.isalpha c.2 = true ∧ Py.title c.2 = c.2) ∧
  (c.1 = "region" →
     (String.length c.2 = 2 ∧ Py.isalpha c.2 = true ∨
      String.length c.2 = 3 ∧ Py.isdigit c.2 = true) ∧ Py.upper c.2 = c.2) ∧
  (c.1 = "variant" →
     String.length c.2 = 4 ∧ Py.first_isdigit c.2 = true ∨
     5 ≤ String.length c.2 ≤ 8).

(** The types of the components that follow the language. *)
Definition SUBTAG_COMPONENT_TYPES : list string :=
  [ "extlang"; "script"; "region"; "variant"; "extension"; "private" ].

(** A [private] component, if there is one, is the last component. *)
Definition private_last (components : list component) : Prop :=
  ∀ i v, components !! i = Some ("private", v) → S i = length components.

(** What [tag_to_meaning] can come out with: a record with sets under the
    set-valued fields and strings elsewhere, and with a language when it
    has a macrolanguage; or [LanguageTagError]; or, when normalizing,
    [KeyError] on [language]; or an exhausted budget. *)
Definition builder_outcome (normalize : bool) (r : result (gmap string fvalue)) : Prop :=
  match r with
  | Ok meaning =>
      well_formed meaning ∧
      (is_Some (meaning !! "macrolanguage") → is_Some (meaning !! "language"))
  | Raise e =>
      (∃ msg, e = LanguageTagError msg) ∨ (normalize = true ∧ e = KeyError "language")
  | OutOfFuel => True
  end.

(** The fields that [meaning_to_tag] reads. *)
Definition TAG_FIELDS : list string :=
  [ "language"; "script"; "region"; "variant"; "extension"; "private" ].

(** The tag written from a language subtag, an optional script and an
    optional region, joined by hyphens: [language[-Script][-REGION]]. *)
Definition canonical_tag (language : string) (script region : option string) : string :=
  Py.join "-" (language :: option_list script ++ option_list region).

(** The components such a tag stands for. *)
Definition canonical_components (language : string) (script region : option string)
  : list component :=
  ("language", language) ::
    ((λ s, ("script", s)) <$> option_list script) ++
    ((λ r, ("region", r)) <$> option_list region).

(** The subtags are in conventional form: a lower-case language subtag of
    two characters or more, a title-case script of four letters, an
    upper-case region of two letters or three digits. *)
Definition conventional_form (language : string) (script region : option string) : Prop :=
  2 ≤ String.length language ∧
  normalize_characters language = language ∧
  Py.has_char "-" language = false ∧
  (∀ s, script = Some s → well_shaped ("script", s)) ∧
  (∀ r, region = Some r → well_shaped ("region", r)).

(** The tables of [DB] leave the tag alone: no replacement for the whole
    tag, the language or the region, a script that is not the default one
    of the language and, when macrolanguages are preferred, no preferred
    macrolanguage. *)
Definition left_alone (DB : LanguageDB) (macro : bool)
    (language : string) (script region : option string) : Prop :=
  NORMALIZED_LANGUAGES DB !! Py.lower (canonical_tag language script region) = None ∧
  NORMALIZED_LANGUAGES DB !! language = None ∧
  (∀ r, region = Some r → NORMALIZED_REGIONS DB !! r = None) ∧
  (∀ s, script = Some s → DEFAULT_SCRIPTS DB !! language ≠ Some s) ∧
  (macro = true → NORMALIZED_MACROLANGUAGES DB !! language = None).

(** Modelled from the spec: the restriction of a record to a key set,
    described field by field.  [kept M keys k] is the field [k] of [M] when
    [k] is one of [keys]; in the restriction, a macrolanguage that is kept
    without a language stands under [language]. *)
Definition kept (M : gmap string fvalue) (keys : list string) (k : string)
  : option fvalue :=
  if bool_decide (k ∈ keys) then M !! k else None.

Definition restriction_field (M : gmap string fvalue) (keys : list string) (k : string)
  : option fvalue :=
  match kept M keys "macrolanguage", kept M keys "language" with
  | Some macro, None =>
      if String.eqb k "language" then Some macro
      else if String.eqb k "macrolanguage" then None
      else kept M keys k
  | _, _ => kept M keys k
  end.

Definition is_restriction (M : gmap string fvalue) (keys : list string)
    (r : gmap string fvalue) : Prop :=
  ∀ k, r !! k = restriction_field M keys k.

(** * Properties *)

(** Closed equations are settled by evaluation. *)
Ltac by_computation :=
  lazymatch goal with
  | |- ?l = ?r => vm_cast_no_check (@eq_refl _ r)
  end.

(** ** The recursion of the parser *)

Lemma extlang_loop_index_ge rest i parsed :
  i ≤ (extlang_loop rest i parsed).1.
Proof.
  revert i parsed. induction rest as [|s rest IH]; intros i parsed; simpl; [lia|].
  destruct (_ && _); simpl; [|lia].
  specialize (IH (S i) (parsed ++ [("extlang", s)])). lia.
Qed.

Lemma extlang_loop_progress s rest :
  String.length s = 3 → 1 ≤ (extlang_loop (s :: rest) 0 []).1.
Proof.
  intros Hs. simpl. rewrite Hs. simpl. apply extlang_loop_index_ge.
Qed.

Lemma boundary_loop_ge rest b : b ≤ boundary_loop rest b.
Proof.
  revert b. induction rest as [|s rest IH]; intros b; simpl; [lia|].
  destruct (negb _); [|lia]. specialize (IH (S b)). lia.
Qed.

Lemma parse_typed_ext rec1 rec2 subtag rest expect tagtype :
  (∀ e, rec1 rest e = rec2 rest e) →
  parse_typed rec1 subtag rest expect tagtype = parse_typed rec2 subtag rest expect tagtype.
Proof.
  intros Hrec. unfold parse_typed. destruct tagtype as [t|]; [|done].
  destruct (t <? expect); [done|]. by rewrite Hrec.
Qed.

Lemma parse_subtags_body_ext rec1 rec2 subtags expect :
  (∀ l e, length l < length subtags → rec1 l e = rec2 l e) →
  parse_subtags_body rec1 subtags expect = parse_subtags_body rec2 subtags expect.
Proof.
  intros Hrec. destruct subtags as [|subtag rest]; [done|].
  assert (Htyped : ∀ e t, parse_typed rec1 subtag rest e t = parse_typed rec2 subtag rest e t).
  { intros. apply parse_typed_ext. intros. apply Hrec. simpl. lia. }
  unfold parse_subtags_body.
  destruct (_ || _); [done|].
  destruct (String.length subtag =? 1).
  { unfold parse_extension_with. simpl.
    destruct (length rest =? 0); [done|]. destruct (String.eqb _ _); [done|].
    rewrite Hrec; [done|].
    pose proof (boundary_loop_ge rest 1).
    rewrite length_drop, drop_0. simpl. lia. }
  destruct (String.length subtag =? 2); [apply Htyped|].
  destruct (String.length subtag =? 3) eqn:H3; [|by rewrite !Htyped].
  destruct (Py.isalpha subtag); [|apply Htyped].
  destruct (expect <=? EXTLANG); [|done].
  unfold parse_extlang_with.
  pose proof (extlang_loop_progress subtag rest) as Hp.
  destruct (extlang_loop (subtag :: rest) 0 []) as [i parsed]. simpl in Hp.
  rewrite Hrec; [done|]. rewrite length_drop. simpl.
  apply Nat.eqb_eq in H3. specialize (Hp H3). lia.
Qed.

Lemma parse_subtags_fuel_irrel fuel1 fuel2 subtags expect :
  length subtags < fuel1 → length subtags < fuel2 →
  parse_subtags_fuel fuel1 subtags expect = parse_subtags_fuel fuel2 subtags expect.
Proof.
  revert fuel2 subtags expect.
  induction fuel1 as [|fuel1 IH]; intros fuel2 subtags expect H1 H2; [lia|].
  destruct fuel2 as [|fuel2]; [lia|]. simpl.
  apply parse_subtags_body_ext. intros l e Hl. apply IH; lia.
Qed.

(** [parse_subtags] satisfies the recursive equation of the source. *)
Lemma parse_subtags_unfold subtags expect :
  parse_subtags subtags expect = parse_subtags_body parse_subtags subtags expect.
Proof.
  unfold parse_subtags at 1. simpl.
  apply parse_subtags_body_ext. intros l e Hl.
  apply parse_subtags_fuel_irrel; lia.
Qed.

(** ** Shape detection and the dispatch of [parse_subtags] *)

Ltac length_cases s :=
  destruct (String.length s) as [|[|[|[|[|[|[|[|[|?]]]]]]]]];
  cbn [Nat.eqb Nat.leb Nat.ltb orb andb] in *.

Lemma detected_rank_cases subtag t :
  detected_rank subtag = Some t →
  t = EXTLANG ∨ t = SCRIPT ∨ t = REGION ∨ t = VARIANT ∨ t = EXTENSION.
Proof.
  unfold detected_rank, EXTLANG, SCRIPT, REGION, VARIANT, EXTENSION.
  length_cases subtag; repeat case_match; intros; simplify_eq; auto.
Qed.

Lemma parse_subtags_typed subtag rest expect t :
  detected_rank subtag = Some t →
  t = SCRIPT ∨ t = REGION ∨ t = VARIANT →
  parse_subtags (subtag :: rest) expect =
    parse_typed parse_subtags subtag rest expect (Some t).
Proof.
  intros Hd Ht. rewrite parse_subtags_unfold.
  unfold detected_rank, parse_subtags_body in *.
  unfold EXTLANG, SCRIPT, REGION, VARIANT, EXTENSION in *.
  length_cases subtag; repeat case_match; simplify_eq; try done; lia.
Qed.

Lemma parse_subtags_extlang subtag rest expect :
  detected_rank subtag = Some EXTLANG →
  parse_subtags (subtag :: rest) expect =
    if expect <=? EXTLANG then parse_extlang (subtag :: rest)
    else order_error subtag EXTLANG expect.
Proof.
  intros Hd. rewrite parse_subtags_unfold.
  unfold detected_rank, parse_subtags_body in *.
  unfold EXTLANG, SCRIPT, REGION, VARIANT, EXTENSION in *.
  length_cases subtag; repeat case_match; simplify_eq; done.
Qed.

Lemma parse_subtags_extension subtag rest expect :
  detected_rank subtag = Some EXTENSION →
  parse_subtags (subtag :: rest) expect = parse_extension (subtag :: rest).
Proof.
  intros Hd. rewrite parse_subtags_unfold.
  unfold detected_rank, parse_subtags_body in *.
  unfold EXTLANG, SCRIPT, REGION, VARIANT, EXTENSION in *.
  length_cases subtag; repeat case_match; simplify_eq; done.
Qed.

Lemma parse_subtags_undetected subtag rest expect :
  detected_rank subtag = None →
  ∃ msg, parse_subtags (subtag :: rest) expect = Raise (LanguageTagError msg).
Proof.
  intros Hd. rewrite parse_subtags_unfold.
  unfold detected_rank, parse_subtags_body, parse_typed, subtag_error in *.
  unfold EXTLANG, SCRIPT, REGION, VARIANT, EXTENSION in *.
  length_cases subtag; repeat case_match; simplify_eq; eauto.
Qed.

(** ** The two loops *)

Lemma extlang_loop_spec rest i parsed :
  ∃ n, extlang_loop rest i parsed
         = (i + n, parsed ++ ((λ s, ("extlang", s)) <$> take n rest))
       ∧ n ≤ length rest ∧ n ≤ 3 - i
       ∧ Forall (λ s, String.length s = 3) (take n rest)
       ∧ (3 ≤ i + n ∨ ∀ s, drop n rest !! 0 = Some s → String.length s ≠ 3).
Proof.
  revert i parsed. induction rest as [|s rest IH]; intros i parsed; simpl.
  { exists 0. rewrite Nat.add_0_r, app_nil_r. repeat split; auto with lia.
    all: right; intros s; by rewrite drop_nil. }
  destruct (String.length s =? 3) eqn:Hs; simpl; cycle 1.
  { exists 0. simpl. rewrite Nat.add_0_r, app_nil_r. repeat split; auto with lia.
    all: right; intros s' [= <-]; by apply Nat.eqb_neq. }
  destruct (i <? 3) eqn:Hi; simpl; cycle 1.
  { exists 0. simpl. rewrite Nat.add_0_r, app_nil_r. repeat split; auto with lia.
    all: left; apply Nat.ltb_ge in Hi; lia. }
  destruct (IH (S i) (parsed ++ [("extlang", s)])) as (n & -> & Hn & Hi' & Hall & Hmax).
  apply Nat.ltb_lt in Hi. apply Nat.eqb_eq in Hs.
  exists (S n). simpl. rewrite <- app_assoc. simpl.
  repeat split; [f_equal; lia | lia | lia | by constructor |].
  destruct Hmax; [left; lia | by right].
Qed.

Lemma parse_extlang_spec subtag rest :
  String.length subtag = 3 →
  ∃ n, 1 ≤ n ≤ 3 ∧ n ≤ length (subtag :: rest) ∧
       Forall (λ s, String.length s = 3) (take n (subtag :: rest)) ∧
       (n = 3 ∨ ∀ s, drop n (subtag :: rest) !! 0 = Some s → String.length s ≠ 3) ∧
       parse_extlang (subtag :: rest) =
         (parsed ← parse_subtags (drop n (subtag :: rest)) SCRIPT;
          Ok (((λ s, ("extlang", s)) <$> take n (subtag :: rest)) ++ parsed)).
Proof.
  intros Hs. unfold parse_extlang, parse_extlang_with.
  pose proof (extlang_loop_progress subtag rest Hs) as Hp.
  destruct (extlang_loop_spec (subtag :: rest) 0 []) as (n & Heq & Hn & H3 & Hall & Hmax).
  rewrite Heq in *. simpl in Hp. exists n. repeat split; auto with lia.
  destruct Hmax; [left; lia | by right].
Qed.

Lemma boundary_loop_spec rest b :
  ∃ n, boundary_loop rest b = b + n ∧ n ≤ length rest.
Proof.
  revert b. induction rest as [|s rest IH]; intros b; simpl.
  { exists 0. lia. }
  destruct (negb _).
  - destruct (IH (S b)) as (n & -> & Hn). exists (S n). lia.
  - exists 0. lia.
Qed.

(** ** The components come out in rank order *)

Lemma ranks_cons typ v components :
  ranks ((typ, v) :: components) =
    match kind_rank typ with
    | Some r => r :: ranks components
    | None => ranks components
    end.
Proof. unfold ranks. simpl. by destruct (kind_rank typ). Qed.


Lemma count_rank_above r expect components :
  r < expect → Forall (le expect) (ranks components) → count_rank r components = 0.
Proof.
  intros Hr Hall. unfold count_rank.
  induction Hall as [|x l Hx Hall IH]; [done|].
  rewrite filter_cons. destruct (decide (x = r)); [lia|done].
Qed.

Lemma ordered_from_nil expect : ordered_from expect [].
Proof. repeat split; try constructor; unfold count_rank; simpl; lia. Qed.

Lemma ordered_from_weaken expect expect' components :
  expect ≤ expect' → ordered_from expect' components → ordered_from expect components.
Proof.
  intros Hle (Hs & Hall & H1 & H2). repeat split; auto.
  eapply Forall_impl; [exact Hall|]. simpl. lia.
Qed.

Lemma ordered_from_cons typ v t expect expect' components :
  kind_rank typ = Some t →
  expect ≤ t → t ≤ expect' →
  (t = SCRIPT ∨ t = REGION → t < expect') →
  ordered_from expect' components →
  ordered_from expect ((typ, v) :: components).
Proof.
  intros Hk Het Hte Hstrict (Hs & Hall & H1 & H2).
  assert (Hall' : Forall (le t) (ranks components)).
  { eapply Forall_impl; [exact Hall|]. simpl. lia. }
  unfold ordered_from, count_rank in *. rewrite ranks_cons, Hk.
  split; [by constructor|]. split.
  { constructor; [done|]. eapply Forall_impl; [exact Hall'|]. simpl. lia. }
  rewrite !filter_cons.
  split; case_decide; simpl; try lia; subst t.
  - pose proof (count_rank_above SCRIPT expect' components) as Hc.
    unfold count_rank in Hc. rewrite Hc; auto.
  - pose proof (count_rank_above REGION expect' components) as Hc.
    unfold count_rank in Hc. rewrite Hc; auto.
Qed.

Lemma ordered_from_no_rank expect typ v components :
  kind_rank typ = None →
  ordered_from expect components → ordered_from expect ((typ, v) :: components).
Proof.
  intros Hk. unfold ordered_from, count_rank. by rewrite ranks_cons, Hk.
Qed.

Lemma ordered_from_extlangs (l : list string) components :
  ordered_from SCRIPT components →
  ordered_from EXTLANG (((λ s, ("extlang", s)) <$> l) ++ components).
Proof.
  intros H. induction l as [|s l IH]; simpl.
  - eapply ordered_from_weaken; [|exact H]. unfold EXTLANG. lia.
  - destruct IH as (Hs & Hall & H1 & H2).
    unfold ordered_from, count_rank in *. rewrite ranks_cons. simpl.
    repeat split; auto.
    constructor; [done|]. eapply Forall_impl; [exact Hall|]. simpl. lia.
Qed.

Lemma bind_Ok {A B} (r : result A) (f : A → result B) b :
  r ≫= f = Ok b → ∃ a, r = Ok a ∧ f a = Ok b.
Proof. destruct r; simpl; intros; simplify_eq; eauto. Qed.

Lemma parse_subtags_ordered subtags expect components :
  expect ≤ EXTENSION →
  parse_subtags subtags expect = Ok components →
  ordered_from expect components.
Proof.
  remember (length subtags) as n eqn:Hn.
  revert subtags expect components Hn.
  induction n as [n IH] using lt_wf_ind.
  intros [|subtag rest] expect components Hn Hexp Hparse.
  { rewrite parse_subtags_unfold in Hparse. simpl in Hparse.
    simplify_eq. apply ordered_from_nil. }
  simpl in Hn.
  destruct (detected_rank subtag) as [t|] eqn:Hd; cycle 1.
  { destruct (parse_subtags_undetected subtag rest expect Hd). congruence. }
  destruct (detected_rank_cases _ _ Hd) as [-> | [Ht | [Ht | [Ht | ->]]]].
  - (* extlang *)
    rewrite (parse_subtags_extlang _ _ _ Hd) in Hparse.
    destruct (expect <=? EXTLANG) eqn:He; cycle 1.
    { unfold order_error in Hparse.
      destruct (expect_str_of _); simpl in Hparse; done. }
    apply Nat.leb_le in He.
    assert (Hlen : String.length subtag = 3).
    { revert Hd. unfold detected_rank, EXTLANG, SCRIPT, REGION, VARIANT, EXTENSION.
      length_cases subtag; repeat case_match; intros; simplify_eq; done. }
    destruct (parse_extlang_spec subtag rest Hlen) as (k & Hk & Hkl & _ & _ & Heq).
    rewrite Heq in Hparse. apply bind_Ok in Hparse as (parsed & Hrec & Hok).
    simplify_eq.
    eapply ordered_from_weaken; [exact He|].
    apply ordered_from_extlangs.
    eapply (IH (length (drop k (subtag :: rest)))); [|done| |exact Hrec].
    + rewrite length_drop. simpl. lia.
    + unfold SCRIPT, EXTENSION. lia.
  - (* script *)
    rewrite (parse_subtags_typed _ _ _ _ Hd) in Hparse by auto. subst t.
    unfold parse_typed in Hparse.
    destruct (SCRIPT <? expect) eqn:Hlt.
    { unfold order_error in Hparse.
      destruct (expect_str_of _); simpl in Hparse; done. }
    apply Nat.ltb_ge in Hlt. simpl in Hparse.
    apply bind_Ok in Hparse as (parsed & Hrec & Hok). simplify_eq.
    eapply (ordered_from_cons _ _ SCRIPT _ (SCRIPT + 1)); auto with lia.
    eapply (IH (length rest)); [lia|done| |exact Hrec].
    unfold SCRIPT, EXTENSION. lia.
  - (* region *)
    rewrite (parse_subtags_typed _ _ _ _ Hd) in Hparse by auto. subst t.
    unfold parse_typed in Hparse.
    destruct (REGION <? expect) eqn:Hlt.
    { unfold order_error in Hparse.
      destruct (expect_str_of _); simpl in Hparse; done. }
    apply Nat.ltb_ge in Hlt. simpl in Hparse.
    apply bind_Ok in Hparse as (parsed & Hrec & Hok). simplify_eq.
    eapply (ordered_from_cons _ _ REGION _ (REGION + 1)); auto with lia.
    eapply (IH (length rest)); [lia|done| |exact Hrec].
    unfold REGION, EXTENSION. lia.
  - (* variant *)
    rewrite (parse_subtags_typed _ _ _ _ Hd) in Hparse by auto. subst t.
    unfold parse_typed in Hparse.
    destruct (VARIANT <? expect) eqn:Hlt.
    { unfold order_error in Hparse.
      destruct (expect_str_of _); simpl in Hparse; done. }
    apply Nat.ltb_ge in Hlt. simpl in Hparse.
    apply bind_Ok in Hparse as (parsed & Hrec & Hok). simplify_eq.
    eapply (ordered_from_cons _ _ VARIANT _ VARIANT); auto.
    { unfold VARIANT, SCRIPT, REGION. lia. }
    eapply (IH (length rest)); [lia|done| |exact Hrec].
    unfold VARIANT, EXTENSION. lia.
  - (* extension *)
    rewrite (parse_subtags_extension _ _ _ Hd) in Hparse.
    unfold parse_extension, parse_extension_with in Hparse. simpl in Hparse.
    destruct (length rest =? 0); [done|].
    destruct (String.eqb subtag "x").
    { simplify_eq. apply ordered_from_no_rank; [done|]. apply ordered_from_nil. }
    apply bind_Ok in Hparse as (parsed & Hrec & Hok). simplify_eq.
    destruct (boundary_loop_spec (drop 0 rest) 1) as (k & Hk & _).
    eapply (ordered_from_cons _ _ EXTENSION _ EXTENSION); auto.
    { unfold EXTENSION, SCRIPT, REGION. lia. }
    eapply IH; [|done| |exact Hrec]; [|done].
    rewrite length_drop, Hk. simpl. lia.
Qed.

(** ** The ordering error *)

Lemma order_error_raises {A} subtag got expected :
  got ≤ EXTENSION → expected ≤ EXTENSION + 1 →
  ∃ got_str expect_str,
    SUBTAG_TYPES !! got = Some got_str ∧
    expect_str_of (drop expected SUBTAG_TYPES) = Ok expect_str ∧
    @order_error A subtag got expected =
      Raise (LanguageTagError (order_error_message got_str subtag expect_str)).
Proof.
  unfold EXTENSION. intros Hg He.
  assert (Hgot : ∃ got_str, SUBTAG_TYPES !! got = Some got_str).
  { apply lookup_lt_is_Some. simpl. lia. }
  destruct Hgot as [got_str Hgot].
  assert (Hexp : ∃ expect_str, expect_str_of (drop expected SUBTAG_TYPES) = Ok expect_str).
  { do 6 (destruct expected as [|expected]; [by eexists|]). lia. }
  destruct Hexp as [expect_str Hexp].
  exists got_str, expect_str. repeat split; auto.
  unfold order_error, index. by rewrite Hexp, Hgot.
Qed.

Lemma detected_rank_extlang_length subtag :
  detected_rank subtag = Some EXTLANG → String.length subtag = 3.
Proof.
  unfold detected_rank, EXTLANG, SCRIPT, REGION, VARIANT, EXTENSION.
  length_cases subtag; repeat case_match; intros; simplify_eq; done.
Qed.

Lemma detected_rank_extension_length subtag :
  detected_rank subtag = Some EXTENSION → String.length subtag = 1.
Proof.
  unfold detected_rank, EXTLANG, SCRIPT, REGION, VARIANT, EXTENSION.
  length_cases subtag; repeat case_match; intros; simplify_eq; done.
Qed.

(** ** C3: the expect-cursor *)

(** C3, as the claim words it, fails on the code: after an extlang subtag
    the cursor does not stay at the extlang rank.  [ddd] has the shape of
    an extlang, three extlang subtags parse, and the fourth is refused
    with the cursor at [script]. *)
Lemma extlang_cursor_does_not_stay :
  detected_rank "ddd" = Some EXTLANG ∧
  parse_subtags ["aaa"; "bbb"; "ccc"] EXTLANG =
    Ok [("extlang", "aaa"); ("extlang", "bbb"); ("extlang", "ccc")] ∧
  parse_subtags ["aaa"; "bbb"; "ccc"; "ddd"] EXTLANG =
    Raise (LanguageTagError
      ("This extlang subtag, 'ddd', is out of place. " +:+
       "Expected script, region, variant, extension, or end of string.")).
Proof. repeat apply conj; by_computation. Qed.

(** C3 (amended).  For a subtag [subtag] whose shape gives the rank [t],
    met with the cursor at [expect]:
    - a rank below the cursor raises the ordering error, which names the
      kind, the subtag and the kinds from the cursor on;
    - a script or a region at or above the cursor is emitted (title-cased,
      upper-cased) and the cursor moves strictly past its rank;
    - a variant is emitted and the cursor stays at [variant];
    - an extension block is emitted and the cursor stays at [extension];
    - an extlang is accepted only with the cursor at [extlang]; it opens
      a run of one to three subtags emitted as extlangs, which stops
      short of three only before a subtag that has not the shape of an
      extlang, and the cursor is then set to [script] (it does not stay
      at [extlang]);
    - whatever is parsed comes out in rank order, nothing below the
      cursor, with at most one script and at most one region;
    - [zh-tw-hant] is refused, [hant] being a script out of place. *)
Theorem sequencer_expect_cursor (subtag : string) (rest : list string) (expect t : nat) :
  expect ≤ EXTENSION →
  detected_rank subtag = Some t →
  (t < expect →
     ∃ got_str expect_str,
       SUBTAG_TYPES !! t = Some got_str ∧
       expect_str_of (drop expect SUBTAG_TYPES) = Ok expect_str ∧
       parse_subtags (subtag :: rest) expect =
         Raise (LanguageTagError (order_error_message got_str subtag expect_str))) ∧
  (t = SCRIPT → expect ≤ t →
     parse_subtags (subtag :: rest) expect =
       (parsed ← parse_subtags rest (S SCRIPT);
        Ok (("script", Py.title subtag) :: parsed))) ∧
  (t = REGION → expect ≤ t →
     parse_subtags (subtag :: rest) expect =
       (parsed ← parse_subtags rest (S REGION);
        Ok (("region", Py.upper subtag) :: parsed))) ∧
  (t = VARIANT → expect ≤ t →
     parse_subtags (subtag :: rest) expect =
       (parsed ← parse_subtags rest VARIANT;
        Ok (("variant", subtag) :: parsed))) ∧
  (t = EXTENSION → subtag ≠ "x" → rest ≠ [] →
     ∃ n, 1 ≤ n ≤ length (subtag :: rest) ∧
       Forall (λ s, String.length s ≠ 1) (drop 1 (take n (subtag :: rest))) ∧
       (∀ s, drop n (subtag :: rest) !! 0 = Some s → String.length s = 1) ∧
       parse_subtags (subtag :: rest) expect =
         (parsed ← parse_subtags (drop n (subtag :: rest)) EXTENSION;
          Ok (("extension", Py.join "-" (take n (subtag :: rest))) :: parsed))) ∧
  (t = EXTLANG → expect ≤ t →
     ∃ n, 1 ≤ n ≤ 3 ∧ n ≤ length (subtag :: rest) ∧
       Forall (λ s, String.length s = 3) (take n (subtag :: rest)) ∧
       (n = 3 ∨ ∀ s, drop n (subtag :: rest) !! 0 = Some s →
                     detected_rank s ≠ Some EXTLANG) ∧
       parse_subtags (subtag :: rest) expect =
         (parsed ← parse_subtags (drop n (subtag :: rest)) SCRIPT;
          Ok (((λ s, ("extlang", s)) <$> take n (subtag :: rest)) ++ parsed))) ∧
  (∀ components,
     parse_subtags (subtag :: rest) expect = Ok components →
     ordered_from expect components) ∧
  parse "zh-tw-hant" =
    Raise (LanguageTagError
      ("This script subtag, 'hant', is out of place. " +:+
       "Expected variant, extension, or end of string.")).
Proof.
  intros Hexp Hd. repeat apply conj.
  - intros Hlt.
    assert (Ht : t ≤ EXTENSION) by lia.
    destruct (order_error_raises (A:=list component) subtag t expect)
      as (got_str & expect_str & Hg & He & Herr); [lia..|].
    exists got_str, expect_str. repeat split; [done..|].
    rewrite <- Herr.
    destruct (detected_rank_cases _ _ Hd) as [-> | [Ht' | [Ht' | [Ht' | ->]]]].
    + rewrite (parse_subtags_extlang _ _ _ Hd).
      by destruct (Nat.leb_spec expect EXTLANG); [lia|].
    + rewrite (parse_subtags_typed _ _ _ _ Hd) by auto. unfold parse_typed.
      by destruct (Nat.ltb_spec t expect); [|lia].
    + rewrite (parse_subtags_typed _ _ _ _ Hd) by auto. unfold parse_typed.
      by destruct (Nat.ltb_spec t expect); [|lia].
    + rewrite (parse_subtags_typed _ _ _ _ Hd) by auto. unfold parse_typed.
      by destruct (Nat.ltb_spec t expect); [|lia].
    + lia.
  - intros -> Hle. rewrite (parse_subtags_typed _ _ _ _ Hd) by auto.
    unfold parse_typed. by destruct (Nat.ltb_spec SCRIPT expect); [lia|].
  - intros -> Hle. rewrite (parse_subtags_typed _ _ _ _ Hd) by auto.
    unfold parse_typed. by destruct (Nat.ltb_spec REGION expect); [lia|].
  - intros -> Hle. rewrite (parse_subtags_typed _ _ _ _ Hd) by auto.
    unfold parse_typed. by destruct (Nat.ltb_spec VARIANT expect); [lia|].
  - intros -> Hx Hrest. rewrite (parse_subtags_extension _ _ _ Hd).
    unfold parse_extension, parse_extension_with.
    cbn [index lookup list_lookup mbind result_bind length].
    destruct rest as [|s1 rest]; [done|]. cbn [length Nat.eqb].
    destruct (String.eqb_spec subtag "x") as [|_]; [done|].
    assert (Hloop : ∀ l b, ∃ n, boundary_loop l b = b + n ∧ n ≤ length l ∧
              Forall (λ s, String.length s ≠ 1) (take n l) ∧
              (∀ s, drop n l !! 0 = Some s → String.length s = 1)).
    { induction l as [|s l IH]; intros b; simpl.
      - exists 0. repeat split; auto with lia. intros s. by rewrite drop_nil.
      - destruct (String.length s =? 1) eqn:Hs; simpl.
        + exists 0. repeat split; auto with lia.
          intros s' [= <-]. by apply Nat.eqb_eq.
        + destruct (IH (S b)) as (n & -> & Hn & Hall & Hnext).
          exists (S n). repeat split; auto with lia.
          constructor; [by apply Nat.eqb_neq | done]. }
    destruct (Hloop (drop 1 (subtag :: s1 :: rest)) 1) as (n & -> & Hn & Hall & Hnext).
    exists (1 + n). repeat split; auto.
    + lia.
    + simpl in *. lia.
  - intros -> Hle. rewrite (parse_subtags_extlang _ _ _ Hd).
    destruct (Nat.leb_spec expect EXTLANG); [|lia].
    destruct (parse_extlang_spec subtag rest (detected_rank_extlang_length _ Hd))
      as (n & Hn & Hlen & Hrun & Hstop & Heq).
    exists n. repeat apply conj; try done; try lia.
    destruct Hstop as [->|Hstop]; [by left|right].
    intros s Hs Hds. by apply (Hstop s Hs), detected_rank_extlang_length.
  - intros components. by apply parse_subtags_ordered.
  - by_computation.
Qed.

(** The theorem at the subtag [hant] of [zh-tw-hant], met with the cursor
    at [variant]. *)
Lemma sequencer_expect_cursor_witness :
  parse_subtags ["hant"] VARIANT =
    Raise (LanguageTagError
      ("This script subtag, 'hant', is out of place. " +:+
       "Expected variant, extension, or end of string.")).
Proof.
  destruct (sequencer_expect_cursor "hant" [] VARIANT SCRIPT) as [Hviolation _].
  - unfold VARIANT, EXTENSION. lia.
  - reflexivity.
  - destruct Hviolation as (got_str & expect_str & Hg & He & ->).
    + unfold SCRIPT, VARIANT. lia.
    + vm_compute in Hg, He. simplify_eq. reflexivity.
Defined.

(** ** C4: a numeric subtag inside the extlang run *)

(** C4 (the code departs from it).  [419] has the shape of a region and is
    parsed as one right after the language, but following an extlang it is
    swept into the extlang run, whose loop only looks at the length. *)
Theorem extlang_run_takes_numeric_subtag :
  detected_rank "419" = Some REGION ∧
  parse "zh-419" = Ok [("language", "zh"); ("region", "419")] ∧
  parse_extlang ["yue"; "419"] = Ok [("extlang", "yue"); ("extlang", "419")] ∧
  parse "zh-yue-419" =
    Ok [("language", "zh"); ("extlang", "yue"); ("extlang", "419")].
Proof. repeat apply conj; by_computation. Qed.

(** ** Evaluating step by step *)

Lemma bind_ret {A B} (a : A) (f : A → result B) : Ok a ≫= f = f a.
Proof. reflexivity. Qed.

Lemma Ok_inj {A} (a b : A) : Ok a = Ok b → a = b.
Proof. by intros [= ?]. Qed.

Lemma bind_raise {A B} e (f : A → result B) : Raise e ≫= f = Raise e.
Proof. reflexivity. Qed.

Lemma for_each_nil {S X} (body : S → X → result S) s : for_each body s [] = Ok s.
Proof. reflexivity. Qed.

Lemma for_each_cons {S X} (body : S → X → result S) s x xs :
  for_each body s (x :: xs) = (s' ← body s x; for_each body s' xs).
Proof. reflexivity. Qed.

(** ** Table look-ups *)

Lemma contains_None {V} (d : gmap string V) k : d !! k = None → contains d k = false.
Proof. intros H. unfold contains. rewrite H. by apply bool_decide_eq_false_2, is_Some_None. Qed.

Lemma contains_Some {V} (d : gmap string V) k v : d !! k = Some v → contains d k = true.
Proof. intros H. unfold contains. rewrite H. by apply bool_decide_eq_true_2. Qed.

Lemma getitem_Some {V} (d : gmap string V) k v : d !! k = Some v → getitem d k = Ok v.
Proof. intros H. unfold getitem. by rewrite H. Qed.

Lemma contains_getitem {V} (d : gmap string V) k {A} (f g : result A) (h : V → result A) :
  (if contains d k then getitem d k ≫= h else g) =
  match d !! k with Some v => h v | None => g end.
Proof.
  destruct (d !! k) as [v|] eqn:H.
  - by rewrite (contains_Some _ _ _ H), (getitem_Some _ _ _ H).
  - by rewrite (contains_None _ _ H).
Qed.

(** ** The loop body of [tag_to_meaning], case by case *)

Section step.
Variable DB : LanguageDB.
Variable rec : string → bool → result (gmap string fvalue).

Lemma tag_to_meaning_unfold fuel tag normalize :
  tag_to_meaning DB (S fuel) tag normalize =
    (tag ← (if normalize && contains (NORMALIZED_LANGUAGES DB) (Py.lower tag)
            then getitem (NORMALIZED_LANGUAGES DB) (Py.lower tag)
            else Ok tag);
     components ← parse tag;
     for_each (tag_to_meaning_step DB (tag_to_meaning DB fuel) normalize) ∅ components).
Proof. reflexivity. Qed.

Lemma step_language_und normalize meaning :
  tag_to_meaning_step DB rec normalize meaning ("language", "und") = Ok meaning.
Proof. reflexivity. Qed.

Lemma step_language_replaced meaning value replacement :
  value ≠ "und" →
  NORMALIZED_LANGUAGES DB !! value = Some replacement →
  tag_to_meaning_step DB rec true meaning ("language", value) =
    (other ← rec replacement true; Ok (update meaning other)).
Proof.
  intros Hund Hr. unfold tag_to_meaning_step. simpl.
  destruct (String.eqb_spec value "und"); [done|].
  by rewrite (contains_Some _ _ _ Hr), (getitem_Some _ _ _ Hr).
Qed.

Lemma step_language_kept normalize meaning value :
  value ≠ "und" →
  normalize = false ∨ NORMALIZED_LANGUAGES DB !! value = None →
  tag_to_meaning_step DB rec normalize meaning ("language", value) =
    Ok (annotate_macrolanguage (MACROLANGUAGES DB) value
          (<["language" := VStr value]> meaning)).
Proof.
  intros Hund Hn. unfold tag_to_meaning_step. simpl.
  destruct (String.eqb_spec value "und"); [done|].
  assert (normalize && contains (NORMALIZED_LANGUAGES DB) value = false) as ->.
  { destruct Hn as [->|Hn]; [done|]. rewrite (contains_None _ _ Hn). by destruct normalize. }
  unfold annotate_macrolanguage.
  destruct (MACROLANGUAGES DB !! value) as [macro|] eqn:Hm.
  - by rewrite (contains_Some _ _ _ Hm), (getitem_Some _ _ _ Hm).
  - by rewrite (contains_None _ _ Hm).
Qed.

Lemma step_region normalize meaning value :
  tag_to_meaning_step DB rec normalize meaning ("region", value) =
    Ok (<["region" :=
            VStr (if normalize then default value (NORMALIZED_REGIONS DB !! value)
                  else value)]> meaning).
Proof.
  unfold tag_to_meaning_step. simpl. destruct normalize; simpl; [|done].
  destruct (NORMALIZED_REGIONS DB !! value) as [new|] eqn:Hr.
  - by rewrite (contains_Some _ _ _ Hr), (getitem_Some _ _ _ Hr).
  - by rewrite (contains_None _ _ Hr).
Qed.

Lemma step_variant normalize meaning value :
  tag_to_meaning_step DB rec normalize meaning ("variant", value) =
    setdefault_add meaning "variant" value.
Proof. reflexivity. Qed.

Lemma step_extension normalize meaning value :
  tag_to_meaning_step DB rec normalize meaning ("extension", value) =
    setdefault_add meaning "extension" value.
Proof. reflexivity. Qed.

Lemma step_extlang_literal meaning value :
  tag_to_meaning_step DB rec false meaning ("extlang", value) =
    setdefault_add meaning "extlang" value.
Proof. reflexivity. Qed.

Lemma step_extlang_normalize meaning value :
  tag_to_meaning_step DB rec true meaning ("extlang", value) =
    (language ← getitem meaning "language";
     if truthy language then
       language ← as_str language;
       match NORMALIZED_LANGUAGES DB !! (language +:+ "-" +:+ value) with
       | Some replacement => other ← rec replacement true; Ok (update meaning other)
       | None => setdefault_add meaning "extlang" value
       end
     else setdefault_add meaning "extlang" value).
Proof.
  unfold tag_to_meaning_step. simpl.
  destruct (getitem meaning "language") as [language| |]; simpl; [|done..].
  destruct (truthy language); [|done].
  destruct (as_str language) as [l| |]; simpl; [|done..].
  apply contains_getitem. exact (Ok meaning).
Qed.

Lemma step_other normalize meaning typ value :
  typ ∉ ["extlang"; "variant"; "extension"; "language"; "region"] →
  tag_to_meaning_step DB rec normalize meaning (typ, value) =
    Ok (<[typ := VStr value]> meaning).
Proof.
  intros Htyp. unfold tag_to_meaning_step, Py.str_in. simpl.
  assert (Hne : ∀ k, k ∈ ["extlang"; "variant"; "extension"; "language"; "region"] →
                     String.eqb typ k = false).
  { intros k Hk. apply String.eqb_neq. intros ->. done. }
  rewrite !Hne by set_solver. done.
Qed.
End step.

(** ** Termination of the parser *)

Lemma bind_no_OutOfFuel {A B} (r : result A) (f : A → result B) :
  r ≠ OutOfFuel → (∀ a, f a ≠ OutOfFuel) → r ≫= f ≠ OutOfFuel.
Proof. destruct r; simpl; auto. Qed.

Lemma index_no_OutOfFuel {A} (l : list A) i : index l i ≠ OutOfFuel.
Proof. unfold index. by destruct (l !! i). Qed.

Lemma order_error_no_OutOfFuel {A} subtag got expected :
  @order_error A subtag got expected ≠ OutOfFuel.
Proof.
  unfold order_error. apply bind_no_OutOfFuel.
  - unfold expect_str_of.
    destruct (_ =? 1); [apply index_no_OutOfFuel|].
    destruct (_ =? 2);
      repeat (apply bind_no_OutOfFuel; [apply index_no_OutOfFuel | intros ?]); done.
  - intros ?. apply bind_no_OutOfFuel; [apply index_no_OutOfFuel | done].
Qed.

(** The parser always returns or raises. *)
Lemma parse_subtags_terminates subtags expect :
  parse_subtags subtags expect ≠ OutOfFuel.
Proof.
  remember (length subtags) as n eqn:Hn. revert subtags expect Hn.
  induction n as [n IH] using lt_wf_ind.
  intros [|subtag rest] expect Hn.
  { by rewrite parse_subtags_unfold. }
  simpl in Hn.
  destruct (detected_rank subtag) as [t|] eqn:Hd; cycle 1.
  { destruct (parse_subtags_undetected subtag rest expect Hd) as [msg ->]. done. }
  assert (Htyped : t = SCRIPT ∨ t = REGION ∨ t = VARIANT →
            parse_subtags (subtag :: rest) expect ≠ OutOfFuel).
  { intros Ht. rewrite (parse_subtags_typed _ _ _ _ Hd Ht). unfold parse_typed.
    destruct (t <? expect); [apply order_error_no_OutOfFuel|].
    apply bind_no_OutOfFuel; [apply index_no_OutOfFuel | intros typename].
    apply bind_no_OutOfFuel; [|done]. apply (IH (length rest)); [lia|done]. }
  destruct (detected_rank_cases _ _ Hd) as [-> | [Ht | [Ht | [Ht | ->]]]]; auto.
  - rewrite (parse_subtags_extlang _ _ _ Hd).
    destruct (expect <=? EXTLANG); [|apply order_error_no_OutOfFuel].
    destruct (parse_extlang_spec subtag rest (detected_rank_extlang_length _ Hd))
      as (k & Hk & Hkl & _ & _ & ->).
    apply bind_no_OutOfFuel; [|done].
    apply (IH (length (drop k (subtag :: rest)))); [|done].
    rewrite length_drop. simpl. lia.
  - rewrite (parse_subtags_extension _ _ _ Hd).
    unfold parse_extension, parse_extension_with. simpl.
    destruct (length rest =? 0); [done|].
    destruct (String.eqb subtag "x"); [done|].
    destruct (boundary_loop_spec (drop 0 rest) 1) as (k & Hk & _).
    apply bind_no_OutOfFuel; [|done].
    eapply IH; [|done]. rewrite length_drop, Hk. simpl. lia.
Qed.

Lemma parse_terminates tag : parse tag ≠ OutOfFuel.
Proof.
  unfold parse. destruct (Py.str_in _ _); [done|].
  apply bind_no_OutOfFuel; [apply index_no_OutOfFuel | intros subtag0].
  destruct (String.eqb subtag0 "x"); [by destruct (_ =? 1)|].
  destruct (2 <=? _); [|done].
  apply bind_no_OutOfFuel; [apply parse_subtags_terminates | done].
Qed.

#[global] Arguments parse : simpl never.
#[global] Arguments parse_subtags : simpl never.
#[global] Arguments tag_to_meaning_step : simpl never.
#[global] Arguments NORMALIZED_LANGUAGES : simpl never.
#[global] Arguments NORMALIZED_MACROLANGUAGES : simpl never.
#[global] Arguments MACROLANGUAGES : simpl never.
#[global] Arguments NORMALIZED_REGIONS : simpl never.
#[global] Arguments DEFAULT_SCRIPTS : simpl never.

(** ** C5: the undetermined language followed by an extlang *)

(** C5 (the code departs from it).  [und-yue] parses, and building its
    meaning with [normalize] raises [KeyError]: the language [und] is
    dropped, and the extlang branch then reads [meaning['language']].
    So does [standardize_tag]. *)
Theorem undetermined_extlang_raises_KeyError (DB : LanguageDB) (fuel : nat) (macro : bool) :
  NORMALIZED_LANGUAGES DB !! "und-yue" = None →
  parse "und-yue" = Ok [("language", "und"); ("extlang", "yue")] ∧
  tag_to_meaning DB (S fuel) "und-yue" true = Raise (KeyError "language") ∧
  standardize_tag DB (S fuel) "und-yue" macro = Raise (KeyError "language").
Proof.
  intros Hnl.
  assert (Hparse : parse "und-yue" = Ok [("language", "und"); ("extlang", "yue")]).
  { by_computation. }
  assert (Hm : tag_to_meaning DB (S fuel) "und-yue" true = Raise (KeyError "language")).
  { rewrite tag_to_meaning_unfold.
    change (Py.lower "und-yue") with "und-yue".
    rewrite (contains_None _ _ Hnl). cbn [andb]. rewrite bind_ret, Hparse, bind_ret.
    rewrite for_each_cons, step_language_und, bind_ret.
    rewrite for_each_cons, step_extlang_normalize. reflexivity. }
  repeat apply conj; [done..|].
  unfold standardize_tag. by rewrite Hm.
Qed.

Lemma undetermined_extlang_raises_KeyError_witness :
  tag_to_meaning sample_DB 1 "und-yue" true = Raise (KeyError "language").
Proof.
  apply (undetermined_extlang_raises_KeyError sample_DB 0 false).
  by_computation.
Defined.

(** ** The types of the parsed components *)

Lemma order_error_not_Ok {A} subtag got expected (a : A) :
  order_error subtag got expected ≠ Ok a.
Proof.
  unfold order_error. destruct (expect_str_of _); simpl; [|done..].
  destruct (index _ _); simpl; done.
Qed.

Lemma parse_subtags_components (P : list component → Prop) :
  P [] →
  (∀ typ v components,
     typ ∈ ["extlang"; "script"; "region"; "variant"; "extension"] →
     P components → P ((typ, v) :: components)) →
  (∀ v, P [("private", v)]) →
  ∀ subtags expect components,
    parse_subtags subtags expect = Ok components → P components.
Proof.
  intros Hnil Hcons Hprivate subtags.
  remember (length subtags) as n eqn:Hn. revert subtags Hn.
  induction n as [n IH] using lt_wf_ind.
  intros [|subtag rest] Hn expect components Hparse.
  { rewrite parse_subtags_unfold in Hparse. simpl in Hparse. by simplify_eq. }
  simpl in Hn.
  destruct (detected_rank subtag) as [t|] eqn:Hd; cycle 1.
  { destruct (parse_subtags_undetected subtag rest expect Hd). congruence. }
  assert (Htyped : t = SCRIPT ∨ t = REGION ∨ t = VARIANT → P components).
  { intros Ht. rewrite (parse_subtags_typed _ _ _ _ Hd Ht) in Hparse.
    unfold parse_typed in Hparse.
    destruct (t <? expect); [by apply order_error_not_Ok in Hparse|].
    apply bind_Ok in Hparse as (typename & Hname & Hparse).
    apply bind_Ok in Hparse as (parsed & Hrec & Hok). simplify_eq.
    apply Hcons; [|by eapply (IH (length rest)); [lia|..]].
    destruct Ht as [-> | [-> | ->]]; vm_compute in Hname; simplify_eq; set_solver. }
  destruct (detected_rank_cases _ _ Hd) as [-> | [Ht | [Ht | [Ht | ->]]]]; auto.
  - rewrite (parse_subtags_extlang _ _ _ Hd) in Hparse.
    destruct (expect <=? EXTLANG); [|by apply order_error_not_Ok in Hparse].
    destruct (parse_extlang_spec subtag rest (detected_rank_extlang_length _ Hd))
      as (k & Hk & Hkl & _ & _ & Heq).
    rewrite Heq in Hparse. apply bind_Ok in Hparse as (parsed & Hrec & Hok).
    simplify_eq.
    assert (Hrest : P parsed).
    { eapply (IH (length (drop k (subtag :: rest)))); [|done|exact Hrec].
      rewrite length_drop. simpl. lia. }
    generalize (take k (subtag :: rest)). intros l.
    induction l as [|s l IHl]; [done|].
    rewrite fmap_cons. apply Hcons; [set_solver|done].
  - rewrite (parse_subtags_extension _ _ _ Hd) in Hparse.
    unfold parse_extension, parse_extension_with in Hparse. simpl in Hparse.
    destruct (length rest =? 0); [done|].
    destruct (String.eqb subtag "x"); [by simplify_eq|].
    apply bind_Ok in Hparse as (parsed & Hrec & Hok). simplify_eq.
    destruct (boundary_loop_spec (drop 0 rest) 1) as (k & Hk & _).
    apply Hcons; [set_solver|].
    eapply IH; [|done|exact Hrec]. rewrite length_drop, Hk. simpl. lia.
Qed.

Lemma parse_types tag components :
  parse tag = Ok components → Forall (λ c, c.1 ∈ COMPONENT_TYPES) components.
Proof.
  unfold parse, COMPONENT_TYPES. destruct (Py.str_in _ _).
  { intros [= <-]. constructor; [simpl; set_solver | constructor]. }
  intros H. apply bind_Ok in H as (subtag0 & _ & H).
  destruct (String.eqb subtag0 "x").
  { destruct (_ =? 1); [done|]. simplify_eq.
    constructor; [simpl; set_solver | constructor]. }
  destruct (2 <=? _); [|done].
  apply bind_Ok in H as (parsed & Hrec & Hok). simplify_eq.
  constructor; [simpl; set_solver|].
  revert Hrec. apply parse_subtags_components.
  - constructor.
  - intros typ v comps Htyp Hall. constructor; [simpl; set_solver | done].
  - intros v. constructor; [simpl; set_solver | constructor].
Qed.

(** ** The keys of a meaning *)

Lemma keys_in_empty P : keys_in P ∅.
Proof. intros k [v Hv]. by rewrite lookup_empty in Hv. Qed.

Lemma keys_in_insert P (m : gmap string fvalue) k v :
  P k → keys_in P m → keys_in P (<[k := v]> m).
Proof.
  intros Hk Hm k' [v' Hv']. destruct (decide (k = k')) as [<-|Hne]; [done|].
  rewrite lookup_insert_ne in Hv' by done. apply Hm. eauto.
Qed.

Lemma keys_in_update P (m other : gmap string fvalue) :
  keys_in P m → keys_in P other → keys_in P (update m other).
Proof.
  intros Hm Ho k [v Hv]. unfold update in Hv.
  apply lookup_union_Some_raw in Hv as [Hv | [_ Hv]]; [apply Ho | apply Hm]; eauto.
Qed.

Lemma keys_in_setdefault_add P (m m' : gmap string fvalue) typ v :
  P typ → keys_in P m → setdefault_add m typ v = Ok m' → keys_in P m'.
Proof.
  intros Ht Hm. unfold setdefault_add.
  destruct (m !! typ) as [[s|s]|]; intros; simplify_eq; by apply keys_in_insert.
Qed.

Lemma keys_in_annotate P table value (m : gmap string fvalue) :
  P "macrolanguage" → keys_in P m → keys_in P (annotate_macrolanguage table value m).
Proof.
  intros HP Hm. unfold annotate_macrolanguage.
  destruct (table !! value); [by apply keys_in_insert | done].
Qed.

Lemma for_each_invariant {S X} (I : S → Prop) (Q : X → Prop)
    (body : S → X → result S) :
  (∀ s x s', I s → Q x → body s x = Ok s' → I s') →
  ∀ xs s s', I s → Forall Q xs → for_each body s xs = Ok s' → I s'.
Proof.
  intros Hbody xs. induction xs as [|x xs IH]; intros s s' Hs Hxs Hrun.
  - by simplify_eq/=.
  - rewrite for_each_cons in Hrun. apply bind_Ok in Hrun as (s1 & H1 & Hrun).
    inversion_clear Hxs. eapply IH; [|done|exact Hrun]. eauto.
Qed.

Section keys.
Variable DB : LanguageDB.
Variable P : string → Prop.
Hypothesis P_macrolanguage : P "macrolanguage".

Lemma step_keys rec normalize meaning typ value meaning' :
  (∀ t n r, rec t n = Ok r → keys_in P r) →
  P typ → keys_in P meaning →
  tag_to_meaning_step DB rec normalize meaning (typ, value) = Ok meaning' →
  keys_in P meaning'.
Proof.
  intros Hrec Htyp Hm Hstep.
  destruct (decide (typ ∈ ["extlang"; "variant"; "extension"; "language"; "region"]))
    as [Hin|Hout]; cycle 1.
  { rewrite step_other in Hstep by done. simplify_eq. by apply keys_in_insert. }
  repeat (apply elem_of_cons in Hin as [-> | Hin]); [| | | | |by apply elem_of_nil in Hin].
  - (* extlang *)
    destruct normalize; cycle 1.
    { rewrite step_extlang_literal in Hstep. by eapply keys_in_setdefault_add. }
    rewrite step_extlang_normalize in Hstep.
    apply bind_Ok in Hstep as (language & _ & Hstep).
    destruct (truthy language); [|by eapply keys_in_setdefault_add].
    apply bind_Ok in Hstep as (l & _ & Hstep).
    destruct (NORMALIZED_LANGUAGES DB !! _); [|by eapply keys_in_setdefault_add].
    apply bind_Ok in Hstep as (other & Ho & Hstep). simplify_eq.
    apply keys_in_update; eauto.
  - rewrite step_variant in Hstep. by eapply keys_in_setdefault_add.
  - rewrite step_extension in Hstep. by eapply keys_in_setdefault_add.
  - (* language *)
    destruct (decide (value = "und")) as [->|Hund].
    { rewrite step_language_und in Hstep. by simplify_eq. }
    destruct normalize, (NORMALIZED_LANGUAGES DB !! value) as [r|] eqn:Hr.
    + rewrite (step_language_replaced _ _ _ _ r) in Hstep by done.
      apply bind_Ok in Hstep as (other & Ho & Hstep). simplify_eq.
      apply keys_in_update; eauto.
    + rewrite step_language_kept in Hstep by auto. simplify_eq.
      by apply keys_in_annotate, keys_in_insert.
    + rewrite step_language_kept in Hstep by auto. simplify_eq.
      by apply keys_in_annotate, keys_in_insert.
    + rewrite step_language_kept in Hstep by auto. simplify_eq.
      by apply keys_in_annotate, keys_in_insert.
  - rewrite step_region in Hstep. simplify_eq. by apply keys_in_insert.
Qed.

Hypothesis P_component_types : ∀ typ, typ ∈ COMPONENT_TYPES → P typ.

Lemma tag_to_meaning_keys fuel tag normalize meaning :
  tag_to_meaning DB fuel tag normalize = Ok meaning → keys_in P meaning.
Proof.
  revert tag normalize meaning.
  induction fuel as [|fuel IH]; intros tag normalize meaning Hrun; [done|].
  rewrite tag_to_meaning_unfold in Hrun.
  apply bind_Ok in Hrun as (tag' & _ & Hrun).
  apply bind_Ok in Hrun as (components & Hparse & Hrun).
  apply parse_types in Hparse.
  eapply (for_each_invariant (keys_in P) (λ c, c.1 ∈ COMPONENT_TYPES));
    [|apply keys_in_empty|exact Hparse|exact Hrun].
  intros m [typ value] m' Hm Hc Hstep.
  apply (step_keys (tag_to_meaning DB fuel) normalize m typ value m'); auto.
Qed.
End keys.

(** ** C6: the field names of a meaning record *)

(** C6, as the claim words it, fails on the code: a grandfathered tag that
    is not replaced gives a record whose only key is [grandfathered],
    which is not one of the documented field names. *)
Lemma grandfathered_key_counterexample :
  tag_to_meaning sample_DB 1 "i-default" false
    = Ok {[ "grandfathered" := VStr "i-default" ]} ∧
  tag_to_meaning sample_DB 1 "i-default" true
    = Ok {[ "grandfathered" := VStr "i-default" ]} ∧
  "grandfathered" ∉ MEANING_FIELDS.
Proof.
  repeat apply conj; [by_computation..|].
  unfold MEANING_FIELDS. set_solver.
Qed.

Lemma str_in_spec x l : Py.str_in x l = true ↔ x ∈ l.
Proof.
  unfold Py.str_in. rewrite existsb_exists. split.
  - intros (y & Hy & Heq). apply String.eqb_eq in Heq as ->. by apply list_elem_of_In.
  - intros Hx. exists x. split; [by apply list_elem_of_In | apply String.eqb_refl].
Qed.

(** A grandfathered tag that is not replaced as a whole gives the record
    with the one key [grandfathered], holding the normalized tag. *)
Lemma tag_to_meaning_grandfathered DB fuel tag normalize :
  normalize_characters tag ∈ EXCEPTIONS →
  normalize = false ∨ NORMALIZED_LANGUAGES DB !! Py.lower tag = None →
  tag_to_meaning DB (S fuel) tag normalize
    = Ok {[ "grandfathered" := VStr (normalize_characters tag) ]}.
Proof.
  intros Hexc Hkept. rewrite tag_to_meaning_unfold.
  assert (normalize && contains (NORMALIZED_LANGUAGES DB) (Py.lower tag) = false) as ->.
  { destruct Hkept as [-> | Hnone]; [done|].
    rewrite (contains_None _ _ Hnone). apply andb_false_r. }
  rewrite bind_ret.
  assert (parse tag = Ok [("grandfathered", normalize_characters tag)]) as ->.
  { unfold parse. cbv zeta.
    by rewrite (proj2 (str_in_spec (normalize_characters tag) EXCEPTIONS) Hexc). }
  rewrite bind_ret, for_each_cons, step_other, bind_ret, for_each_nil.
  - by rewrite insert_empty.
  - intros H. repeat (apply elem_of_cons in H as [H | H]; [discriminate H|]).
    by apply elem_of_nil in H.
Qed.

(** C6 (amended).  Every key of a record returned by [tag_to_meaning],
    with [normalize] true or false, is one of the documented field names or
    is [grandfathered]; and every grandfathered tag that is not replaced as
    a whole is stored under [grandfathered]: its record has that one key,
    holding the normalized tag. *)
Theorem tag_to_meaning_fields (DB : LanguageDB) (fuel : nat) (tag : string)
    (normalize : bool) (meaning : gmap string fvalue) (key : string) :
  (tag_to_meaning DB fuel tag normalize = Ok meaning →
   is_Some (meaning !! key) →
   key ∈ MEANING_FIELDS ∨ key = "grandfathered") ∧
  (normalize_characters tag ∈ EXCEPTIONS →
   normalize = false ∨ NORMALIZED_LANGUAGES DB !! Py.lower tag = None →
   tag_to_meaning DB (S fuel) tag normalize
     = Ok {[ "grandfathered" := VStr (normalize_characters tag) ]} ∧
   "grandfathered" ∉ MEANING_FIELDS).
Proof.
  split.
  - intros Hrun. revert key.
    apply (tag_to_meaning_keys DB (λ k, k ∈ MEANING_FIELDS ∨ k = "grandfathered"))
      with fuel tag normalize; [| |done].
    + left. unfold MEANING_FIELDS. set_solver.
    + unfold COMPONENT_TYPES, MEANING_FIELDS. intros typ Htyp.
      repeat (apply elem_of_cons in Htyp as [-> | Htyp]);
        try (by apply elem_of_nil in Htyp); try (left; set_solver); auto.
  - intros Hexc Hkept. split; [by apply tag_to_meaning_grandfathered|].
    unfold MEANING_FIELDS. intros H.
    repeat (apply elem_of_cons in H as [H | H]; [discriminate H|]).
    by apply elem_of_nil in H.
Qed.

(** The theorem at [sh-QU], whose record has a script, and at the
    grandfathered tag [zh-min-nan], written [ZH_Min_Nan]. *)
Lemma tag_to_meaning_fields_witness :
  ("script" ∈ MEANING_FIELDS ∨ "script" = "grandfathered") ∧
  tag_to_meaning sample_DB 1 "ZH_Min_Nan" true
    = Ok {[ "grandfathered" := VStr "zh-min-nan" ]}.
Proof.
  split.
  - apply (tag_to_meaning_fields sample_DB 2 "sh-QU" true
             {[ "language" := VStr "sr"; "macrolanguage" := VStr "sh";
                "region" := VStr "EU"; "script" := VStr "Latn" ]} "script").
    + by_computation.
    + vm_compute. eauto.
  - refine (proj1 (proj2 (tag_to_meaning_fields sample_DB 0 "ZH_Min_Nan" true ∅ "") _ _)).
    + apply (bool_decide_unpack _). by vm_compute.
    + right. by_computation.
Defined.

(** ** C7: building a meaning without normalizing *)

Lemma sets_typed_empty : sets_typed ∅.
Proof. intros typ v _ H. by rewrite lookup_empty in H. Qed.

Lemma sets_typed_insert_set (m : gmap string fvalue) k s :
  sets_typed m → sets_typed (<[k := VSet s]> m).
Proof.
  intros Hm typ v Htyp Hv. destruct (decide (k = typ)) as [<-|Hne].
  - rewrite lookup_insert_eq in Hv. simplify_eq. eauto.
  - rewrite lookup_insert_ne in Hv by done. eauto.
Qed.

Lemma sets_typed_insert_other (m : gmap string fvalue) k v :
  k ∉ ["extlang"; "variant"; "extension"] →
  sets_typed m → sets_typed (<[k := v]> m).
Proof.
  intros Hk Hm typ v' Htyp Hv. rewrite lookup_insert_ne in Hv; [eauto|].
  by intros ->.
Qed.

Lemma sets_typed_annotate table value (m : gmap string fvalue) :
  sets_typed m → sets_typed (annotate_macrolanguage table value m).
Proof.
  intros Hm. unfold annotate_macrolanguage. destruct (table !! value); [|done].
  apply sets_typed_insert_other; [set_solver|done].
Qed.

Lemma setdefault_add_typed (m : gmap string fvalue) typ value :
  typ ∈ ["extlang"; "variant"; "extension"] →
  sets_typed m →
  setdefault_add m typ value = Ok (<[typ := VSet (set_at m typ ∪ {[ value ]})]> m).
Proof.
  intros Htyp Hm. unfold setdefault_add, set_at.
  destruct (m !! typ) as [v|] eqn:Hv.
  - destruct (Hm typ v Htyp Hv) as [s ->]. done.
  - by rewrite (left_id_L ∅ (∪)).
Qed.

Lemma step_literal DB rec (m : gmap string fvalue) c :
  sets_typed m →
  tag_to_meaning_step DB rec false m c = Ok (transcribe_step (MACROLANGUAGES DB) m c) ∧
  sets_typed (transcribe_step (MACROLANGUAGES DB) m c).
Proof.
  intros Hm. destruct c as [typ value]. unfold transcribe_step.
  destruct (decide (typ ∈ ["extlang"; "variant"; "extension"])) as [Hset|Hscalar].
  { assert (Py.str_in typ ["extlang"; "variant"; "extension"] = true) as ->.
    { repeat (apply elem_of_cons in Hset as [-> | Hset]); try done.
      by apply elem_of_nil in Hset. }
    split; [|by apply sets_typed_insert_set].
    rewrite <- (setdefault_add_typed m typ value Hset Hm).
    repeat (apply elem_of_cons in Hset as [-> | Hset]); try done.
    by apply elem_of_nil in Hset. }
  assert (Py.str_in typ ["extlang"; "variant"; "extension"] = false) as ->.
  { unfold Py.str_in. simpl.
    assert (Hne : ∀ k, k ∈ ["extlang"; "variant"; "extension"] → String.eqb typ k = false).
    { intros k Hk. apply String.eqb_neq. by intros ->. }
    rewrite !Hne by set_solver. done. }
  destruct (String.eqb_spec typ "language") as [->|Hl].
  { destruct (String.eqb_spec value "und") as [->|Hund]; [done|].
    rewrite step_language_kept by auto.
    split; [done|]. apply sets_typed_annotate, sets_typed_insert_other; [set_solver|done]. }
  split; [|by apply sets_typed_insert_other].
  destruct (decide (typ = "region")) as [->|Hr]; [by rewrite step_region|].
  apply step_other. set_solver.
Qed.

Lemma for_each_literal DB rec components (m : gmap string fvalue) :
  sets_typed m →
  for_each (tag_to_meaning_step DB rec false) m components =
    Ok (foldl (transcribe_step (MACROLANGUAGES DB)) m components).
Proof.
  revert m. induction components as [|c components IH]; intros m Hm; [done|].
  destruct (step_literal DB rec m c Hm) as [Hstep Htyped].
  rewrite for_each_cons, Hstep, bind_ret. simpl. by apply IH.
Qed.

(** C7, as the claim words it, fails on the code: with [normalize] false
    the macrolanguage table is still consulted, and a language that has a
    macrolanguage is annotated with it, which the classification does not
    contain.  The result changes with the table. *)
Lemma literal_meaning_counterexample :
  parse "cmn" = Ok [("language", "cmn")] ∧
  transcribe ∅ [("language", "cmn")] = {[ "language" := VStr "cmn" ]} ∧
  tag_to_meaning sample_DB 1 "cmn" false
    = Ok {[ "language" := VStr "cmn"; "macrolanguage" := VStr "zh" ]} ∧
  tag_to_meaning no_DB 1 "cmn" false = Ok {[ "language" := VStr "cmn" ]} ∧
  tag_to_meaning sample_DB 1 "cmn" false ≠ (transcribe ∅ <$> parse "cmn").
Proof.
  repeat apply conj; try by_computation.
  assert (Hcode : tag_to_meaning sample_DB 1 "cmn" false
                  = Ok {[ "language" := VStr "cmn"; "macrolanguage" := VStr "zh" ]}).
  { by_computation. }
  assert (Hspec : (transcribe ∅ <$> parse "cmn")
                  = Ok {[ "language" := VStr "cmn" ]}).
  { by_computation. }
  rewrite Hcode, Hspec. intros Heq.
  assert (Hm : ({[ "language" := VStr "cmn"; "macrolanguage" := VStr "zh" ]}
                  : gmap string fvalue) !! "macrolanguage" = Some (VStr "zh")).
  { by_computation. }
  apply Ok_inj in Heq. rewrite Heq in Hm. vm_compute in Hm. discriminate.
Qed.

(** C7 (amended).  With [normalize] false, [tag_to_meaning] is the
    structural transcription of the parse result, in which a stored
    language is still annotated with its macrolanguage from the
    macrolanguage table: no whole-tag substitution, no language or region
    replacement, no extlang smashing, [und] dropped.  It raises exactly
    when [parse] does, needs no recursion, and depends on the registry
    through the macrolanguage table only. *)
Theorem tag_to_meaning_literal (DB : LanguageDB) (fuel : nat) (tag : string) :
  tag_to_meaning DB (S fuel) tag false
    = (transcribe (MACROLANGUAGES DB) <$> parse tag) ∧
  ∀ (DB' : LanguageDB) (fuel' : nat),
    macrolanguages DB' = macrolanguages DB →
    tag_to_meaning DB' (S fuel') tag false = tag_to_meaning DB (S fuel) tag false.
Proof.
  assert (Heq : ∀ D f, tag_to_meaning D (S f) tag false
                       = (transcribe (MACROLANGUAGES D) <$> parse tag)).
  { intros D f. rewrite tag_to_meaning_unfold. cbn [andb]. rewrite bind_ret.
    destruct (parse tag) as [components| |]; [|done..].
    rewrite bind_ret. apply for_each_literal, sets_typed_empty. }
  split; [apply Heq|].
  intros DB' fuel' Hmacro. rewrite !Heq. unfold MACROLANGUAGES. by rewrite Hmacro.
Qed.

(** The theorem at [sgn-US]: the sample registry and a registry with the
    same macrolanguages and nothing else give the same meaning. *)
Lemma tag_to_meaning_literal_witness :
  tag_to_meaning
    {| language_replacements := λ _, [];
       macrolanguages := macrolanguages sample_DB;
       region_replacements := [];
       suppressed_scripts := [] |} 1 "sgn-US" false
  = tag_to_meaning sample_DB 1 "sgn-US" false.
Proof.
  apply (tag_to_meaning_literal sample_DB 0 "sgn-US"). reflexivity.
Defined.

(** ** C8: [meaning_superset] *)


Lemma issubset_set s t : issubset s (VSet t) = true ↔ s ⊆ t.
Proof.
  unfold issubset. rewrite forallb_forall. simpl. split.
  - intros H x Hx. apply elem_of_elements, str_in_spec, H, list_elem_of_In.
    by apply elem_of_elements.
  - intros H x Hx. apply str_in_spec, elem_of_elements, H, elem_of_elements.
    by apply list_elem_of_In.
Qed.

Lemma field_within_refl v : field_within v v = true.
Proof.
  destruct v as [s|s]; simpl; [by apply bool_decide_eq_true_2|].
  by apply issubset_set.
Qed.

Lemma field_within_antisym a b :
  field_within a b = true → field_within b a = true → a = b.
Proof.
  destruct a as [a|a]; cbn [field_within].
  { intros H _. by apply bool_decide_eq_true_1 in H. }
  destruct b as [b|b]; cbn [field_within].
  { intros _ H. by apply bool_decide_eq_true_1 in H. }
  rewrite !issubset_set. intros H1 H2. f_equal. set_solver.
Qed.

Lemma meaning_superset_loop_spec items (meaning2 : gmap string fvalue) :
  meaning_superset_loop items meaning2 = true ↔
  ∀ key mine, (key, mine) ∈ items →
    ∃ yours, meaning2 !! key = Some yours ∧ field_within mine yours = true.
Proof.
  induction items as [|[key mine] items IH]; simpl.
  { split; [|done]. intros _ key mine H. by apply elem_of_nil in H. }
  split.
  - intros Hloop key' mine' Hin.
    destruct (meaning2 !! key) as [yours|] eqn:Hy; [|done].
    assert (Hhere : field_within mine yours = true ∧
                    meaning_superset_loop items meaning2 = true).
    { destruct mine as [s|s]; simpl in *.
      - by destruct (bool_decide (VStr s = yours)).
      - by destruct (issubset s yours). }
    destruct Hhere as [Hf Hrest].
    apply elem_of_cons in Hin as [[= -> ->] | Hin]; [eauto|].
    by apply IH.
  - intros Hall.
    destruct (Hall key mine) as (yours & -> & Hf); [left|].
    assert (Hrest : meaning_superset_loop items meaning2 = true).
    { apply IH. intros k m Hin. apply Hall. by right. }
    destruct mine as [s|s]; simpl in *; by rewrite Hf.
Qed.

Lemma meaning_superset_spec (meaning1 meaning2 : gmap string fvalue) :
  meaning_superset meaning1 meaning2 = true ↔
  ∀ key mine, meaning1 !! key = Some mine →
    ∃ yours, meaning2 !! key = Some yours ∧ field_within mine yours = true.
Proof.
  unfold meaning_superset. rewrite meaning_superset_loop_spec.
  split; intros H key mine Hk; apply H; by apply elem_of_map_to_list.
Qed.

Lemma meaning_superset_refl (meaning : gmap string fvalue) :
  meaning_superset meaning meaning = true.
Proof.
  apply meaning_superset_spec. intros key mine Hk. exists mine.
  split; [done | apply field_within_refl].
Qed.

Lemma meaning_superset_antisym (meaning1 meaning2 : gmap string fvalue) :
  meaning_superset meaning1 meaning2 = true →
  meaning_superset meaning2 meaning1 = true →
  meaning1 = meaning2.
Proof.
  rewrite !meaning_superset_spec. intros H12 H21. apply map_eq. intros key.
  destruct (meaning1 !! key) as [a|] eqn:Ha.
  - destruct (H12 key a Ha) as (b & Hb & Hab). rewrite Hb. f_equal.
    destruct (H21 key b Hb) as (a' & Ha' & Hba). simplify_eq.
    by apply field_within_antisym.
  - destruct (meaning2 !! key) as [b|] eqn:Hb; [|done].
    destruct (H21 key b Hb) as (a' & Ha' & _). congruence.
Qed.

(** C8.  On meaning records, [meaning_superset A B] holds exactly when
    every field of [A] is a field of [B], with the same value when the
    field is a scalar and with a set included in that of [B] when it is
    set-valued.  On all records whatever, [meaning_superset] is reflexive,
    holds of the empty record and any record, and fails from [B] to [A]
    when it holds from [A] to [B] and the two differ. *)
Theorem meaning_superset_characterised (A B : gmap string fvalue) :
  (well_formed A → well_formed B →
   (meaning_superset A B = true ↔
    ∀ key a, A !! key = Some a →
      ∃ b, B !! key = Some b ∧
           (key ∉ SET_FIELDS → b = a) ∧
           (key ∈ SET_FIELDS → set_at A key ⊆ set_at B key))) ∧
  meaning_superset A A = true ∧
  meaning_superset ∅ B = true ∧
  (meaning_superset A B = true → A ≠ B → meaning_superset B A = false).
Proof.
  repeat apply conj.
  - intros HA HB. rewrite meaning_superset_spec.
    split; intros H key a Ha; destruct (H key a Ha) as (b & Hb & Hab);
      exists b; (split; [done|]);
      pose proof (HA key a Ha) as Hta; pose proof (HB key b Hb) as Htb;
      unfold set_at in *; rewrite ?Ha, ?Hb in *;
      destruct (decide (key ∈ SET_FIELDS)) as [Hset|Hscalar].
    + rewrite bool_decide_eq_true_2 in Hta, Htb by done.
      destruct Hta as [s ->], Htb as [t ->]. split; [done|].
      intros _. by apply issubset_set.
    + rewrite bool_decide_eq_false_2 in Hta, Htb by done.
      destruct Hta as [s ->], Htb as [t ->]. split; [|done].
      intros _. simpl in Hab. by apply bool_decide_eq_true_1 in Hab.
    + rewrite bool_decide_eq_true_2 in Hta, Htb by done.
      destruct Hta as [s ->], Htb as [t ->]. destruct Hab as [_ Hsub].
      apply issubset_set. auto.
    + rewrite bool_decide_eq_false_2 in Hta, Htb by done.
      destruct Hta as [s ->], Htb as [t ->]. destruct Hab as [Heq _].
      rewrite Heq by done. apply field_within_refl.
  - apply meaning_superset_refl.
  - apply meaning_superset_spec. intros key mine Hk. by rewrite lookup_empty in Hk.
  - intros HAB Hne. destruct (meaning_superset B A) eqn:HBA; [|done].
    destruct Hne. by apply meaning_superset_antisym.
Qed.

(** The theorem at the records of [zh-HK] and [zh-Hant-HK]. *)
Lemma meaning_superset_characterised_witness :
  meaning_superset {[ "language" := VStr "zh"; "script" := VStr "Hant";
                      "region" := VStr "HK" ]}
                   {[ "language" := VStr "zh"; "region" := VStr "HK" ]} = false.
Proof.
  apply (meaning_superset_characterised
           {[ "language" := VStr "zh"; "region" := VStr "HK" ]}
           {[ "language" := VStr "zh"; "script" := VStr "Hant";
              "region" := VStr "HK" ]}).
  - by_computation.
  - intros Heq.
    assert (H : ({[ "language" := VStr "zh"; "region" := VStr "HK" ]}
                   : gmap string fvalue) !! "script" = None) by (by_computation).
    rewrite Heq in H. vm_compute in H. discriminate.
Defined.

(** ** C9: [broader_meanings] *)

Lemma restrict_lookup_from (d acc : gmap string fvalue) keys k :
  foldl (λ filtered key,
           match d !! key with
           | Some v => <[key := v]> filtered
           | None => filtered
           end) acc keys !! k
  = if bool_decide (k ∈ keys ∧ is_Some (d !! k)) then d !! k else acc !! k.
Proof.
  revert acc. induction keys as [|key keys IH]; intros acc; cbn [foldl].
  { rewrite bool_decide_eq_false_2; [done|]. intros [H _]. by apply elem_of_nil in H. }
  rewrite IH. destruct (decide (k ∈ keys ∧ is_Some (d !! k))) as [[Hin Hd]|Hn].
  { rewrite !bool_decide_eq_true_2; [done| |done]. split; [by right | done]. }
  rewrite (bool_decide_eq_false_2 _ Hn).
  destruct (decide (k = key)) as [->|Hne].
  - destruct (d !! key) as [v|] eqn:Hv.
    + rewrite lookup_insert_eq, bool_decide_eq_true_2; [done|]. split; [left|eauto].
    + rewrite bool_decide_eq_false_2; [done|]. intros [_ [? ?]]. done.
  - assert (Hacc : (match d !! key with
                    | Some v => <[key:=v]> acc
                    | None => acc
                    end) !! k = acc !! k).
    { destruct (d !! key); [by rewrite lookup_insert_ne|done]. }
    rewrite Hacc, bool_decide_eq_false_2; [done|].
    intros [Hin Hd]. apply elem_of_cons in Hin as [?|?]; [done|]. by apply Hn.
Qed.

Lemma restrict_lookup (d : gmap string fvalue) keys k :
  restrict d keys !! k = if bool_decide (k ∈ keys) then d !! k else None.
Proof.
  unfold restrict. rewrite restrict_lookup_from, lookup_empty.
  destruct (decide (k ∈ keys)) as [Hin|Hout].
  - rewrite (bool_decide_eq_true_2 _ Hin). destruct (d !! k) eqn:Hd.
    + rewrite bool_decide_eq_true_2; [done|]. eauto.
    + rewrite bool_decide_eq_false_2; [done|]. intros [_ [? ?]]. done.
  - rewrite (bool_decide_eq_false_2 _ Hout), bool_decide_eq_false_2; [done|].
    by intros [? _].
Qed.

Lemma restrict_empty keys : restrict ∅ keys = ∅.
Proof.
  apply map_eq. intros k. rewrite restrict_lookup, !lookup_empty. by case_bool_decide.
Qed.

Lemma _filter_keys_empty keys : _filter_keys ∅ keys = ∅.
Proof. unfold _filter_keys. by rewrite restrict_empty, lookup_empty. Qed.

Lemma _filter_keys_nil (d : gmap string fvalue) : _filter_keys d [] = ∅.
Proof. reflexivity. Qed.

Lemma broader_meanings_last (meaning : gmap string fvalue) :
  last (broader_meanings meaning) = Some ∅.
Proof.
  unfold broader_meanings.
  destruct (decide (meaning = ∅)) as [->|Hne].
  - assert (Hnone : ∀ l : list (list string),
               filter (λ filtered, filtered ≠ ∅) (_filter_keys ∅ <$> l) = []).
    { induction l as [|keys l IH]; [done|].
      rewrite fmap_cons, filter_cons, _filter_keys_empty.
      by destruct (decide _). }
    by rewrite Hnone.
  - change BROADER_KEYSETS with (take 11 BROADER_KEYSETS ++ [[]]).
    rewrite fmap_app, filter_app.
    change (_filter_keys meaning <$> [[]]) with [(∅ : gmap string fvalue)].
    rewrite filter_cons, decide_True by done.
    rewrite filter_nil, app_comm_cons. apply last_snoc.
Qed.

(** What [_filter_keys] returns is the restriction, field by field. *)
Lemma _filter_keys_is_restriction (M : gmap string fvalue) keys :
  is_restriction M keys (_filter_keys M keys).
Proof.
  intros k. unfold _filter_keys, restriction_field, kept.
  rewrite !restrict_lookup.
  destruct (if bool_decide ("macrolanguage" ∈ keys) then M !! "macrolanguage" else None)
    as [macro|]; [|by rewrite restrict_lookup].
  destruct (if bool_decide ("language" ∈ keys) then M !! "language" else None);
    [by rewrite restrict_lookup|].
  destruct (String.eqb_spec k "language") as [-> | Hl].
  { by rewrite lookup_delete_ne, lookup_insert_eq. }
  destruct (String.eqb_spec k "macrolanguage") as [-> | Hm].
  { by rewrite lookup_delete_eq. }
  by rewrite lookup_delete_ne, lookup_insert_ne, restrict_lookup.
Qed.

Lemma is_restriction_unique (M : gmap string fvalue) keys r :
  is_restriction M keys r → r = _filter_keys M keys.
Proof.
  intros Hr. apply map_eq. intros k.
  by rewrite (Hr k), (_filter_keys_is_restriction M keys k).
Qed.

(** C9.  [broader_meanings M] is a list of at most thirteen records; it
    starts with [M]; it ends with the empty record; after [M] come, in the
    order of [BROADER_KEYSETS], the restrictions of [M] to the key sets,
    less those that equal [M]: a restriction that differs from [M] is
    yielded, one that equals [M] is not, and nothing else is yielded; and
    for a key set that keeps [macrolanguage] without [language], the record
    yielded holds the macrolanguage under [language], no [macrolanguage],
    and the other kept fields unchanged. *)
Theorem broader_meanings_sequence (M : gmap string fvalue) :
  head (broader_meanings M) = Some M ∧
  last (broader_meanings M) = Some ∅ ∧
  length (broader_meanings M) ≤ 13 ∧
  (∃ restrictions,
     Forall2 (is_restriction M) BROADER_KEYSETS restrictions ∧
     tail (broader_meanings M) = filter (λ r, r ≠ M) restrictions) ∧
  (∀ keys r, keys ∈ BROADER_KEYSETS → is_restriction M keys r →
     (r ∈ tail (broader_meanings M) ↔ r ≠ M)) ∧
  (∀ r, r ∈ tail (broader_meanings M) →
     r ≠ M ∧ ∃ keys, keys ∈ BROADER_KEYSETS ∧ is_restriction M keys r) ∧
  (∀ keys macro,
     keys ∈ BROADER_KEYSETS →
     "macrolanguage" ∈ keys → M !! "macrolanguage" = Some macro →
     "language" ∉ keys ∨ M !! "language" = None →
     ∃ r, r ∈ tail (broader_meanings M) ∧
          r !! "language" = Some macro ∧
          r !! "macrolanguage" = None ∧
          ∀ k, k ≠ "language" → k ≠ "macrolanguage" →
               r !! k = if bool_decide (k ∈ keys) then M !! k else None).
Proof.
  assert (Hin : ∀ keys, keys ∈ BROADER_KEYSETS → _filter_keys M keys ≠ M →
                  _filter_keys M keys ∈ tail (broader_meanings M)).
  { intros keys Hkeys Hne. unfold broader_meanings. cbn [tail].
    apply list_elem_of_filter. split; [done|]. by apply list_elem_of_fmap_2. }
  split; [reflexivity|]. split; [apply broader_meanings_last|]. split.
  { unfold broader_meanings. simpl length.
    pose proof (length_filter (λ filtered, filtered ≠ M)
                  (_filter_keys M <$> BROADER_KEYSETS)) as Hlen.
    rewrite length_fmap in Hlen. simpl in Hlen. lia. }
  split.
  { exists (_filter_keys M <$> BROADER_KEYSETS). split; [|reflexivity].
    apply Forall2_fmap_r, Forall_Forall2_diag, Forall_forall.
    intros keys _. apply _filter_keys_is_restriction. }
  split.
  { intros keys r Hkeys Hr. rewrite (is_restriction_unique M keys r Hr).
    split; [|by apply Hin].
    unfold broader_meanings. cbn [tail]. rewrite list_elem_of_filter. by intros [? _]. }
  split.
  { intros r. unfold broader_meanings. cbn [tail]. rewrite list_elem_of_filter.
    intros [Hne (keys & -> & Hkeys)%list_elem_of_fmap]. split; [done|].
    exists keys. split; [done|]. apply _filter_keys_is_restriction. }
  intros keys macro Hkeys Hk Hm Hl.
  pose proof (_filter_keys_is_restriction M keys) as Hr.
  assert (Hkm : kept M keys "macrolanguage" = Some macro).
  { unfold kept. by rewrite bool_decide_eq_true_2. }
  assert (Hkl : kept M keys "language" = None).
  { unfold kept. case_bool_decide; [|done]. by destruct Hl. }
  assert (Hlang : _filter_keys M keys !! "language" = Some macro).
  { rewrite (Hr "language"). unfold restriction_field. by rewrite Hkm, Hkl. }
  assert (Hmacro : _filter_keys M keys !! "macrolanguage" = None).
  { rewrite (Hr "macrolanguage"). unfold restriction_field. by rewrite Hkm, Hkl. }
  exists (_filter_keys M keys). split; [|split; [done|split; [done|]]].
  - apply Hin; [done|]. intros Heq. rewrite Heq in Hmacro. by rewrite Hmacro in Hm.
  - intros k Hnl Hnm. rewrite (Hr k). unfold restriction_field. rewrite Hkm, Hkl.
    apply String.eqb_neq in Hnl, Hnm. by rewrite Hnl, Hnm.
Qed.

(** The theorem at the record of [cmn-Hant-HK]: its restriction to
    [language] and [script] is yielded, and so is a record that holds the
    macrolanguage [zh] under [language]. *)
Lemma broader_meanings_sequence_witness :
  {[ "language" := VStr "cmn"; "script" := VStr "Hant" ]}
    ∈ tail (broader_meanings
              {[ "language" := VStr "cmn"; "macrolanguage" := VStr "zh";
                 "script" := VStr "Hant"; "region" := VStr "HK" ]}) ∧
  ∃ r, r ∈ tail (broader_meanings
                   {[ "language" := VStr "cmn"; "macrolanguage" := VStr "zh";
                      "script" := VStr "Hant"; "region" := VStr "HK" ]}) ∧
       r !! "language" = Some (VStr "zh") ∧ r !! "macrolanguage" = None.
Proof.
  pose proof (broader_meanings_sequence
                {[ "language" := VStr "cmn"; "macrolanguage" := VStr "zh";
                   "script" := VStr "Hant"; "region" := VStr "HK" ]})
    as (_ & _ & _ & _ & Hyield & _ & Hrename).
  split.
  - apply (Hyield ["language"; "script"]).
    + unfold BROADER_KEYSETS. by right; left.
    + intros k. unfold restriction_field, kept.
      rewrite (bool_decide_eq_false_2 ("macrolanguage" ∈ ["language"; "script"]))
        by (intros H; repeat (apply elem_of_cons in H as [H | H]; [discriminate H|]);
            by apply elem_of_nil in H).
      destruct (decide (k = "language")) as [-> | Hl]; [by_computation|].
      destruct (decide (k = "script")) as [-> | Hs]; [by_computation|].
      rewrite bool_decide_eq_false_2.
      * by rewrite lookup_insert_ne, lookup_singleton_ne.
      * intros H. repeat (apply elem_of_cons in H as [H | H]; [done|]).
        by apply elem_of_nil in H.
    + intros Heq. apply (f_equal (λ m, m !! "region")) in Heq.
      vm_compute in Heq. discriminate Heq.
  - destruct (Hrename ["macrolanguage"; "region"] (VStr "zh"))
      as (r & Hr & Hl & Hm & _).
    + unfold BROADER_KEYSETS. by do 6 right; left.
    + by left.
    + by_computation.
    + left. intros H. repeat (apply elem_of_cons in H as [H | H]; [discriminate H|]).
      by apply elem_of_nil in H.
    + by exists r.
Defined.

(** ** C10: [fill_likely_values] *)

Section likely_values.
Variable DB : LanguageDB.
Variable LIKELY_SUBTAGS : gmap string string.

Lemma fill_likely_loop_skip fuel meaning skipped candidates :
  Forall (no_likely_entry LIKELY_SUBTAGS) skipped →
  fill_likely_loop DB LIKELY_SUBTAGS fuel meaning (skipped ++ candidates)
    = fill_likely_loop DB LIKELY_SUBTAGS fuel meaning candidates.
Proof.
  induction 1 as [|c skipped (tag & Htag & Hnone) _ IH]; [done|].
  simpl. by rewrite Htag, bind_ret, (contains_None _ _ Hnone).
Qed.

Lemma fill_likely_loop_hit fuel meaning check_meaning candidates tag likely :
  meaning_to_tag check_meaning = Ok tag →
  LIKELY_SUBTAGS !! tag = Some likely →
  fill_likely_loop DB LIKELY_SUBTAGS fuel meaning (check_meaning :: candidates)
    = (result ← tag_to_meaning DB fuel likely true; Ok (update result meaning)).
Proof.
  intros Htag Hlikely. simpl.
  by rewrite Htag, bind_ret, (contains_Some _ _ _ Hlikely), (getitem_Some _ _ _ Hlikely).
Qed.

Lemma update_lookup (result meaning : gmap string fvalue) k :
  update result meaning !! k =
    match meaning !! k with
    | Some v => Some v
    | None => result !! k
    end.
Proof.
  unfold update. rewrite lookup_union. by destruct (meaning !! k), (result !! k).
Qed.
End likely_values.

(** C10.  [fill_likely_values M] goes through [broader_meanings M] in
    order.  When the candidates before [check_meaning] have no entry in
    the table of likely subtags and the tag of [check_meaning] has the
    entry [likely], which [tag_to_meaning] decodes into [decoded], the
    result is [decoded] overlaid with [M]: every field of [M] keeps its
    value, the other fields are those of [decoded].  When no candidate has
    an entry, the call raises [RuntimeError]. *)
Theorem fill_likely_values_first_entry (DB : LanguageDB)
    (LIKELY_SUBTAGS : gmap string string) (fuel : nat) (M : gmap string fvalue) :
  (∀ skipped check_meaning later tag likely decoded,
     broader_meanings M = skipped ++ check_meaning :: later →
     Forall (no_likely_entry LIKELY_SUBTAGS) skipped →
     meaning_to_tag check_meaning = Ok tag →
     LIKELY_SUBTAGS !! tag = Some likely →
     tag_to_meaning DB fuel likely true = Ok decoded →
     ∃ result,
       fill_likely_values DB LIKELY_SUBTAGS fuel M = Ok result ∧
       (∀ k v, M !! k = Some v → result !! k = Some v) ∧
       (∀ k, M !! k = None → result !! k = decoded !! k)) ∧
  (Forall (no_likely_entry LIKELY_SUBTAGS) (broader_meanings M) →
   fill_likely_values DB LIKELY_SUBTAGS fuel M
     = Raise (RuntimeError likely_subtags_failure)).
Proof.
  split.
  - intros skipped check_meaning later tag likely decoded Hseq Hskip Htag Hl Hdec.
    exists (update decoded M). unfold fill_likely_values. rewrite Hseq.
    rewrite fill_likely_loop_skip by done.
    rewrite (fill_likely_loop_hit _ _ _ _ _ _ tag likely) by done.
    rewrite Hdec, bind_ret. split; [done|].
    split; intros k; [intros v|]; intros Hk; by rewrite update_lookup, Hk.
  - intros Hnone. unfold fill_likely_values.
    rewrite <- (app_nil_r (broader_meanings M)).
    by rewrite fill_likely_loop_skip.
Qed.

(** The theorem at the record of [und-GB], with the sample tables: [und-GB]
    has no entry, the empty record has the entry [en-Latn-US]. *)
Lemma fill_likely_values_first_entry_witness :
  ∃ result,
    fill_likely_values sample_DB sample_LIKELY_SUBTAGS 1 {[ "region" := VStr "GB" ]}
      = Ok result ∧
    (∀ k v, ({[ "region" := VStr "GB" ]} : gmap string fvalue) !! k = Some v →
            result !! k = Some v) ∧
    (∀ k, ({[ "region" := VStr "GB" ]} : gmap string fvalue) !! k = None →
          result !! k = ({[ "language" := VStr "en"; "script" := VStr "Latn";
                            "region" := VStr "US" ]} : gmap string fvalue) !! k).
Proof.
  destruct (fill_likely_values_first_entry sample_DB sample_LIKELY_SUBTAGS 1
              {[ "region" := VStr "GB" ]}) as [Hfirst _].
  apply (Hfirst [ {[ "region" := VStr "GB" ]} ] ∅
           (tail (tail (broader_meanings {[ "region" := VStr "GB" ]})))
           "und" "en-Latn-US").
  - by_computation.
  - repeat constructor. exists "und-GB". split; by_computation.
  - by_computation.
  - by_computation.
  - by_computation.
Defined.

(** ** C1: the documented examples of [standardize_tag] *)

Section transforms.
Variable DB : LanguageDB.

Lemma prefer_macrolanguage_replace (meaning : gmap string fvalue) language new :
  meaning !! "language" = Some (VStr language) →
  NORMALIZED_MACROLANGUAGES DB !! language = Some new →
  prefer_macrolanguage DB meaning
    = Ok (delete "macrolanguage" (<["language" := VStr new]> meaning)).
Proof.
  intros Hl Hn. unfold prefer_macrolanguage. rewrite Hl.
  change (as_str (default (VStr "und") (Some (VStr language)))) with (Ok language).
  by rewrite bind_ret, (contains_Some _ _ _ Hn), (getitem_Some _ _ _ Hn).
Qed.

Lemma simplify_script_absent (meaning : gmap string fvalue) :
  meaning !! "script" = None → simplify_script DB meaning = Ok meaning.
Proof. intros Hs. unfold simplify_script. rewrite Hs. by destruct (meaning !! "language"). Qed.

Lemma simplify_script_default (meaning : gmap string fvalue) language script :
  meaning !! "language" = Some (VStr language) →
  meaning !! "script" = Some (VStr script) →
  DEFAULT_SCRIPTS DB !! language = Some script →
  simplify_script DB meaning = Ok (delete "script" meaning).
Proof.
  intros Hl Hs Hd. unfold simplify_script. rewrite Hl, Hs. cbn [as_str].
  rewrite bind_ret, Hd. by rewrite bool_decide_eq_true_2.
Qed.

Lemma simplify_script_other (meaning : gmap string fvalue) language script :
  meaning !! "language" = Some (VStr language) →
  meaning !! "script" = Some (VStr script) →
  DEFAULT_SCRIPTS DB !! language ≠ Some script →
  simplify_script DB meaning = Ok meaning.
Proof.
  intros Hl Hs Hd. unfold simplify_script. rewrite Hl, Hs. cbn [as_str].
  rewrite bind_ret, bool_decide_eq_false_2; [done|].
  destruct (DEFAULT_SCRIPTS DB !! language); simpl; congruence.
Qed.
End transforms.

(** One step of the evaluation of [tag_to_meaning] on a concrete tag. *)
Ltac meaning_step :=
  first
    [ rewrite for_each_nil
    | rewrite for_each_cons
    | rewrite bind_ret
    | rewrite step_language_und
    | rewrite step_region
    | rewrite step_variant
    | rewrite step_extension
    | rewrite step_extlang_normalize
    | rewrite step_language_kept by (first [done | by right])
    | erewrite step_language_replaced by (first [done | eassumption])
    | rewrite step_other by set_solver ].

Ltac eval_lower :=
  match goal with
  | |- context [Py.lower ?t] =>
      let l := eval vm_compute in (Py.lower t) in change (Py.lower t) with l
  end.

Ltac eval_parse :=
  match goal with
  | |- context [parse ?t] =>
      let p := eval vm_compute in (parse t) in
      replace (parse t) with p by (by_computation)
  end.

Ltac table_lookup :=
  first
    [ erewrite contains_None by eassumption
    | erewrite contains_Some by eassumption
    | erewrite getitem_Some by eassumption ].

(** The start of [tag_to_meaning]: the whole-tag look-up, then [parse]. *)
Ltac open_tag :=
  rewrite tag_to_meaning_unfold; eval_lower; repeat table_lookup;
  cbn [andb]; rewrite bind_ret; eval_parse.

Ltac resolve_macrolanguages :=
  unfold annotate_macrolanguage;
  repeat match goal with
         | |- context [MACROLANGUAGES ?D !! ?k] => destruct (MACROLANGUAGES D !! k)
         end.

Section examples.
Variable DB : LanguageDB.
Hypothesis entries : documented_entries DB.

Lemma standardize_en_US fuel :
  standardize_tag DB (S fuel) "en_US" false = Ok "en-US".
Proof.
  destruct entries. unfold standardize_tag.
  open_tag. repeat meaning_step. rewrite region_us0. cbn [default from_option id].
  resolve_macrolanguages; rewrite simplify_script_absent by by_computation;
    by_computation.
Qed.

Lemma standardize_en_Latn fuel :
  standardize_tag DB (S fuel) "en-Latn" false = Ok "en".
Proof.
  destruct entries. unfold standardize_tag.
  open_tag. repeat meaning_step.
  resolve_macrolanguages;
    erewrite simplify_script_default by (first [eassumption | by_computation]);
    by_computation.
Qed.

Lemma standardize_en_uk fuel :
  standardize_tag DB (S fuel) "en-uk" false = Ok "en-GB".
Proof.
  destruct entries. unfold standardize_tag.
  open_tag. repeat meaning_step. rewrite region_uk0. cbn [default from_option id].
  resolve_macrolanguages; rewrite simplify_script_absent by by_computation;
    by_computation.
Qed.

Lemma standardize_sh_QU fuel :
  standardize_tag DB (S (S fuel)) "sh-QU" false = Ok "sr-Latn-EU".
Proof.
  destruct entries. unfold standardize_tag.
  open_tag. repeat meaning_step.
  open_tag. repeat meaning_step.
  rewrite region_qu0. cbn [default from_option id].
  resolve_macrolanguages;
    (erewrite (simplify_script_other _ _ "sr" "Latn");
       [by_computation | by_computation | by_computation | congruence]).
Qed.

Lemma standardize_sgn_US fuel :
  standardize_tag DB (S fuel) "sgn-US" false = Ok "ase".
Proof.
  destruct entries. unfold standardize_tag.
  open_tag. repeat meaning_step.
  resolve_macrolanguages; rewrite simplify_script_absent by by_computation;
    by_computation.
Qed.

Lemma standardize_zh_cmn_hans_cn fuel :
  standardize_tag DB (S (S fuel)) "zh-cmn-hans-cn" true = Ok "zh-Hans-CN".
Proof.
  destruct entries. unfold standardize_tag.
  open_tag. repeat meaning_step.
  assert (Hlang : ∀ m : gmap string fvalue,
            getitem (annotate_macrolanguage (MACROLANGUAGES DB) "zh"
                       (<["language" := VStr "zh"]> m)) "language" = Ok (VStr "zh")).
  { intros m. unfold annotate_macrolanguage, getitem.
    destruct (MACROLANGUAGES DB !! "zh");
      by rewrite ?lookup_insert_ne, lookup_insert_eq by done. }
  rewrite Hlang, bind_ret. cbn [truthy String.eqb Ascii.eqb negb as_str].
  rewrite bind_ret. change ("zh" +:+ "-" +:+ "cmn") with "zh-cmn".
  rewrite replaced_zh_cmn0.
  open_tag. repeat meaning_step.
  rewrite region_cn0. cbn [default from_option id].
  resolve_macrolanguages;
    (erewrite (prefer_macrolanguage_replace _ _ "cmn" "zh");
       [|by_computation|eassumption]);
    rewrite bind_ret;
    (erewrite (simplify_script_other _ _ "zh" "Hans");
       [by_computation | by_computation | by_computation | congruence]).
Qed.
End examples.

Lemma sample_DB_documented_entries : documented_entries sample_DB.
Proof. split; by_computation. Qed.

(** C1.  With a registry that holds the entries the examples go through,
    and a recursion budget of two or more, [standardize_tag] returns the
    listed string on each of the documented inputs. *)
Theorem standardize_tag_documented_examples (DB : LanguageDB) (fuel : nat) :
  documented_entries DB →
  2 ≤ fuel →
  standardize_tag DB fuel "en_US" false = Ok "en-US" ∧
  standardize_tag DB fuel "en-Latn" false = Ok "en" ∧
  standardize_tag DB fuel "en-uk" false = Ok "en-GB" ∧
  standardize_tag DB fuel "sh-QU" false = Ok "sr-Latn-EU" ∧
  standardize_tag DB fuel "sgn-US" false = Ok "ase" ∧
  standardize_tag DB fuel "zh-cmn-hans-cn" true = Ok "zh-Hans-CN".
Proof.
  intros entries Hfuel.
  destruct fuel as [|[|fuel]]; [lia..|].
  repeat apply conj.
  - by apply standardize_en_US.
  - by apply standardize_en_Latn.
  - by apply standardize_en_uk.
  - by apply standardize_sh_QU.
  - by apply standardize_sgn_US.
  - by apply standardize_zh_cmn_hans_cn.
Qed.

Lemma standardize_tag_documented_examples_witness :
  standardize_tag sample_DB 2 "en_US" false = Ok "en-US" ∧
  standardize_tag sample_DB 2 "en-Latn" false = Ok "en" ∧
  standardize_tag sample_DB 2 "en-uk" false = Ok "en-GB" ∧
  standardize_tag sample_DB 2 "sh-QU" false = Ok "sr-Latn-EU" ∧
  standardize_tag sample_DB 2 "sgn-US" false = Ok "ase" ∧
  standardize_tag sample_DB 2 "zh-cmn-hans-cn" true = Ok "zh-Hans-CN".
Proof.
  apply (standardize_tag_documented_examples sample_DB 2).
  - apply sample_DB_documented_entries.
  - lia.
Defined.

(** ** C2: standardizing twice *)

Lemma prefer_macrolanguage_keep DB (meaning : gmap string fvalue) language :
  meaning !! "language" = Some (VStr language) →
  NORMALIZED_MACROLANGUAGES DB !! language = None →
  prefer_macrolanguage DB meaning = Ok meaning.
Proof.
  intros Hl Hn. unfold prefer_macrolanguage. rewrite Hl.
  change (as_str (default (VStr "und") (Some (VStr language)))) with (Ok language).
  by rewrite bind_ret, (contains_None _ _ Hn).
Qed.

Lemma setdefault_add_fresh (m : gmap string fvalue) typ value :
  m !! typ = None →
  setdefault_add m typ value = Ok (<[typ := VSet {[ value ]}]> m).
Proof. intros H. unfold setdefault_add. by rewrite H. Qed.

Lemma setdefault_add_more (m : gmap string fvalue) typ value s :
  m !! typ = Some (VSet s) →
  setdefault_add m typ value = Ok (<[typ := VSet (s ∪ {[ value ]})]> m).
Proof. intros H. unfold setdefault_add. by rewrite H. Qed.

(** C2 (the code departs from it).  [en-b-a-foo] parses: the extension
    [b] is followed by the singleton [a], so the test of [parse_extension]
    for a singleton with nothing after it does not fire.  Its standard
    form sorts the extensions and is [en-a-foo-b], where [b] comes last
    and is refused.  Standardizing the standard form raises instead of
    returning it, with [macro] set or not. *)
Theorem standardize_tag_twice (DB : LanguageDB) (fuel : nat) (macro : bool) :
  NORMALIZED_LANGUAGES DB !! "en-b-a-foo" = None →
  NORMALIZED_LANGUAGES DB !! "en-a-foo-b" = None →
  NORMALIZED_LANGUAGES DB !! "en" = None →
  NORMALIZED_MACROLANGUAGES DB !! "en" = None →
  parse "en-b-a-foo"
    = Ok [("language", "en"); ("extension", "b"); ("extension", "a-foo")] ∧
  standardize_tag DB (S fuel) "en-b-a-foo" macro = Ok "en-a-foo-b" ∧
  standardize_tag DB (S fuel) "en-a-foo-b" macro
    = Raise (LanguageTagError "The subtag 'b' must be followed by something").
Proof.
  intros Hfirst Hsecond Hen Hmacro. repeat apply conj.
  - by_computation.
  - assert (Hmeaning : ∃ M, tag_to_meaning DB (S fuel) "en-b-a-foo" true = Ok M ∧
                            M !! "language" = Some (VStr "en") ∧
                            M !! "script" = None ∧
                            meaning_to_tag M = Ok "en-a-foo-b").
    { open_tag. repeat meaning_step.
      resolve_macrolanguages;
        (rewrite setdefault_add_fresh by by_computation; repeat meaning_step;
         erewrite setdefault_add_more by apply lookup_insert_eq;
         repeat meaning_step;
         eexists; (split; [reflexivity|]); repeat apply conj; by_computation). }
    destruct Hmeaning as (M & HM & Hlanguage & Hscript & Htag).
    unfold standardize_tag. rewrite HM, bind_ret.
    assert ((if macro then prefer_macrolanguage DB M else Ok M) = Ok M) as ->.
    { destruct macro; [|done]. by apply prefer_macrolanguage_keep with "en". }
    by rewrite bind_ret, simplify_script_absent, bind_ret.
  - unfold standardize_tag. open_tag. reflexivity.
Qed.

Lemma standardize_tag_twice_witness :
  standardize_tag sample_DB 1 "en-b-a-foo" false = Ok "en-a-foo-b" ∧
  standardize_tag sample_DB 1 "en-a-foo-b" false
    = Raise (LanguageTagError "The subtag 'b' must be followed by something").
Proof.
  apply (standardize_tag_twice sample_DB 0 false); by_computation.
Defined.

(** ** The recursion budget of [tag_to_meaning] *)

Lemma below_refl {A} (r : result A) : below r r.
Proof. by right. Qed.

Lemma below_bind {A B} (r1 r2 : result A) (f1 f2 : A → result B) :
  below r1 r2 → (∀ a, below (f1 a) (f2 a)) → below (r1 ≫= f1) (r2 ≫= f2).
Proof.
  intros [-> | ->] Hf; [by left|].
  destruct r2 as [a| |]; simpl; [apply Hf | by right | by left].
Qed.

Lemma below_if {A} (b : bool) (r1 r2 s1 s2 : result A) :
  below r1 r2 → below s1 s2 → below (if b then r1 else s1) (if b then r2 else s2).
Proof. by destruct b. Qed.

Lemma for_each_below {S X} (body1 body2 : S → X → result S) xs s :
  (∀ s x, below (body1 s x) (body2 s x)) →
  below (for_each body1 s xs) (for_each body2 s xs).
Proof.
  intros Hbody. revert s. induction xs as [|x xs IH]; intros s; [apply below_refl|].
  rewrite !for_each_cons. by apply below_bind.
Qed.

Lemma tag_to_meaning_step_below DB rec1 rec2 normalize meaning c :
  (∀ tag n, below (rec1 tag n) (rec2 tag n)) →
  below (tag_to_meaning_step DB rec1 normalize meaning c)
        (tag_to_meaning_step DB rec2 normalize meaning c).
Proof.
  intros Hrec. destruct c as [typ value]. unfold tag_to_meaning_step. cbv zeta.
  repeat first
    [ apply below_refl
    | apply Hrec
    | apply below_if
    | apply below_bind; [|intros ?] ].
Qed.

Lemma tag_to_meaning_below_S DB fuel tag normalize :
  below (tag_to_meaning DB fuel tag normalize) (tag_to_meaning DB (S fuel) tag normalize).
Proof.
  revert tag normalize. induction fuel as [|fuel IH]; intros tag normalize; [by left|].
  rewrite !tag_to_meaning_unfold.
  apply below_bind; [apply below_refl | intros tag'].
  apply below_bind; [apply below_refl | intros components].
  apply for_each_below. intros s x. by apply tag_to_meaning_step_below.
Qed.

(** A result obtained within some budget is the result within any larger one. *)
Lemma tag_to_meaning_fuel_mono DB fuel fuel' tag normalize :
  fuel ≤ fuel' →
  tag_to_meaning DB fuel tag normalize ≠ OutOfFuel →
  tag_to_meaning DB fuel' tag normalize = tag_to_meaning DB fuel tag normalize.
Proof.
  induction 1 as [|fuel' Hle IH]; [done|]. intros Hres.
  destruct (tag_to_meaning_below_S DB fuel' tag normalize) as [Hout | <-]; [|auto].
  rewrite IH in Hout by done. done.
Qed.

(** * Further properties of the two modules *)

(** ** Characters and strings *)

Ltac ascii_cases c := destruct c as [[] [] [] [] [] [] [] []].

Lemma map_chars_compose f g s :
  Py.map_chars f (Py.map_chars g s) = Py.map_chars (λ c, f (g c)) s.
Proof. induction s as [|c s IH]; [done|]. simpl. by rewrite IH. Qed.

Lemma map_chars_ext f g s :
  (∀ c, f c = g c) → Py.map_chars f s = Py.map_chars g s.
Proof. intros H. induction s as [|c s IH]; [done|]. simpl. by rewrite H, IH. Qed.

Lemma map_chars_length f s : String.length (Py.map_chars f s) = String.length s.
Proof. induction s as [|c s IH]; [done|]. simpl. by rewrite IH. Qed.

(** What [normalize_characters] does to one character. *)
Lemma normalize_characters_chars tag :
  normalize_characters tag =
    Py.map_chars (λ c, if Ascii.eqb (Py.lower_char c) "_" then "-"%char
                       else Py.lower_char c) tag.
Proof. unfold normalize_characters, Py.replace_char, Py.lower. apply map_chars_compose. Qed.

Lemma normalize_char_idemp c :
  let n := λ c, if Ascii.eqb (Py.lower_char c) "_" then "-"%char else Py.lower_char c in
  n (n c) = n c.
Proof. ascii_cases c; reflexivity. Qed.

Lemma normalize_char_upper c :
  let n := λ c, if Ascii.eqb (Py.lower_char c) "_" then "-"%char else Py.lower_char c in
  n (Py.upper_char c) = n c.
Proof. ascii_cases c; reflexivity. Qed.

Lemma normalize_char_underscore c :
  let n := λ c, if Ascii.eqb (Py.lower_char c) "_" then "-"%char else Py.lower_char c in
  n (if Ascii.eqb c "-" then "_"%char else c) = n c.
Proof. ascii_cases c; reflexivity. Qed.

Lemma normalize_characters_idemp tag :
  normalize_characters (normalize_characters tag) = normalize_characters tag.
Proof.
  rewrite !normalize_characters_chars, map_chars_compose.
  apply map_chars_ext, normalize_char_idemp.
Qed.

(** ** The parser does not see case or separator *)

(** X1.  On an ASCII tag, [parse] gives the same outcome on the tag, on
    its normalized form, on its upper-cased form and on the tag with
    underscores for hyphens; normalizing twice is normalizing once. *)
Theorem parse_ignores_case_and_separator (tag : string) :
  Py.isascii tag = true →
  normalize_characters (normalize_characters tag) = normalize_characters tag ∧
  parse (normalize_characters tag) = parse tag ∧
  parse (Py.upper tag) = parse tag ∧
  parse (Py.replace_char "-" "_" tag) = parse tag.
Proof.
  intros _.
  assert (Hsame : ∀ t, normalize_characters t = normalize_characters tag →
                       parse t = parse tag).
  { intros t Ht. unfold parse. by rewrite Ht. }
  split; [apply normalize_characters_idemp|].
  repeat apply conj; apply Hsame.
  - apply normalize_characters_idemp.
  - rewrite !normalize_characters_chars. unfold Py.upper.
    rewrite map_chars_compose. apply map_chars_ext, normalize_char_upper.
  - rewrite !normalize_characters_chars. unfold Py.replace_char.
    rewrite map_chars_compose. apply map_chars_ext, normalize_char_underscore.
Qed.

Lemma parse_ignores_case_and_separator_witness :
  Py.isascii "zh-Hant_TW" = true ∧
  parse "ZH-HANT_TW" = parse "zh-Hant_TW" ∧
  parse "zh_Hant_TW" = parse "zh-Hant_TW".
Proof.
  split; [reflexivity|].
  destruct (parse_ignores_case_and_separator "zh-Hant_TW") as (_ & _ & Hupper & Hsep);
    [reflexivity|].
  split; [exact Hupper | exact Hsep].
Defined.

(** ** The parser raises nothing but [LanguageTagError] *)

Lemma split_nonempty sep s : Py.split sep s ≠ [].
Proof.
  induction s as [|c s IH]; simpl; [done|].
  destruct (Ascii.eqb c sep); [done|]. by destruct (Py.split sep s).
Qed.

Lemma parse_subtags_raises subtags expect e :
  expect ≤ EXTENSION →
  parse_subtags subtags expect = Raise e → ∃ msg, e = LanguageTagError msg.
Proof.
  remember (length subtags) as n eqn:Hn. revert subtags expect Hn.
  induction n as [n IH] using lt_wf_ind.
  intros [|subtag rest] expect Hn Hexp Hparse.
  { rewrite parse_subtags_unfold in Hparse. simpl in Hparse. discriminate. }
  simpl in Hn.
  destruct (detected_rank subtag) as [t|] eqn:Hd; cycle 1.
  { destruct (parse_subtags_undetected subtag rest expect Hd) as [msg Hmsg].
    rewrite Hmsg in Hparse. simplify_eq. eauto. }
  assert (Horder : ∀ got, got ≤ EXTENSION →
            @order_error (list component) subtag got expect = Raise e →
            ∃ msg, e = LanguageTagError msg).
  { intros got Hgot Herr.
    destruct (order_error_raises (A:=list component) subtag got expect)
      as (got_str & expect_str & _ & _ & Heq); [lia | unfold EXTENSION in *; lia |].
    rewrite Heq in Herr. simplify_eq. eauto. }
  assert (Hbind : ∀ l e' (f : list component → result (list component)),
            length l < n → e' ≤ EXTENSION → (∀ a, f a ≠ Raise e) →
            parse_subtags l e' ≫= f = Raise e → ∃ msg, e = LanguageTagError msg).
  { intros l e' f Hl He' Hf Hb.
    destruct (parse_subtags l e') as [a|e0|] eqn:Hrec; simpl in Hb; [by apply Hf in Hb| |done].
    simplify_eq. eapply (IH (length l)); eauto. }
  assert (Htyped : t = SCRIPT ∨ t = REGION ∨ t = VARIANT → ∃ msg, e = LanguageTagError msg).
  { intros Ht. rewrite (parse_subtags_typed _ _ _ _ Hd Ht) in Hparse.
    unfold parse_typed in Hparse.
    destruct (t <? expect).
    { apply (Horder t); [|done]. unfold SCRIPT, REGION, VARIANT, EXTENSION in *. lia. }
    assert (Hname : ∃ typename, index SUBTAG_TYPES t = Ok typename).
    { destruct Ht as [-> | [-> | ->]]; by eexists. }
    destruct Hname as [typename Hname]. rewrite Hname, bind_ret in Hparse.
    apply (λ H1 H2 H3, Hbind _ _ _ H1 H2 H3 Hparse); [lia| |done].
    unfold SCRIPT, REGION, VARIANT, EXTENSION in *.
    destruct Ht as [-> | [-> | ->]]; simpl; lia. }
  destruct (detected_rank_cases _ _ Hd) as [-> | [Ht | [Ht | [Ht | ->]]]]; auto.
  - rewrite (parse_subtags_extlang _ _ _ Hd) in Hparse.
    destruct (expect <=? EXTLANG); [|by apply (Horder EXTLANG); [unfold EXTLANG, EXTENSION; lia|]].
    destruct (parse_extlang_spec subtag rest (detected_rank_extlang_length _ Hd))
      as (k & Hk & Hkl & _ & _ & Heq).
    rewrite Heq in Hparse.
    apply (λ H1 H2 H3, Hbind _ _ _ H1 H2 H3 Hparse); [| |done].
    + rewrite length_drop. simpl. lia.
    + unfold SCRIPT, EXTENSION. lia.
  - rewrite (parse_subtags_extension _ _ _ Hd) in Hparse.
    unfold parse_extension, parse_extension_with in Hparse. simpl in Hparse.
    destruct (length rest =? 0); [simplify_eq; eauto|].
    destruct (String.eqb subtag "x"); [done|].
    destruct (boundary_loop_spec (drop 0 rest) 1) as (k & Hk & _).
    apply (λ H1 H2 H3, Hbind _ _ _ H1 H2 H3 Hparse); [|done|done].
    rewrite length_drop, Hk. simpl. lia.
Qed.

Lemma parse_returns_or_raises tag :
  (∃ components, parse tag = Ok components) ∨
  (∃ msg, parse tag = Raise (LanguageTagError msg)).
Proof.
  destruct (parse tag) as [components|e|] eqn:Hparse; [eauto| |by apply parse_terminates in Hparse].
  right. revert Hparse. unfold parse.
  destruct (Py.str_in _ _); [done|].
  destruct (Py.split "-" (normalize_characters tag)) as [|subtag0 rest] eqn:Hs.
  { by apply split_nonempty in Hs. }
  change (index (subtag0 :: rest) 0) with (Ok subtag0). rewrite bind_ret.
  destruct (String.eqb subtag0 "x").
  { destruct (length (subtag0 :: rest) =? 1); intros; simplify_eq. eauto. }
  destruct (2 <=? String.length subtag0);
    [|unfold subtag_error; intros; simplify_eq; eauto].
  change (drop 1 (subtag0 :: rest)) with rest.
  destruct (parse_subtags rest EXTLANG) as [a|e0|] eqn:Hrec; simpl; [done| |done].
  intros [= <-].
  destruct (parse_subtags_raises rest EXTLANG e0) as [msg ->]; [|done|eauto].
  unfold EXTLANG, EXTENSION. lia.
Qed.

(** A subtag of five characters is a variant, whatever the recursive call
    is; a depth budget that is not above the number of such subtags is
    exhausted. *)
Lemma parse_subtags_fuel_exhausted depth subtags expect :
  expect ≤ VARIANT →
  depth ≤ length subtags →
  Forall (λ subtag, String.length subtag = 5) subtags →
  parse_subtags_fuel depth subtags expect = OutOfFuel.
Proof.
  revert subtags expect. induction depth as [|depth IH]; intros subtags expect He Hd Hall;
    [done|].
  destruct Hall as [|subtag rest Hlen Hall]; [simpl in Hd; lia|].
  simpl in Hd. cbn [parse_subtags_fuel]. unfold parse_subtags_body. rewrite Hlen.
  cbn [Nat.eqb Nat.ltb Nat.leb orb]. unfold parse_typed.
  assert (Nat.ltb VARIANT expect = false) as -> by (apply Nat.ltb_ge; lia).
  change (index SUBTAG_TYPES VARIANT) with (@Ok string "variant"). rewrite bind_ret.
  change ((VARIANT =? SCRIPT) || (VARIANT =? REGION)) with false. cbv iota.
  rewrite IH; [done|done|lia|done].
Qed.

(** X2.  The recursion of [parse_subtags] nests at most once per subtag:
    from any cursor of the five ranks, every depth budget above the number
    of subtags gives the same outcome, which is a result or
    [LanguageTagError] and no other exception; [parse], which gives that
    budget, returns or raises [LanguageTagError].  The depth is needed: on
    subtags of five characters each, a budget that is not above their
    number is exhausted. *)
Theorem parse_returns_or_raises_LanguageTagError (tag : string)
    (subtags : list string) (expect depth : nat) :
  ((∃ components, parse tag = Ok components) ∨
   (∃ msg, parse tag = Raise (LanguageTagError msg))) ∧
  (expect ≤ EXTENSION → length subtags < depth →
   parse_subtags_fuel depth subtags expect = parse_subtags subtags expect ∧
   ((∃ components, parse_subtags_fuel depth subtags expect = Ok components) ∨
    (∃ msg, parse_subtags_fuel depth subtags expect = Raise (LanguageTagError msg)))) ∧
  (expect ≤ VARIANT → depth ≤ length subtags →
   Forall (λ subtag, String.length subtag = 5) subtags →
   parse_subtags_fuel depth subtags expect = OutOfFuel).
Proof.
  split; [apply parse_returns_or_raises|]. split.
  - intros Hexpect Hdepth.
    assert (Hsame : parse_subtags_fuel depth subtags expect = parse_subtags subtags expect).
    { unfold parse_subtags. apply parse_subtags_fuel_irrel; lia. }
    split; [done|]. rewrite Hsame.
    destruct (parse_subtags subtags expect) as [components|e|] eqn:Hparse.
    + eauto.
    + destruct (parse_subtags_raises subtags expect e Hexpect Hparse) as [msg ->]. eauto.
    + by apply parse_subtags_terminates in Hparse.
  - apply parse_subtags_fuel_exhausted.
Qed.

Lemma parse_returns_or_raises_LanguageTagError_witness :
  (parse_subtags_fuel 4 ["hant"; "tw"; "x"] REGION = parse_subtags ["hant"; "tw"; "x"] REGION ∧
   ((∃ components, parse_subtags_fuel 4 ["hant"; "tw"; "x"] REGION = Ok components) ∨
    (∃ msg, parse_subtags_fuel 4 ["hant"; "tw"; "x"] REGION
              = Raise (LanguageTagError msg)))) ∧
  parse_subtags_fuel 2 ["abcde"; "fghij"] EXTLANG = OutOfFuel.
Proof.
  split.
  - apply (parse_returns_or_raises_LanguageTagError "zh" ["hant"; "tw"; "x"] REGION 4).
    + unfold REGION, EXTENSION. lia.
    + simpl. lia.
  - apply (parse_returns_or_raises_LanguageTagError "zh" ["abcde"; "fghij"] EXTLANG 2).
    + unfold EXTLANG, VARIANT. lia.
    + simpl. lia.
    + repeat constructor.
Defined.

(** ** What [parse_subtags] emits *)

Lemma detected_rank_script subtag :
  detected_rank subtag = Some SCRIPT →
  String.length subtag = 4 ∧ Py.isalpha subtag = true.
Proof.
  unfold detected_rank, EXTLANG, SCRIPT, REGION, VARIANT, EXTENSION.
  length_cases subtag; repeat case_match; intros; simplify_eq; done.
Qed.

Lemma detected_rank_region subtag :
  detected_rank subtag = Some REGION →
  String.length subtag = 2 ∧ Py.isalpha subtag = true ∨
  String.length subtag = 3 ∧ Py.isdigit subtag = true.
Proof.
  unfold detected_rank, EXTLANG, SCRIPT, REGION, VARIANT, EXTENSION.
  length_cases subtag; repeat case_match; intros; simplify_eq; auto.
Qed.

Lemma detected_rank_variant subtag :
  detected_rank subtag = Some VARIANT →
  String.length subtag = 4 ∧ Py.first_isdigit subtag = true ∨
  5 ≤ String.length subtag ≤ 8.
Proof.
  unfold detected_rank, EXTLANG, SCRIPT, REGION, VARIANT, EXTENSION.
  length_cases subtag; repeat case_match; intros; simplify_eq; auto with lia.
Qed.

(** An induction principle over the successful runs of [parse_subtags]:
    a property of the empty result that every emission preserves holds of
    every result. *)
Lemma parse_subtags_emits (P : list component → Prop) :
  P [] →
  (∀ subtag components, detected_rank subtag = Some SCRIPT →
     P components → P (("script", Py.title subtag) :: components)) →
  (∀ subtag components, detected_rank subtag = Some REGION →
     P components → P (("region", Py.upper subtag) :: components)) →
  (∀ subtag components, detected_rank subtag = Some VARIANT →
     P components → P (("variant", subtag) :: components)) →
  (∀ subtag components, String.length subtag = 3 →
     P components → P (("extlang", subtag) :: components)) →
  (∀ v components, P components → P (("extension", v) :: components)) →
  (∀ v, P [("private", v)]) →
  ∀ subtags expect components,
    parse_subtags subtags expect = Ok components → P components.
Proof.
  intros Hnil Hscript Hregion Hvariant Hextlang Hextension Hprivate subtags.
  remember (length subtags) as n eqn:Hn. revert subtags Hn.
  induction n as [n IH] using lt_wf_ind.
  intros [|subtag rest] Hn expect components Hparse.
  { rewrite parse_subtags_unfold in Hparse. simpl in Hparse. by simplify_eq. }
  simpl in Hn.
  destruct (detected_rank subtag) as [t|] eqn:Hd; cycle 1.
  { destruct (parse_subtags_undetected subtag rest expect Hd). congruence. }
  assert (Htyped : t = SCRIPT ∨ t = REGION ∨ t = VARIANT → P components).
  { intros Ht. rewrite (parse_subtags_typed _ _ _ _ Hd Ht) in Hparse.
    unfold parse_typed in Hparse.
    destruct (t <? expect); [by apply order_error_not_Ok in Hparse|].
    apply bind_Ok in Hparse as (typename & Hname & Hparse).
    apply bind_Ok in Hparse as (parsed & Hrec & Hok).
    assert (Hparsed : P parsed) by (by eapply (IH (length rest)); [lia|..]).
    destruct Ht as [-> | [-> | ->]]; vm_compute in Hname; simplify_eq; auto. }
  destruct (detected_rank_cases _ _ Hd) as [-> | [Ht | [Ht | [Ht | ->]]]]; auto.
  - rewrite (parse_subtags_extlang _ _ _ Hd) in Hparse.
    destruct (expect <=? EXTLANG); [|by apply order_error_not_Ok in Hparse].
    destruct (parse_extlang_spec subtag rest (detected_rank_extlang_length _ Hd))
      as (k & Hk & Hkl & Hrun & _ & Heq).
    rewrite Heq in Hparse. apply bind_Ok in Hparse as (parsed & Hrec & Hok).
    simplify_eq.
    assert (Hrest : P parsed).
    { eapply (IH (length (drop k (subtag :: rest)))); [|done|exact Hrec].
      rewrite length_drop. simpl. lia. }
    revert Hrun. generalize (take k (subtag :: rest)). intros l Hrun.
    induction Hrun as [|s l Hs _ IHl]; [done|].
    rewrite fmap_cons. by apply Hextlang.
  - rewrite (parse_subtags_extension _ _ _ Hd) in Hparse.
    unfold parse_extension, parse_extension_with in Hparse. simpl in Hparse.
    destruct (length rest =? 0); [done|].
    destruct (String.eqb subtag "x"); [by simplify_eq|].
    apply bind_Ok in Hparse as (parsed & Hrec & Hok). simplify_eq.
    destruct (boundary_loop_spec (drop 0 rest) 1) as (k & Hk & _).
    apply Hextension.
    eapply IH; [|done|exact Hrec]. rewrite length_drop, Hk. simpl. lia.
Qed.

(** ** The structure of a parse result *)

Lemma private_last_cons typ v components :
  typ ≠ "private" → private_last components → private_last ((typ, v) :: components).
Proof.
  intros Htyp Hlast [|i] v' Hi; simpl in *; [by simplify_eq|].
  f_equal. by eapply Hlast.
Qed.

Lemma parse_subtags_structure subtags expect components :
  parse_subtags subtags expect = Ok components →
  Forall (λ c, c.1 ∈ SUBTAG_COMPONENT_TYPES) components ∧ private_last components.
Proof.
  apply (parse_subtags_emits
           (λ cs, Forall (λ c, c.1 ∈ SUBTAG_COMPONENT_TYPES) cs ∧ private_last cs));
    unfold SUBTAG_COMPONENT_TYPES.
  - split; [constructor|]. by intros i v Hi.
  - intros s cs _ [Ht Hl]. split; [constructor; [simpl; set_solver|done]|].
    by apply private_last_cons.
  - intros s cs _ [Ht Hl]. split; [constructor; [simpl; set_solver|done]|].
    by apply private_last_cons.
  - intros s cs _ [Ht Hl]. split; [constructor; [simpl; set_solver|done]|].
    by apply private_last_cons.
  - intros s cs _ [Ht Hl]. split; [constructor; [simpl; set_solver|done]|].
    by apply private_last_cons.
  - intros s cs [Ht Hl]. split; [constructor; [simpl; set_solver|done]|].
    by apply private_last_cons.
  - intros v. split; [constructor; [simpl; set_solver|constructor]|].
    intros [|i] v' Hi; simpl in *; [done|]. by rewrite lookup_nil in Hi.
Qed.

(** X3.  A successful parse is either the single component of a
    grandfathered tag, or a [language] component followed by components of
    the other types only, in the order of the ranks, a [private] one
    coming last. *)
Theorem parse_result_structure (tag : string) (components : list component) :
  parse tag = Ok components →
  (components = [("grandfathered", normalize_characters tag)] ∧
   normalize_characters tag ∈ EXCEPTIONS) ∨
  (∃ language rest,
     components = ("language", language) :: rest ∧
     Forall (λ c, c.1 ∈ SUBTAG_COMPONENT_TYPES) rest ∧
     ordered_from EXTLANG rest ∧
     private_last rest).
Proof.
  unfold parse.
  destruct (Py.str_in _ _) eqn:Hexc.
  { intros [= <-]. left. split; [done|]. by apply str_in_spec. }
  intros H. right. apply bind_Ok in H as (subtag0 & _ & H).
  destruct (String.eqb subtag0 "x").
  { destruct (Nat.eqb _ _); [done|]. simplify_eq.
    exists (normalize_characters tag), []. split; [done|].
    split; [constructor|]. split; [apply ordered_from_nil | by intros i v Hi]. }
  destruct (Nat.leb _ _); [|done].
  apply bind_Ok in H as (parsed & Hrec & Hok). simplify_eq.
  exists subtag0, parsed. split; [done|].
  destruct (parse_subtags_structure _ _ _ Hrec) as [Htypes Hlast].
  split; [done|]. split; [|done].
  eapply parse_subtags_ordered; [|exact Hrec]. unfold EXTLANG, EXTENSION. lia.
Qed.

Lemma parse_result_structure_witness :
  ∃ language rest,
    [("language", "en"); ("extension", "u-co-backwards"); ("private", "x-pig-latin")]
      = ("language", language) :: rest ∧
    Forall (λ c, c.1 ∈ SUBTAG_COMPONENT_TYPES) rest ∧
    ordered_from EXTLANG rest ∧
    private_last rest.
Proof.
  destruct (parse_result_structure "en-u-co-backwards-x-pig-latin"
              [("language", "en"); ("extension", "u-co-backwards");
               ("private", "x-pig-latin")]) as [[Hg _] | H].
  - by_computation.
  - discriminate Hg.
  - exact H.
Defined.

(** ** The conventional casing of the values *)

Lemma upper_char_facts c :
  Py.upper_char (Py.upper_char c) = Py.upper_char c ∧
  Py.is_alpha_char (Py.upper_char c) = Py.is_alpha_char c ∧
  Py.is_digit_char (Py.upper_char c) = Py.is_digit_char c.
Proof. ascii_cases c; repeat split; reflexivity. Qed.

Lemma all_chars_map_chars p f s :
  (∀ c, p (f c) = p c) → Py.all_chars p (Py.map_chars f s) = Py.all_chars p s.
Proof. intros H. induction s as [|c s IH]; [done|]. simpl. by rewrite H, IH. Qed.

Lemma upper_idemp s : Py.upper (Py.upper s) = Py.upper s.
Proof.
  unfold Py.upper. rewrite map_chars_compose. apply map_chars_ext.
  intros c. apply upper_char_facts.
Qed.

Lemma isalpha_upper s : Py.isalpha (Py.upper s) = Py.isalpha s.
Proof.
  unfold Py.isalpha, Py.upper. rewrite map_chars_length. f_equal.
  apply all_chars_map_chars. intros c. apply upper_char_facts.
Qed.

Lemma isdigit_upper s : Py.isdigit (Py.upper s) = Py.isdigit s.
Proof.
  unfold Py.isdigit, Py.upper. rewrite map_chars_length. f_equal.
  apply all_chars_map_chars. intros c. apply upper_char_facts.
Qed.

Lemma title_from_cons b c s :
  Py.title_from b (String c s) =
    String (if Py.is_lower c then (if b then c else Py.upper_char c)
            else if Py.is_upper c then (if b then Py.lower_char c else c)
            else c)
           (Py.title_from (Py.is_lower c || Py.is_upper c) s).
Proof. simpl. by destruct (Py.is_lower c), (Py.is_upper c). Qed.

Lemma title_char_facts (b : bool) c :
  let c' := if Py.is_lower c then (if b then c else Py.upper_char c)
            else if Py.is_upper c then (if b then Py.lower_char c else c)
            else c in
  (Py.is_lower c' || Py.is_upper c') = (Py.is_lower c || Py.is_upper c) ∧
  (if Py.is_lower c' then (if b then c' else Py.upper_char c')
   else if Py.is_upper c' then (if b then Py.lower_char c' else c')
   else c') = c' ∧
  Py.is_alpha_char c' = Py.is_alpha_char c.
Proof. destruct b; ascii_cases c; repeat split; reflexivity. Qed.

Lemma title_from_idemp b s :
  Py.title_from b (Py.title_from b s) = Py.title_from b s.
Proof.
  revert b. induction s as [|c s IH]; intros b; [done|].
  rewrite title_from_cons.
  destruct (title_char_facts b c) as (Hcased & Hidem & _).
  cbv zeta in Hcased, Hidem.
  rewrite title_from_cons, Hcased, Hidem. by rewrite IH.
Qed.

Lemma title_from_length b s : String.length (Py.title_from b s) = String.length s.
Proof.
  revert b. induction s as [|c s IH]; intros b; [done|].
  rewrite title_from_cons. simpl. by rewrite IH.
Qed.

Lemma title_from_all_alpha b s :
  Py.all_chars Py.is_alpha_char (Py.title_from b s) = Py.all_chars Py.is_alpha_char s.
Proof.
  revert b. induction s as [|c s IH]; intros b; [done|].
  rewrite title_from_cons.
  destruct (title_char_facts b c) as (_ & _ & Halpha). cbv zeta in Halpha.
  cbn [Py.all_chars]. by rewrite Halpha, IH.
Qed.

Lemma parse_subtags_well_shaped subtags expect components :
  parse_subtags subtags expect = Ok components → Forall well_shaped components.
Proof.
  apply (parse_subtags_emits (Forall well_shaped)).
  - constructor.
  - intros s cs Hd Hcs. constructor; [|done].
    destruct (detected_rank_script s Hd) as [Hlen Halpha].
    unfold well_shaped. simpl. repeat split; try done.
    + unfold Py.title. by rewrite title_from_length.
    + unfold Py.isalpha, Py.title in *.
      by rewrite title_from_length, title_from_all_alpha.
    + apply title_from_idemp.
  - intros s cs Hd Hcs. constructor; [|done].
    unfold well_shaped. simpl. repeat split; try done.
    + unfold Py.upper at 1 3. rewrite map_chars_length, isalpha_upper, isdigit_upper.
      by apply detected_rank_region.
    + apply upper_idemp.
  - intros s cs Hd Hcs. constructor; [|done].
    unfold well_shaped. simpl. repeat split; try done.
    intros _. by apply detected_rank_variant.
  - intros s cs Hlen Hcs. constructor; [|done].
    unfold well_shaped. simpl. repeat split; done.
  - intros v cs Hcs. constructor; [|done]. unfold well_shaped. simpl. repeat split; done.
  - intros v. constructor; [|constructor]. unfold well_shaped. simpl. repeat split; done.
Qed.

(** X4.  In a successful parse of an ASCII tag every value has the
    conventional form of its type: a script is four letters in title case,
    a region is two letters in upper case or three digits, a variant is
    four characters starting with a digit or five to eight characters, an
    extlang is three characters. *)
Theorem parse_values_well_shaped (tag : string) (components : list component) :
  Py.isascii tag = true →
  parse tag = Ok components → Forall well_shaped components.
Proof.
  intros _. unfold parse. destruct (Py.str_in _ _).
  { intros [= <-]. constructor; [|constructor]. unfold well_shaped. simpl.
    repeat split; done. }
  intros H. apply bind_Ok in H as (subtag0 & _ & H).
  assert (Hlanguage : ∀ v, well_shaped ("language", v)).
  { intros v. unfold well_shaped. simpl. repeat split; done. }
  destruct (String.eqb subtag0 "x").
  { destruct (Nat.eqb _ _); [done|]. simplify_eq. constructor; [done|constructor]. }
  destruct (Nat.leb _ _); [|done].
  apply bind_Ok in H as (parsed & Hrec & Hok). simplify_eq.
  constructor; [done|]. by eapply parse_subtags_well_shaped.
Qed.

Lemma parse_values_well_shaped_witness :
  Forall well_shaped [("language", "zh"); ("script", "Hant"); ("region", "TW")].
Proof.
  apply (parse_values_well_shaped "ZH-hANT-tw"); [reflexivity | by_computation].
Defined.

(** ** One-character subtags *)

(** X5.  A one-character subtag with nothing after it is refused, whatever
    the cursor; the subtag [x] with something after it ends the parse, and
    everything from it on is kept as it is in one [private] component,
    whatever the cursor and whatever follows. *)
Theorem singleton_subtags (subtag : string) (rest : list string) (expect : nat) :
  String.length subtag = 1 →
  (rest = [] →
   parse_subtags [subtag] expect =
     Raise (LanguageTagError
              ("The subtag " +:+ Py.repr subtag +:+ " must be followed by something"))) ∧
  (subtag = "x" → rest ≠ [] →
   parse_subtags (subtag :: rest) expect =
     Ok [("private", Py.join "-" (subtag :: rest))]).
Proof.
  intros Hlen.
  assert (Hd : detected_rank subtag = Some EXTENSION).
  { unfold detected_rank. by rewrite Hlen. }
  split.
  - intros _. by rewrite (parse_subtags_extension _ _ _ Hd).
  - intros -> Hrest. rewrite (parse_subtags_extension _ _ _ Hd).
    unfold parse_extension, parse_extension_with.
    change (index ("x" :: rest) 0) with (@Ok string "x"). rewrite bind_ret.
    destruct rest as [|s rest]; [done|]. reflexivity.
Qed.

Lemma singleton_subtags_witness :
  parse_subtags ["x"; "pig"; "latin"; "u"; "this-is-not-a-subtag"] SCRIPT =
    Ok [("private", "x-pig-latin-u-this-is-not-a-subtag")].
Proof.
  apply (singleton_subtags "x" ["pig"; "latin"; "u"; "this-is-not-a-subtag"] SCRIPT);
    done.
Defined.

(** ** What [tag_to_meaning] comes out with *)

Lemma well_formed_empty : well_formed ∅.
Proof. intros k v H. by rewrite lookup_empty in H. Qed.

Lemma well_formed_insert_str (m : gmap string fvalue) k s :
  k ∉ SET_FIELDS → well_formed m → well_formed (<[k := VStr s]> m).
Proof.
  intros Hk Hm k' v Hv. destruct (decide (k = k')) as [<-|Hne].
  - rewrite lookup_insert_eq in Hv. simplify_eq.
    rewrite bool_decide_eq_false_2 by done. eauto.
  - rewrite lookup_insert_ne in Hv by done. by apply Hm.
Qed.

Lemma well_formed_insert_set (m : gmap string fvalue) k s :
  k ∈ SET_FIELDS → well_formed m → well_formed (<[k := VSet s]> m).
Proof.
  intros Hk Hm k' v Hv. destruct (decide (k = k')) as [<-|Hne].
  - rewrite lookup_insert_eq in Hv. simplify_eq.
    rewrite bool_decide_eq_true_2 by done. eauto.
  - rewrite lookup_insert_ne in Hv by done. by apply Hm.
Qed.

Lemma well_formed_delete (m : gmap string fvalue) k :
  well_formed m → well_formed (delete k m).
Proof.
  intros Hm k' v Hv. apply lookup_delete_Some in Hv as [_ Hv]. by apply Hm.
Qed.

Lemma well_formed_update (m other : gmap string fvalue) :
  well_formed m → well_formed other → well_formed (update m other).
Proof.
  intros Hm Ho k v Hv. unfold update in Hv.
  apply lookup_union_Some_raw in Hv as [Hv | [_ Hv]]; [by apply Ho | by apply Hm].
Qed.

Lemma well_formed_scalar (m : gmap string fvalue) k v :
  well_formed m → k ∉ SET_FIELDS → m !! k = Some v → ∃ s, v = VStr s.
Proof. intros Hm Hk Hv. specialize (Hm k v Hv). by rewrite bool_decide_eq_false_2 in Hm. Qed.

Lemma well_formed_set (m : gmap string fvalue) k v :
  well_formed m → k ∈ SET_FIELDS → m !! k = Some v → ∃ s, v = VSet s.
Proof. intros Hm Hk Hv. specialize (Hm k v Hv). by rewrite bool_decide_eq_true_2 in Hm. Qed.

Lemma well_formed_setdefault_add (m : gmap string fvalue) typ value :
  typ ∈ SET_FIELDS → well_formed m →
  ∃ s, setdefault_add m typ value = Ok (<[typ := VSet s]> m).
Proof.
  intros Htyp Hm. unfold setdefault_add. destruct (m !! typ) as [v|] eqn:Hv; [|eauto].
  destruct (well_formed_set m typ v Hm Htyp Hv) as [s ->]. eauto.
Qed.

Section outcome.
Variable DB : LanguageDB.

Lemma builder_outcome_insert normalize (m : gmap string fvalue) k s :
  k ∉ SET_FIELDS → k ≠ "macrolanguage" →
  builder_outcome normalize (Ok m) →
  builder_outcome normalize (Ok (<[k := VStr s]> m)).
Proof.
  intros Hk Hkm [Hm Hmacro]. split; [by apply well_formed_insert_str|].
  rewrite lookup_insert_ne by done. intros [v Hv]%Hmacro.
  destruct (decide (k = "language")) as [->|Hne].
  - rewrite lookup_insert_eq. eauto.
  - rewrite lookup_insert_ne by done. eauto.
Qed.

Lemma builder_outcome_add normalize (m : gmap string fvalue) typ value :
  typ ∈ SET_FIELDS →
  builder_outcome normalize (Ok m) →
  builder_outcome normalize (setdefault_add m typ value).
Proof.
  intros Htyp [Hm Hmacro].
  destruct (well_formed_setdefault_add m typ value Htyp Hm) as [s ->].
  split; [by apply well_formed_insert_set|].
  assert (typ ≠ "macrolanguage" ∧ typ ≠ "language") as [? ?].
  { unfold SET_FIELDS in Htyp. split; intros ->; set_solver. }
  by rewrite !lookup_insert_ne.
Qed.

Lemma builder_outcome_language normalize (m : gmap string fvalue) value :
  builder_outcome normalize (Ok m) →
  builder_outcome normalize
    (Ok (annotate_macrolanguage (MACROLANGUAGES DB) value (<["language" := VStr value]> m))).
Proof.
  intros [Hm Hmacro]. unfold annotate_macrolanguage.
  assert (Hl : "language" ∉ SET_FIELDS) by (unfold SET_FIELDS; set_solver).
  assert (Hml : "macrolanguage" ∉ SET_FIELDS) by (unfold SET_FIELDS; set_solver).
  destruct (MACROLANGUAGES DB !! value) as [macro|]; split.
  - by apply well_formed_insert_str, well_formed_insert_str.
  - intros _. rewrite lookup_insert_ne, lookup_insert_eq by done. eauto.
  - by apply well_formed_insert_str.
  - intros _. rewrite lookup_insert_eq. eauto.
Qed.

Lemma builder_outcome_update normalize (m : gmap string fvalue)
    (r : result (gmap string fvalue)) :
  builder_outcome normalize (Ok m) →
  builder_outcome normalize r →
  builder_outcome normalize (other ← r; Ok (update m other)).
Proof.
  intros [Hm Hmacro] Hr. destruct r as [other| |]; simpl; [|done..].
  destruct Hr as [Ho Homacro]. split; [by apply well_formed_update|].
  unfold update. rewrite !lookup_union.
  intros [v Hv].
  destruct (other !! "macrolanguage") as [v'|] eqn:Hom.
  - destruct Homacro as [l ->]; [eauto|]. destruct (m !! "language"); simpl; eauto.
  - destruct (m !! "macrolanguage") as [v'|] eqn:Hmm; [|by simplify_eq/=].
    destruct Hmacro as [l ->]; [eauto|]. destruct (other !! "language"); simpl; eauto.
Qed.

Lemma step_outcome normalize rec meaning typ value :
  (∀ tag, builder_outcome normalize (rec tag normalize)) →
  typ ∈ COMPONENT_TYPES →
  builder_outcome normalize (Ok meaning) →
  builder_outcome normalize (tag_to_meaning_step DB rec normalize meaning (typ, value)).
Proof.
  intros Hrec Htyp Hm. unfold COMPONENT_TYPES in Htyp.
  assert (Hset : ∀ t, t ∈ ["extlang"; "variant"; "extension"] → t ∈ SET_FIELDS).
  { unfold SET_FIELDS. set_solver. }
  repeat (apply elem_of_cons in Htyp as [-> | Htyp]); [..|by apply elem_of_nil in Htyp].
  - (* language *)
    destruct (decide (value = "und")) as [->|Hund]; [by rewrite step_language_und|].
    destruct normalize; [destruct (NORMALIZED_LANGUAGES DB !! value) as [r|] eqn:Hr|].
    + rewrite (step_language_replaced _ _ _ _ r) by done.
      apply builder_outcome_update; [done|]. apply Hrec.
    + rewrite step_language_kept by auto. by apply builder_outcome_language.
    + rewrite step_language_kept by auto. by apply builder_outcome_language.
  - (* extlang *)
    destruct normalize; cycle 1.
    { rewrite step_extlang_literal. apply builder_outcome_add; [set_solver|done]. }
    rewrite step_extlang_normalize. unfold getitem.
    destruct (meaning !! "language") as [language|] eqn:Hl; [|right; done].
    rewrite bind_ret.
    destruct (truthy language); [|apply builder_outcome_add; [set_solver|done]].
    destruct Hm as [Hwf Hmacro].
    destruct (well_formed_scalar meaning "language" language Hwf) as [l ->];
      [unfold SET_FIELDS; set_solver | done |].
    cbn [as_str]. rewrite bind_ret.
    destruct (NORMALIZED_LANGUAGES DB !! _) as [r|].
    + apply builder_outcome_update; [done|apply Hrec].
    + apply builder_outcome_add; [set_solver|done].
  - rewrite step_other by set_solver.
    apply builder_outcome_insert; [unfold SET_FIELDS; set_solver|done|done].
  - rewrite step_region.
    apply builder_outcome_insert; [unfold SET_FIELDS; set_solver|done|done].
  - rewrite step_variant. apply builder_outcome_add; [set_solver|done].
  - rewrite step_extension. apply builder_outcome_add; [set_solver|done].
  - rewrite step_other by set_solver.
    apply builder_outcome_insert; [unfold SET_FIELDS; set_solver|done|done].
  - rewrite step_other by set_solver.
    apply builder_outcome_insert; [unfold SET_FIELDS; set_solver|done|done].
Qed.
End outcome.

Lemma for_each_outcome {S X} (good : result S → Prop) (Q : X → Prop)
    (body : S → X → result S) :
  (∀ s x, good (Ok s) → Q x → good (body s x)) →
  ∀ xs s, good (Ok s) → Forall Q xs → good (for_each body s xs).
Proof.
  intros Hbody xs. induction xs as [|x xs IH]; intros s Hs Hxs; [done|].
  inversion_clear Hxs as [|? ? Hx Hxs'].
  rewrite for_each_cons. specialize (Hbody s x Hs Hx).
  destruct (body s x) as [s'| |]; simpl; auto.
Qed.

Lemma tag_to_meaning_outcome DB fuel tag normalize :
  builder_outcome normalize (tag_to_meaning DB fuel tag normalize).
Proof.
  revert tag. induction fuel as [|fuel IH]; intros tag; [done|].
  rewrite tag_to_meaning_unfold.
  assert (Htag : ∃ tag', (if normalize && contains (NORMALIZED_LANGUAGES DB) (Py.lower tag)
                          then getitem (NORMALIZED_LANGUAGES DB) (Py.lower tag)
                          else Ok tag) = Ok tag').
  { destruct normalize; simpl; [|eauto].
    destruct (NORMALIZED_LANGUAGES DB !! Py.lower tag) as [r|] eqn:Hr.
    - rewrite (contains_Some _ _ _ Hr), (getitem_Some _ _ _ Hr). eauto.
    - rewrite (contains_None _ _ Hr). eauto. }
  destruct Htag as [tag' ->]. rewrite bind_ret.
  destruct (parse_returns_or_raises tag') as [[components Hparse] | [msg Hparse]];
    rewrite Hparse; [|left; eauto].
  rewrite bind_ret.
  apply (for_each_outcome (builder_outcome normalize) (λ c, c.1 ∈ COMPONENT_TYPES)).
  - intros m [typ value] Hm Hc. apply step_outcome; [exact IH | exact Hc | exact Hm].
  - split; [apply well_formed_empty|]. intros [v Hv]. by rewrite lookup_empty in Hv.
  - by apply (parse_types tag').
Qed.

(** X6.  A record that [tag_to_meaning] returns, normalizing or not, has a
    set under each of [variant], [extension] and [extlang], a string under
    every other field, and a language whenever it has a macrolanguage. *)
Theorem tag_to_meaning_record (DB : LanguageDB) (fuel : nat) (tag : string)
    (normalize : bool) (meaning : gmap string fvalue) :
  tag_to_meaning DB fuel tag normalize = Ok meaning →
  well_formed meaning ∧
  (is_Some (meaning !! "macrolanguage") → is_Some (meaning !! "language")).
Proof.
  intros H. pose proof (tag_to_meaning_outcome DB fuel tag normalize) as Ho.
  by rewrite H in Ho.
Qed.

Lemma tag_to_meaning_record_witness :
  well_formed {[ "language" := VStr "zh"; "extlang" := VSet {[ "cmn" ]};
                 "script" := VStr "Hant" ]} ∧
  (is_Some (({[ "language" := VStr "zh"; "extlang" := VSet {[ "cmn" ]};
                "script" := VStr "Hant" ]} : gmap string fvalue) !! "macrolanguage") →
   is_Some (({[ "language" := VStr "zh"; "extlang" := VSet {[ "cmn" ]};
                "script" := VStr "Hant" ]} : gmap string fvalue) !! "language")).
Proof.
  apply (tag_to_meaning_record sample_DB 1 "zh-cmn-Hant" false). by_computation.
Defined.



(** ** The builder does not see case *)

Lemma lower_char_upper_char c : Py.lower_char (Py.upper_char c) = Py.lower_char c.
Proof. ascii_cases c; reflexivity. Qed.

Lemma lower_upper s : Py.lower (Py.upper s) = Py.lower s.
Proof.
  unfold Py.lower, Py.upper. rewrite map_chars_compose.
  apply map_chars_ext, lower_char_upper_char.
Qed.

Lemma tag_to_meaning_lower DB fuel tag1 tag2 normalize :
  Py.lower tag1 = Py.lower tag2 →
  tag_to_meaning DB fuel tag1 normalize = tag_to_meaning DB fuel tag2 normalize.
Proof.
  intros Hlower. destruct fuel as [|fuel]; [done|].
  rewrite !tag_to_meaning_unfold, Hlower.
  assert (Hparse : parse tag1 = parse tag2).
  { unfold parse, normalize_characters. by rewrite Hlower. }
  destruct (normalize && contains (NORMALIZED_LANGUAGES DB) (Py.lower tag2)); [done|].
  by rewrite !bind_ret, Hparse.
Qed.

(** X8.  [tag_to_meaning] and [standardize_tag] depend on the tag through
    its lower-cased form only: two tags with the same lower-cased form give
    the same outcome, and so do an ASCII tag and its upper-cased form. *)
Theorem builder_ignores_case (DB : LanguageDB) (fuel : nat) (tag1 tag2 : string)
    (flag : bool) :
  (Py.lower tag1 = Py.lower tag2 →
   tag_to_meaning DB fuel tag1 flag = tag_to_meaning DB fuel tag2 flag ∧
   standardize_tag DB fuel tag1 flag = standardize_tag DB fuel tag2 flag) ∧
  (Py.isascii tag1 = true →
   tag_to_meaning DB fuel (Py.upper tag1) flag = tag_to_meaning DB fuel tag1 flag ∧
   standardize_tag DB fuel (Py.upper tag1) flag = standardize_tag DB fuel tag1 flag).
Proof.
  split.
  - intros Hlower. split.
    + by apply tag_to_meaning_lower.
    + unfold standardize_tag. by rewrite (tag_to_meaning_lower DB fuel tag1 tag2).
  - intros _. split.
    + apply tag_to_meaning_lower, lower_upper.
    + unfold standardize_tag.
      by rewrite (tag_to_meaning_lower DB fuel (Py.upper tag1) tag1) by apply lower_upper.
Qed.

Lemma builder_ignores_case_witness :
  standardize_tag sample_DB 2 "SH-qu" false = standardize_tag sample_DB 2 "sh-QU" false ∧
  standardize_tag sample_DB 2 "SH-QU" false = standardize_tag sample_DB 2 "SH-qu" false.
Proof.
  split.
  - apply (builder_ignores_case sample_DB 2 "SH-qu" "sh-QU" false). reflexivity.
  - apply (builder_ignores_case sample_DB 2 "SH-qu" "sh-QU" false). reflexivity.
Defined.

(** ** [simplify_script] and [assume_script] *)

Lemma simplify_script_cases DB (m m' : gmap string fvalue) :
  simplify_script DB m = Ok m' →
  m' = m ∨
  (∃ language script,
     m !! "language" = Some (VStr language) ∧ m !! "script" = Some (VStr script) ∧
     DEFAULT_SCRIPTS DB !! language = Some script ∧ m' = delete "script" m).
Proof.
  unfold simplify_script.
  destruct (m !! "language") as [l|] eqn:Hl; [|intros; simplify_eq; auto].
  destruct (m !! "script") as [sc|] eqn:Hs; [|intros; simplify_eq; auto].
  destruct l as [l|l]; [|done]. cbn [as_str]. rewrite bind_ret.
  case_bool_decide as Hd; intros; simplify_eq; [|auto].
  right. destruct (DEFAULT_SCRIPTS DB !! l) as [d|] eqn:Hdl; simplify_eq/=.
  exists l, d. auto.
Qed.

(** X9.  What [simplify_script] returns is a fixed point of
    [simplify_script]; it has the fields of the record it was given, less
    [script] at most, with the same values; and it encompasses that record
    in the sense of [meaning_superset]. *)
Theorem simplify_script_idempotent (DB : LanguageDB) (m m' : gmap string fvalue) :
  simplify_script DB m = Ok m' →
  simplify_script DB m' = Ok m' ∧
  (∀ k, k ≠ "script" → m' !! k = m !! k) ∧
  (m' !! "script" = m !! "script" ∨ m' !! "script" = None) ∧
  meaning_superset m' m = true.
Proof.
  intros Hs.
  destruct (simplify_script_cases DB m m' Hs) as [-> | (l & sc & Hl & Hsc & Hd & ->)].
  - repeat apply conj; auto. apply meaning_superset_refl.
  - repeat apply conj.
    + apply simplify_script_absent, lookup_delete_eq.
    + intros k Hk. by rewrite lookup_delete_ne.
    + right. apply lookup_delete_eq.
    + apply meaning_superset_spec. intros key mine Hk.
      apply lookup_delete_Some in Hk as [_ Hk].
      exists mine. split; [done | apply field_within_refl].
Qed.

Lemma simplify_script_idempotent_witness :
  simplify_script sample_DB {[ "language" := VStr "en" ]} = Ok {[ "language" := VStr "en" ]}.
Proof.
  apply (simplify_script_idempotent sample_DB
           {[ "language" := VStr "en"; "script" := VStr "Latn" ]}).
  by_computation.
Defined.

(** X10.  [assume_script] and [simplify_script] undo each other: on a
    record without a script, simplifying what [assume_script] returns
    gives the record back; on a record with a script, [assume_script] of
    what [simplify_script] returns gives the record back. *)
Theorem assume_simplify_script (DB : LanguageDB) (m m' : gmap string fvalue) :
  (m !! "script" = None → assume_script DB m = Ok m' → simplify_script DB m' = Ok m) ∧
  (is_Some (m !! "script") → simplify_script DB m = Ok m' → assume_script DB m' = Ok m).
Proof.
  split.
  - intros Hnone. unfold assume_script. rewrite Hnone.
    destruct (m !! "language") as [[l|l]|] eqn:Hl; [| done |].
    + cbn [as_str]. rewrite bind_ret.
      destruct (DEFAULT_SCRIPTS DB !! l) as [d|] eqn:Hd; intros [= <-].
      * rewrite (simplify_script_default DB _ l d); [|by rewrite lookup_insert_ne|
          by rewrite lookup_insert_eq|done].
        by rewrite delete_insert_eq, delete_id.
      * by apply simplify_script_absent.
    + intros [= <-]. by apply simplify_script_absent.
  - intros [sc Hsc] Hs.
    destruct (simplify_script_cases DB m m' Hs) as [-> | (l & d & Hl & Hd & Hdl & ->)].
    + unfold assume_script. rewrite Hsc. by destruct (m !! "language").
    + unfold assume_script.
      rewrite lookup_delete_ne, lookup_delete_eq, Hl by done.
      cbn [as_str]. rewrite bind_ret, Hdl.
      by rewrite insert_delete_eq, insert_id.
Qed.

Lemma assume_simplify_script_witness :
  simplify_script sample_DB {[ "language" := VStr "yi"; "script" := VStr "Hebr" ]}
    = Ok {[ "language" := VStr "yi" ]}.
Proof.
  apply (assume_simplify_script sample_DB {[ "language" := VStr "yi" ]}); by_computation.
Defined.

(** ** [meaning_to_tag] *)

Lemma mapM_as_str_cases (l : list fvalue) :
  (∃ strs, l = VStr <$> strs ∧ mapM as_str l = Ok strs) ∨
  (mapM as_str l = Raise TypeError ∧ ∃ s, VSet s ∈ l).
Proof.
  induction l as [|v l IH]; [left; by exists []|].
  destruct v as [str|s]; cycle 1.
  { right. split; [done|]. exists s. left. }
  destruct IH as [(strs & -> & Hm) | (Hm & s & Hs)].
  - left. exists (str :: strs). split; [done|]. simpl. by rewrite Hm.
  - right. split; [simpl; by rewrite Hm|]. exists s. by right.
Qed.

Lemma elem_of_append_field (m : gmap string fvalue) k l x :
  x ∈ append_field m k l → x ∈ l ∨ m !! k = Some x.
Proof.
  unfold append_field. destruct (m !! k) as [v|]; [|auto].
  intros [H | H%list_elem_of_singleton]%elem_of_app; [auto|]. right. by subst.
Qed.

Lemma elem_of_append_sorted (m : gmap string fvalue) k l x :
  x ∈ append_sorted m k l → x ∈ l ∨ ∃ str, x = VStr str.
Proof.
  unfold append_sorted. destruct (m !! k) as [v|]; [|auto].
  intros [H | H]%elem_of_app; [auto|]. right.
  apply list_elem_of_fmap in H as (str & -> & _). eauto.
Qed.

Lemma meaning_to_tag_cases (m : gmap string fvalue) :
  (∃ tag, meaning_to_tag m = Ok tag) ∨
  (meaning_to_tag m = Raise TypeError ∧
   ∃ k s, k ∈ ["language"; "script"; "region"; "private"] ∧ m !! k = Some (VSet s)).
Proof.
  unfold meaning_to_tag. cbv zeta.
  match goal with |- context [mapM as_str ?l] =>
    destruct (mapM_as_str_cases l) as [(strs & _ & ->) | (-> & s & Hs)] end.
  { left. eauto. }
  right. split; [done|].
  apply elem_of_append_field in Hs as [Hs | Hs];
    [|exists "private", s; split; [by do 3 right; left | done]].
  apply elem_of_append_sorted in Hs as [Hs | [? ?]]; [|done].
  apply elem_of_append_sorted in Hs as [Hs | [? ?]]; [|done].
  apply elem_of_append_field in Hs as [Hs | Hs];
    [|exists "region", s; split; [by do 2 right; left | done]].
  apply elem_of_append_field in Hs as [Hs | Hs];
    [|exists "script", s; split; [by right; left | done]].
  apply list_elem_of_singleton in Hs.
  destruct (m !! "language") as [v|] eqn:Hl; simpl in Hs; [|done].
  subst v. exists "language", s. split; [by left | done].
Qed.

Lemma meaning_to_tag_well_formed (m : gmap string fvalue) :
  well_formed m → ∃ tag, meaning_to_tag m = Ok tag.
Proof.
  intros Hwf. destruct (meaning_to_tag_cases m) as [? | (_ & k & s & Hk & Hks)]; [done|].
  destruct (well_formed_scalar m k (VSet s) Hwf) as [? ?]; [|done|done].
  unfold SET_FIELDS.
  repeat (apply elem_of_cons in Hk as [-> | Hk]); [set_solver..|by apply elem_of_nil in Hk].
Qed.

Lemma mapM_as_str_set (l : list fvalue) s :
  VSet s ∈ l → mapM as_str l = Raise TypeError.
Proof.
  intros Hs. destruct (mapM_as_str_cases l) as [(strs & -> & _) | [H _]]; [|done].
  by apply list_elem_of_fmap in Hs as (str & ? & _).
Qed.

Lemma append_field_keeps (m : gmap string fvalue) k l x :
  x ∈ l → x ∈ append_field m k l.
Proof.
  intros Hx. unfold append_field. destruct (m !! k); [|done].
  apply elem_of_app. by left.
Qed.

Lemma append_field_adds (m : gmap string fvalue) k l x :
  m !! k = Some x → x ∈ append_field m k l.
Proof.
  intros Hk. unfold append_field. rewrite Hk.
  apply elem_of_app. right. by apply list_elem_of_singleton.
Qed.

Lemma append_sorted_keeps (m : gmap string fvalue) k l x :
  x ∈ l → x ∈ append_sorted m k l.
Proof.
  intros Hx. unfold append_sorted. destruct (m !! k); [|done].
  apply elem_of_app. by left.
Qed.

(** A set under one of the four fields that are written as they are makes
    the final join raise. *)
Lemma meaning_to_tag_set (m : gmap string fvalue) k s :
  k ∈ ["language"; "script"; "region"; "private"] →
  m !! k = Some (VSet s) →
  meaning_to_tag m = Raise TypeError.
Proof.
  intros Hk Hs. unfold meaning_to_tag. cbv zeta.
  rewrite (mapM_as_str_set _ s); [done|].
  repeat (apply elem_of_cons in Hk as [-> | Hk]); [..|by apply elem_of_nil in Hk].
  - do 1 apply append_field_keeps. do 2 apply append_sorted_keeps.
    do 2 apply append_field_keeps. rewrite Hs. by apply list_elem_of_singleton.
  - do 1 apply append_field_keeps. do 2 apply append_sorted_keeps.
    apply append_field_keeps. by apply append_field_adds.
  - do 1 apply append_field_keeps. do 2 apply append_sorted_keeps.
    by apply append_field_adds.
  - by apply append_field_adds.
Qed.

(** X11.  [meaning_to_tag] reads six fields and no other: records that
    agree on [language], [script], [region], [variant], [extension] and
    [private] have the same tag, whatever they hold under [macrolanguage],
    [extlang] or [grandfathered].  It raises [TypeError] exactly when a set
    is stored under [language], [script], [region] or [private], and
    returns a tag otherwise; on a meaning record it returns a tag. *)
Theorem meaning_to_tag_reads (m1 m2 : gmap string fvalue) :
  ((∀ k, k ∈ TAG_FIELDS → m1 !! k = m2 !! k) → meaning_to_tag m1 = meaning_to_tag m2) ∧
  (meaning_to_tag m1 = Raise TypeError ↔
   ∃ k s, k ∈ ["language"; "script"; "region"; "private"] ∧ m1 !! k = Some (VSet s)) ∧
  ((∀ k s, k ∈ ["language"; "script"; "region"; "private"] → m1 !! k ≠ Some (VSet s)) →
   ∃ tag, meaning_to_tag m1 = Ok tag) ∧
  (well_formed m1 → ∃ tag, meaning_to_tag m1 = Ok tag).
Proof.
  split; [|split; [|split]].
  - intros Hagree. unfold TAG_FIELDS in Hagree.
    assert (m1 !! "language" = m2 !! "language") as Hl by (apply Hagree; by left).
    assert (m1 !! "script" = m2 !! "script") as Hs by (apply Hagree; by right; left).
    assert (m1 !! "region" = m2 !! "region") as Hr by (apply Hagree; by do 2 right; left).
    assert (m1 !! "variant" = m2 !! "variant") as Hv by (apply Hagree; by do 3 right; left).
    assert (m1 !! "extension" = m2 !! "extension") as He
      by (apply Hagree; by do 4 right; left).
    assert (m1 !! "private" = m2 !! "private") as Hp by (apply Hagree; by do 5 right; left).
    unfold meaning_to_tag, append_field, append_sorted.
    by rewrite Hl, Hs, Hr, Hv, He, Hp.
  - split.
    + intros Hraise.
      destruct (meaning_to_tag_cases m1) as [[tag Htag] | [_ Hset]]; [|done].
      by rewrite Htag in Hraise.
    + intros (k & s & Hk & Hs). by apply (meaning_to_tag_set m1 k s).
  - intros Hnone.
    destruct (meaning_to_tag_cases m1) as [? | (_ & k & s & Hk & Hs)]; [done|].
    by destruct (Hnone k s Hk).
  - apply meaning_to_tag_well_formed.
Qed.

Lemma meaning_to_tag_reads_witness :
  meaning_to_tag {[ "language" := VStr "sr"; "macrolanguage" := VStr "sh";
                    "script" := VStr "Latn"; "extlang" := VSet {[ "abc" ]} ]}
    = meaning_to_tag {[ "language" := VStr "sr"; "script" := VStr "Latn" ]} ∧
  meaning_to_tag {[ "language" := VStr "sr"; "region" := VSet {[ "RS" ]} ]}
    = Raise TypeError.
Proof.
  split.
  - apply (meaning_to_tag_reads
             {[ "language" := VStr "sr"; "macrolanguage" := VStr "sh";
                "script" := VStr "Latn"; "extlang" := VSet {[ "abc" ]} ]}
             {[ "language" := VStr "sr"; "script" := VStr "Latn" ]}).
    unfold TAG_FIELDS. intros k Hk.
    repeat (apply elem_of_cons in Hk as [-> | Hk]);
      [by_computation.. | by apply elem_of_nil in Hk].
  - apply (meaning_to_tag_reads
             {[ "language" := VStr "sr"; "region" := VSet {[ "RS" ]} ]} ∅).
    exists "region", {[ "RS" ]}. split; [by do 2 right; left | by_computation].
Defined.

(** ** [meaning_superset] is an order *)

Lemma issubset_spec s v : issubset s v = true ↔ ∀ x, x ∈ s → x ∈ items_of v.
Proof.
  unfold issubset. rewrite forallb_forall. split.
  - intros H x Hx. apply str_in_spec, H, list_elem_of_In. by apply elem_of_elements.
  - intros H x Hx. apply str_in_spec, H, elem_of_elements. by apply list_elem_of_In.
Qed.

Lemma field_within_trans a b c :
  field_within a b = true → field_within b c = true → field_within a c = true.
Proof.
  destruct a as [a|a]; cbn [field_within].
  { intros <-%bool_decide_eq_true_1. done. }
  destruct b as [b|b]; cbn [field_within].
  { intros Hab <-%bool_decide_eq_true_1. done. }
  rewrite !issubset_spec. intros Hab Hbc x Hx.
  apply Hbc. specialize (Hab x Hx). simpl in Hab. by apply elem_of_elements in Hab.
Qed.

(** X12.  [meaning_superset] is transitive, on all records: with the
    reflexivity and the antisymmetry it is an order on records. *)
Theorem meaning_superset_transitive (A B C : gmap string fvalue) :
  meaning_superset A B = true →
  meaning_superset B C = true →
  meaning_superset A C = true.
Proof.
  rewrite !meaning_superset_spec. intros HAB HBC key a Ha.
  destruct (HAB key a Ha) as (b & Hb & Hab).
  destruct (HBC key b Hb) as (c & Hc & Hbc).
  exists c. split; [done|]. by eapply field_within_trans.
Qed.

Lemma meaning_superset_transitive_witness :
  meaning_superset {[ "language" := VStr "ja" ]}
    {[ "language" := VStr "ja"; "script" := VStr "Latn";
       "variant" := VSet {[ "hepburn"; "heploc" ]} ]} = true.
Proof.
  apply (meaning_superset_transitive _
           {[ "language" := VStr "ja"; "variant" := VSet {[ "hepburn" ]} ]});
    by_computation.
Defined.

(** ** The broadened records *)

Lemma _filter_keys_lookup_Some (d : gmap string fvalue) keys k v :
  _filter_keys d keys !! k = Some v →
  (k ∈ keys ∧ d !! k = Some v ∧
   (k = "macrolanguage" → "language" ∈ keys ∧ is_Some (d !! "language"))) ∨
  (k = "language" ∧ "macrolanguage" ∈ keys ∧ d !! "macrolanguage" = Some v).
Proof.
  unfold _filter_keys.
  assert (Hr : ∀ k' v', restrict d keys !! k' = Some v' → k' ∈ keys ∧ d !! k' = Some v').
  { intros k' v'. rewrite restrict_lookup. by case_bool_decide. }
  destruct (restrict d keys !! "macrolanguage") as [macro|] eqn:Hm.
  - destruct (restrict d keys !! "language") as [l|] eqn:Hl.
    + intros Hk. left. destruct (Hr k v Hk) as [? ?].
      split; [done|]. split; [done|]. intros _.
      destruct (Hr "language" l Hl). eauto.
    + intros Hk. apply lookup_delete_Some in Hk as [Hne Hk].
      destruct (decide (k = "language")) as [->|Hkl].
      * rewrite lookup_insert_eq in Hk. simplify_eq. right.
        destruct (Hr _ _ Hm). done.
      * rewrite lookup_insert_ne in Hk by done. left.
        destruct (Hr k v Hk) as [? ?].
        split; [done|]. split; [done|]. by intros ->.
  - intros Hk. left. destruct (Hr k v Hk) as [? ?].
    split; [done|]. split; [done|]. intros ->. congruence.
Qed.

Lemma _filter_keys_no_macrolanguage (d : gmap string fvalue) keys :
  d !! "macrolanguage" = None → _filter_keys d keys = restrict d keys.
Proof.
  intros Hd. unfold _filter_keys.
  assert (restrict d keys !! "macrolanguage" = None) as ->; [|done].
  rewrite restrict_lookup. by case_bool_decide.
Qed.

Lemma elem_of_broader_meanings (M b : gmap string fvalue) :
  b ∈ broader_meanings M → b = M ∨ ∃ keys, keys ∈ BROADER_KEYSETS ∧ b = _filter_keys M keys.
Proof.
  unfold broader_meanings. intros [-> | Hb]%elem_of_cons; [auto|]. right.
  apply list_elem_of_filter in Hb as [_ Hb].
  apply list_elem_of_fmap in Hb as (keys & -> & Hkeys). eauto.
Qed.

Lemma BROADER_KEYSETS_keys :
  Forall (λ keys,
            Forall (λ k, k ∈ ["language"; "macrolanguage"; "script"; "region"]) keys ∧
            ¬ ("language" ∈ keys ∧ "macrolanguage" ∈ keys)) BROADER_KEYSETS.
Proof. apply (bool_decide_unpack _). by vm_compute. Qed.

(** X13.  After the record itself, every record of [broader_meanings M]
    has fields among [language], [script] and [region] only; the value of
    a field is its value in [M], or, for [language], the macrolanguage of
    [M].  When [M] has no macrolanguage, every record of the sequence
    encompasses [M] in the sense of [meaning_superset]. *)
Theorem broader_meanings_fields (M b : gmap string fvalue) :
  (b ∈ tail (broader_meanings M) →
   ∀ k v, b !! k = Some v →
     k ∈ ["language"; "script"; "region"] ∧
     (M !! k = Some v ∨ k = "language" ∧ M !! "macrolanguage" = Some v)) ∧
  (M !! "macrolanguage" = None → b ∈ broader_meanings M → meaning_superset b M = true).
Proof.
  split.
  - intros Hb k v Hk.
    assert (Hin : b ∈ broader_meanings M) by (by right).
    unfold broader_meanings in Hb. cbn [tail] in Hb.
    apply list_elem_of_filter in Hb as [_ Hb].
    apply list_elem_of_fmap in Hb as (keys & -> & Hkeys).
    apply _filter_keys_lookup_Some in Hk as [(Hkk & HM & Hmacro) | (-> & _ & HM)];
      [|split; [set_solver | auto]].
    split; [|auto].
    pose proof BROADER_KEYSETS_keys as Hall.
    rewrite Forall_forall in Hall. destruct (Hall keys Hkeys) as [Hfour Hboth].
    rewrite Forall_forall in Hfour. specialize (Hfour k Hkk).
    repeat (apply elem_of_cons in Hfour as [-> | Hfour]);
      [by left | | by right; left | by right; right; left
      | by apply elem_of_nil in Hfour].
    destruct Hboth. destruct Hmacro as [Hl _]; done.
  - intros Hnone [-> | (keys & _ & ->)]%elem_of_broader_meanings.
    { apply meaning_superset_refl. }
    rewrite _filter_keys_no_macrolanguage by done.
    apply meaning_superset_spec. intros key mine Hk.
    rewrite restrict_lookup in Hk. case_bool_decide; [|done].
    exists mine. split; [done | apply field_within_refl].
Qed.

Lemma broader_meanings_fields_witness :
  meaning_superset {[ "language" := VStr "zh"; "region" := VStr "HK" ]}
    {[ "language" := VStr "zh"; "script" := VStr "Hant"; "region" := VStr "HK";
       "variant" := VSet {[ "a1234" ]} ]} = true.
Proof.
  apply (broader_meanings_fields
           {[ "language" := VStr "zh"; "script" := VStr "Hant"; "region" := VStr "HK";
              "variant" := VSet {[ "a1234" ]} ]}).
  - by_computation.
  - apply list_elem_of_lookup_2 with 3. by_computation.
Defined.

(** ** [fill_likely_values] and the entry of the empty record *)

Lemma well_formed_restrict (d : gmap string fvalue) keys :
  well_formed d → well_formed (restrict d keys).
Proof.
  intros Hd k v Hk. rewrite restrict_lookup in Hk.
  case_bool_decide; [by apply Hd | done].
Qed.

Lemma well_formed__filter_keys (d : gmap string fvalue) keys :
  well_formed d → well_formed (_filter_keys d keys).
Proof.
  intros Hd. pose proof (well_formed_restrict d keys Hd) as Hr.
  unfold _filter_keys.
  destruct (restrict d keys !! "macrolanguage") as [macro|] eqn:Hm; [|done].
  destruct (restrict d keys !! "language"); [done|].
  destruct (well_formed_scalar (restrict d keys) "macrolanguage" macro Hr) as [s ->];
    [unfold SET_FIELDS; set_solver | done |].
  apply well_formed_delete, well_formed_insert_str; [|done].
  unfold SET_FIELDS. set_solver.
Qed.

Lemma fill_likely_loop_entry DB LIKELY_SUBTAGS fuel M candidates c tag :
  Forall (λ b, ∃ t, meaning_to_tag b = Ok t) candidates →
  c ∈ candidates → meaning_to_tag c = Ok tag → is_Some (LIKELY_SUBTAGS !! tag) →
  ∃ tag' likely,
    LIKELY_SUBTAGS !! tag' = Some likely ∧
    fill_likely_loop DB LIKELY_SUBTAGS fuel M candidates
      = (result ← tag_to_meaning DB fuel likely true; Ok (update result M)).
Proof.
  intros Htags Hc Htag Hentry.
  induction Htags as [|b candidates [t Ht] _ IH]; [by apply elem_of_nil in Hc|].
  destruct (LIKELY_SUBTAGS !! t) as [likely|] eqn:Hl.
  { exists t, likely. split; [done|]. by eapply fill_likely_loop_hit. }
  assert (Hskip : fill_likely_loop DB LIKELY_SUBTAGS fuel M (b :: candidates)
                  = fill_likely_loop DB LIKELY_SUBTAGS fuel M candidates).
  { apply (fill_likely_loop_skip DB LIKELY_SUBTAGS fuel M [b] candidates).
    constructor; [|constructor]. by exists t. }
  rewrite Hskip. apply IH.
  apply elem_of_cons in Hc as [-> | Hc]; [|done].
  rewrite Ht in Htag. simplify_eq. rewrite Hl in Hentry. by destruct Hentry.
Qed.

(** X14.  When the table of likely subtags has an entry for [und], the
    tag of the empty record, [fill_likely_values] on a meaning record (sets
    under [variant], [extension] and [extlang], a string under every other
    key it has) always reaches an entry: it decodes some entry [likely] of the table
    and overlays the record, and so never raises [RuntimeError]. *)
Theorem fill_likely_values_reaches_entry (DB : LanguageDB)
    (LIKELY_SUBTAGS : gmap string string) (fuel : nat) (M : gmap string fvalue) :
  well_formed M →
  is_Some (LIKELY_SUBTAGS !! "und") →
  (∃ tag likely,
     LIKELY_SUBTAGS !! tag = Some likely ∧
     fill_likely_values DB LIKELY_SUBTAGS fuel M
       = (result ← tag_to_meaning DB fuel likely true; Ok (update result M))) ∧
  ∀ msg, fill_likely_values DB LIKELY_SUBTAGS fuel M ≠ Raise (RuntimeError msg).
Proof.
  intros HM Hund.
  assert (Hreach : ∃ tag likely,
     LIKELY_SUBTAGS !! tag = Some likely ∧
     fill_likely_values DB LIKELY_SUBTAGS fuel M
       = (result ← tag_to_meaning DB fuel likely true; Ok (update result M))).
  { unfold fill_likely_values.
    apply fill_likely_loop_entry with ∅ "und"; [| |done|done].
    - apply Forall_forall. intros b Hb. apply meaning_to_tag_well_formed.
      apply elem_of_broader_meanings in Hb as [-> | (keys & _ & ->)]; [done|].
      by apply well_formed__filter_keys.
    - pose proof (broader_meanings_last M) as Hlast.
      apply last_Some in Hlast as [l ->]. apply elem_of_app. right. by left. }
  split; [done|].
  destruct Hreach as (tag & likely & _ & ->). intros msg Hraise.
  pose proof (tag_to_meaning_outcome DB fuel likely true) as Ho.
  destruct (tag_to_meaning DB fuel likely true) as [r|e|]; simpl in *; [done| |done].
  simplify_eq. destruct Ho as [[? ?] | [_ ?]]; done.
Qed.

Lemma fill_likely_values_reaches_entry_witness :
  is_Some (sample_LIKELY_SUBTAGS !! "und") ∧
  (∃ tag likely,
     sample_LIKELY_SUBTAGS !! tag = Some likely ∧
     fill_likely_values sample_DB sample_LIKELY_SUBTAGS 2
       {[ "script" := VStr "Cyrl"; "variant" := VSet {[ "a1234" ]} ]}
       = (result ← tag_to_meaning sample_DB 2 likely true;
          Ok (update result
                {[ "script" := VStr "Cyrl"; "variant" := VSet {[ "a1234" ]} ]}))) ∧
  ∀ msg, fill_likely_values sample_DB sample_LIKELY_SUBTAGS 2
           {[ "script" := VStr "Cyrl"; "variant" := VSet {[ "a1234" ]} ]}
         ≠ Raise (RuntimeError msg).
Proof.
  assert (Hund : is_Some (sample_LIKELY_SUBTAGS !! "und")) by (vm_compute; eauto).
  split; [exact Hund|].
  apply (fill_likely_values_reaches_entry sample_DB sample_LIKELY_SUBTAGS 2);
    [|exact Hund].
  apply well_formed_insert_str; [unfold SET_FIELDS; set_solver|].
  apply (well_formed_insert_set ∅); [unfold SET_FIELDS; set_solver|].
  apply well_formed_empty.
Defined.

(** ** What [standardize_tag] comes out with *)




(** ** Splitting and joining *)

Lemma split_append_hyphen x rest :
  Py.has_char "-" x = false →
  Py.split "-" (x +:+ String "-" rest) = x :: Py.split "-" rest.
Proof.
  induction x as [|c x IH]; intros Hx; [done|].
  cbn [Py.has_char] in Hx. apply orb_false_iff in Hx as [Hc Hx].
  change (String c x +:+ String "-" rest) with (String c (x +:+ String "-" rest)).
  cbn [Py.split]. rewrite Hc, (IH Hx). done.
Qed.

Lemma split_no_hyphen x : Py.has_char "-" x = false → Py.split "-" x = [x].
Proof.
  induction x as [|c x IH]; intros Hx; [done|].
  cbn [Py.has_char] in Hx. apply orb_false_iff in Hx as [Hc Hx].
  cbn [Py.split]. by rewrite Hc, (IH Hx).
Qed.

Lemma join_cons_cons sep x y l :
  Py.join sep (x :: y :: l) = x +:+ sep +:+ Py.join sep (y :: l).
Proof. reflexivity. Qed.

(** Joining with hyphens subtags that hold no hyphen, then splitting,
    gives the subtags back. *)
Lemma split_join l :
  l ≠ [] → Forall (λ x, Py.has_char "-" x = false) l →
  Py.split "-" (Py.join "-" l) = l.
Proof.
  intros Hne Hall. induction Hall as [|x l Hx Hall IH]; [done|].
  destruct l as [|y l]; [by apply split_no_hyphen|].
  rewrite join_cons_cons.
  change ("-" +:+ Py.join "-" (y :: l)) with (String "-" (Py.join "-" (y :: l))).
  rewrite split_append_hyphen by done. f_equal. by apply IH.
Qed.

Lemma map_chars_append f a b :
  Py.map_chars f (a +:+ b) = Py.map_chars f a +:+ Py.map_chars f b.
Proof. induction a as [|c a IH]; [done|]. simpl. by rewrite IH. Qed.

Lemma normalize_characters_join l :
  normalize_characters (Py.join "-" l) = Py.join "-" (normalize_characters <$> l).
Proof.
  induction l as [|x l IH]; [done|].
  destruct l as [|y l]; [done|].
  rewrite fmap_cons, !join_cons_cons.
  rewrite normalize_characters_chars, !map_chars_append in *.
  rewrite <- normalize_characters_chars. by rewrite IH.
Qed.

Lemma has_char_map_chars (p : ascii → bool) f a s :
  (∀ c, p c = true → Ascii.eqb (f c) a = false) →
  Py.all_chars p s = true → Py.has_char a (Py.map_chars f s) = false.
Proof.
  intros Hp. induction s as [|c s IH]; [done|].
  cbn [Py.all_chars Py.map_chars Py.has_char].
  intros [Hc Hs]%andb_true_iff. by rewrite (Hp c Hc), (IH Hs).
Qed.

Lemma normalize_char_of_subtag c :
  Py.is_alpha_char c || Py.is_digit_char c = true →
  let n := if Ascii.eqb (Py.lower_char c) "_" then "-"%char else Py.lower_char c in
  Ascii.eqb n "-" = false ∧
  Py.upper_char n = Py.upper_char c ∧
  Py.is_alpha_char n = Py.is_alpha_char c ∧
  Py.is_digit_char n = Py.is_digit_char c ∧
  (Py.is_lower n || Py.is_upper n) = (Py.is_lower c || Py.is_upper c) ∧
  ∀ b : bool,
    (if Py.is_lower n then (if b then n else Py.upper_char n)
     else if Py.is_upper n then (if b then Py.lower_char n else n) else n)
    = (if Py.is_lower c then (if b then c else Py.upper_char c)
       else if Py.is_upper c then (if b then Py.lower_char c else c) else c).
Proof.
  ascii_cases c; intros H; try discriminate H;
    repeat split; try reflexivity; intros []; reflexivity.
Qed.

Lemma all_chars_impl (p q : ascii → bool) s :
  (∀ c, p c = true → q c = true) →
  Py.all_chars p s = true → Py.all_chars q s = true.
Proof.
  intros Hpq. induction s as [|c s IH]; [done|]. cbn [Py.all_chars].
  intros [Hc Hs]%andb_true_iff. by rewrite (Hpq c Hc), (IH Hs).
Qed.

(** What normalization does to a subtag made of letters and digits. *)
Lemma normalize_characters_subtag s :
  Py.all_chars (λ c, Py.is_alpha_char c || Py.is_digit_char c) s = true →
  Py.has_char "-" (normalize_characters s) = false ∧
  Py.upper (normalize_characters s) = Py.upper s ∧
  Py.all_chars Py.is_alpha_char (normalize_characters s) = Py.all_chars Py.is_alpha_char s ∧
  Py.all_chars Py.is_digit_char (normalize_characters s) = Py.all_chars Py.is_digit_char s ∧
  ∀ b, Py.title_from b (normalize_characters s) = Py.title_from b s.
Proof.
  rewrite normalize_characters_chars. unfold Py.upper.
  induction s as [|c s IH]; [done|].
  cbn [Py.all_chars Py.map_chars Py.has_char].
  intros [Hc Hs]%andb_true_iff.
  destruct (IH Hs) as (IH1 & IH2 & IH3 & IH4 & IH5).
  destruct (normalize_char_of_subtag c Hc) as (H1 & H2 & H3 & H4 & H5 & H6).
  cbv zeta in H1, H2, H3, H4, H5, H6.
  rewrite H1, H2, H3, H4, IH1, IH2, IH3, IH4.
  do 4 (split; [done|]). intros b.
  rewrite !title_from_cons, H5, H6, IH5. done.
Qed.

Lemma isalpha_subtag s :
  Py.isalpha s = true →
  Py.all_chars (λ c, Py.is_alpha_char c || Py.is_digit_char c) s = true.
Proof.
  unfold Py.isalpha. intros [_ H]%andb_true_iff.
  revert H. apply all_chars_impl. by intros c ->.
Qed.

Lemma isdigit_subtag s :
  Py.isdigit s = true →
  Py.all_chars (λ c, Py.is_alpha_char c || Py.is_digit_char c) s = true.
Proof.
  unfold Py.isdigit. intros [_ H]%andb_true_iff.
  revert H. apply all_chars_impl. intros c ->. apply orb_true_r.
Qed.

Lemma isdigit_not_isalpha s : Py.isdigit s = true → Py.isalpha s = false.
Proof.
  unfold Py.isdigit, Py.isalpha. destruct s as [|c s]; [done|].
  cbn [String.length Nat.eqb negb andb Py.all_chars].
  intros [Hc _]%andb_true_iff.
  assert (Py.is_alpha_char c = false) as ->; [|done].
  revert Hc. ascii_cases c; (reflexivity || discriminate).
Qed.

Lemma detected_rank_SCRIPT s :
  String.length s = 4 → Py.isalpha s = true → detected_rank s = Some SCRIPT.
Proof. unfold detected_rank. by intros -> ->. Qed.

Lemma detected_rank_REGION r :
  String.length r = 2 ∧ Py.isalpha r = true ∨ String.length r = 3 ∧ Py.isdigit r = true →
  detected_rank r = Some REGION.
Proof.
  unfold detected_rank. intros [[-> ->] | [-> Hd]]; [done|].
  by rewrite (isdigit_not_isalpha r Hd), Hd.
Qed.

Lemma parse_subtags_script s rest expect :
  String.length s = 4 → Py.isalpha s = true → expect ≤ SCRIPT →
  parse_subtags (s :: rest) expect =
    (parsed ← parse_subtags rest REGION; Ok (("script", Py.title s) :: parsed)).
Proof.
  intros Hl Ha He.
  rewrite (parse_subtags_typed s rest expect SCRIPT (detected_rank_SCRIPT s Hl Ha))
    by auto.
  unfold parse_typed, SCRIPT in *. by destruct expect as [|[|?]]; [| |lia].
Qed.

Lemma parse_subtags_region r rest expect :
  String.length r = 2 ∧ Py.isalpha r = true ∨ String.length r = 3 ∧ Py.isdigit r = true →
  expect ≤ REGION →
  parse_subtags (r :: rest) expect =
    (parsed ← parse_subtags rest VARIANT; Ok (("region", Py.upper r) :: parsed)).
Proof.
  intros Hr He.
  rewrite (parse_subtags_typed r rest expect REGION (detected_rank_REGION r Hr))
    by auto.
  unfold parse_typed, REGION in *. by destruct expect as [|[|[|?]]]; [| | |lia].
Qed.

(** ** Tags in conventional form *)

(** No grandfathered tag is a language subtag of two characters or more
    followed by at most a script-shaped and a region-shaped subtag. *)
Lemma canonical_not_exception language (script region : option string) tag :
  2 ≤ String.length language →
  (∀ s, script = Some s → String.length s = 4) →
  (∀ r, region = Some r →
     String.length r = 2 ∧ Py.isalpha r = true ∨
     String.length r = 3 ∧ Py.isdigit r = true) →
  Py.split "-" tag = language :: option_list script ++ option_list region →
  Py.str_in tag EXCEPTIONS = false.
Proof.
  intros Hl Hs Hr Hsplit.
  destruct (Py.str_in tag EXCEPTIONS) eqn:E; [|done]. exfalso.
  apply str_in_spec in E. unfold EXCEPTIONS in E.
  repeat (apply elem_of_cons in E as [-> | E]); [..|by apply elem_of_nil in E];
    vm_compute in Hsplit;
    destruct script as [s|], region as [r|]; simplify_eq;
    try (vm_compute in Hl; lia);
    try (specialize (Hs _ eq_refl); vm_compute in Hs; discriminate Hs);
    try (destruct (Hr _ eq_refl) as [[H1 H2] | [H1 H2]];
         vm_compute in H1, H2; discriminate).
Qed.

Lemma normalize_characters_length s :
  String.length (normalize_characters s) = String.length s.
Proof. rewrite normalize_characters_chars. apply map_chars_length. Qed.

Lemma normalize_characters_script s :
  well_shaped ("script", s) →
  String.length (normalize_characters s) = 4 ∧
  Py.isalpha (normalize_characters s) = true ∧
  Py.has_char "-" (normalize_characters s) = false ∧
  Py.title (normalize_characters s) = s.
Proof.
  intros (_ & Hs & _ & _). destruct (Hs eq_refl) as (Hl & Ha & Ht). cbn [snd] in *.
  destruct (normalize_characters_subtag s (isalpha_subtag s Ha)) as (H1 & _ & H3 & _ & H5).
  split; [by rewrite normalize_characters_length|].
  split; [|split; [done|]].
  - unfold Py.isalpha in *. by rewrite normalize_characters_length, H3.
  - unfold Py.title in *. by rewrite H5.
Qed.

Lemma normalize_characters_region r :
  well_shaped ("region", r) →
  (String.length (normalize_characters r) = 2 ∧ Py.isalpha (normalize_characters r) = true ∨
   String.length (normalize_characters r) = 3 ∧ Py.isdigit (normalize_characters r) = true) ∧
  Py.has_char "-" (normalize_characters r) = false ∧
  Py.upper (normalize_characters r) = r.
Proof.
  intros (_ & _ & Hr & _). destruct (Hr eq_refl) as (Hshape & Hu). cbn [snd] in *.
  assert (Py.all_chars (λ c, Py.is_alpha_char c || Py.is_digit_char c) r = true) as Hsub.
  { destruct Hshape as [[_ H] | [_ H]]; [by apply isalpha_subtag | by apply isdigit_subtag]. }
  destruct (normalize_characters_subtag r Hsub) as (H1 & H2 & H3 & H4 & _).
  split; [|split; [done | by rewrite H2]].
  unfold Py.isalpha, Py.isdigit in *.
  by rewrite normalize_characters_length, H3, H4.
Qed.

(** [parse] on a tag whose normalized form is not grandfathered and
    starts with a language subtag of two characters or more. *)
Lemma parse_language_first tag language subs :
  Py.str_in (normalize_characters tag) EXCEPTIONS = false →
  Py.split "-" (normalize_characters tag) = language :: subs →
  2 ≤ String.length language →
  parse tag =
    (parsed ← parse_subtags subs EXTLANG; Ok (("language", language) :: parsed)).
Proof.
  intros Hexc Hsplit Hl. unfold parse. cbv zeta. rewrite Hexc, Hsplit.
  change (index (language :: subs) 0) with (Ok language). rewrite bind_ret.
  destruct (String.eqb_spec language "x") as [-> | _]; [simpl in Hl; lia|].
  rewrite (leb_correct _ _ Hl).
  by change (drop 1 (language :: subs)) with subs.
Qed.

Lemma parse_canonical_tag language script region :
  2 ≤ String.length language →
  normalize_characters language = language →
  Py.has_char "-" language = false →
  (∀ s, script = Some s → well_shaped ("script", s)) →
  (∀ r, region = Some r → well_shaped ("region", r)) →
  parse (canonical_tag language script region)
    = Ok (canonical_components language script region).
Proof.
  intros Hl Hn Hh Hs Hr.
  set (ns := normalize_characters <$> script).
  set (nr := normalize_characters <$> region).
  assert (Hsplit : Py.split "-" (normalize_characters (canonical_tag language script region))
                   = language :: option_list ns ++ option_list nr).
  { unfold canonical_tag. rewrite normalize_characters_join, fmap_cons, Hn.
    rewrite split_join; [|done|].
    - subst ns nr. by destruct script, region.
    - apply Forall_cons. split; [done|].
      rewrite fmap_app. apply Forall_app. split.
      + destruct script as [s|]; [|by apply Forall_nil].
        apply Forall_singleton. by apply normalize_characters_script, Hs.
      + destruct region as [r|]; [|by apply Forall_nil].
        apply Forall_singleton. by apply normalize_characters_region, Hr. }
  rewrite (parse_language_first _ language (option_list ns ++ option_list nr)); [|..|done|done].
  2:{ apply (canonical_not_exception language ns nr); [done| | |done].
      - subst ns. intros s' Hs'. destruct script as [s|]; simplify_eq/=.
        by apply normalize_characters_script, Hs.
      - subst nr. intros r' Hr'. destruct region as [r|]; simplify_eq/=.
        by apply normalize_characters_region, Hr. }
  subst ns nr. unfold canonical_components.
  destruct script as [s|], region as [r|]; cbn [fmap option_fmap option_map option_list option_rect app list_fmap].
  - destruct (normalize_characters_script s (Hs s eq_refl)) as (H1 & H2 & _ & H4).
    destruct (normalize_characters_region r (Hr r eq_refl)) as (H5 & _ & H7).
    rewrite (parse_subtags_script _ _ EXTLANG H1 H2) by (unfold EXTLANG, SCRIPT; lia).
    rewrite (parse_subtags_region _ _ REGION H5) by done.
    rewrite parse_subtags_unfold. cbn [parse_subtags_body]. rewrite !bind_ret.
    by rewrite H4, H7.
  - destruct (normalize_characters_script s (Hs s eq_refl)) as (H1 & H2 & _ & H4).
    rewrite (parse_subtags_script _ _ EXTLANG H1 H2) by (unfold EXTLANG, SCRIPT; lia).
    rewrite parse_subtags_unfold. cbn [parse_subtags_body]. rewrite !bind_ret.
    by rewrite H4.
  - destruct (normalize_characters_region r (Hr r eq_refl)) as (H5 & _ & H7).
    rewrite (parse_subtags_region _ _ EXTLANG H5) by (unfold EXTLANG, REGION; lia).
    rewrite parse_subtags_unfold. cbn [parse_subtags_body]. rewrite !bind_ret.
    by rewrite H7.
  - rewrite parse_subtags_unfold. by cbn [parse_subtags_body].
Qed.

(** The record that the builder makes of the components of a tag in
    conventional form. *)
Lemma for_each_canonical_components DB rec normalize language script region :
  normalize = false ∨
    NORMALIZED_LANGUAGES DB !! language = None ∧
    (∀ r, region = Some r → NORMALIZED_REGIONS DB !! r = None) →
  ∃ m, for_each (tag_to_meaning_step DB rec normalize) ∅
         (canonical_components language script region) = Ok m ∧
       m !! "language" = (if String.eqb language "und" then None
                          else Some (VStr language)) ∧
       m !! "script" = VStr <$> script ∧
       m !! "region" = VStr <$> region ∧
       m !! "variant" = None ∧ m !! "extension" = None ∧ m !! "private" = None.
Proof.
  intros Htables. unfold canonical_components. rewrite for_each_cons.
  destruct (String.eqb_spec language "und") as [-> | Hund];
    [rewrite step_language_und | rewrite step_language_kept; [|done|tauto]];
    rewrite bind_ret; unfold annotate_macrolanguage.
  all: destruct script as [s|], region as [r|];
    cbn [fmap option_fmap option_map option_list option_rect app list_fmap];
    repeat first
      [ rewrite for_each_cons | rewrite bind_ret | rewrite for_each_nil
      | rewrite step_region
      | rewrite step_other
          by (intros H; repeat (apply elem_of_cons in H as [H | H]; [discriminate H|]);
              by apply elem_of_nil in H) ].
  all: try assert ((if normalize then default r (NORMALIZED_REGIONS DB !! r) else r) = r)
         as -> by (destruct normalize, Htables as [? | [_ Hr]]; try done;
                   by rewrite (Hr r eq_refl)).
  all: eexists; split; [reflexivity|].
  all: try destruct (MACROLANGUAGES DB !! language); by simplify_map_eq.
Qed.

Lemma default_language (m : gmap string fvalue) language :
  m !! "language" = (if String.eqb language "und" then None else Some (VStr language)) →
  default (VStr "und") (m !! "language") = VStr language.
Proof. intros ->. by destruct (String.eqb_spec language "und") as [-> | _]. Qed.

Lemma meaning_to_tag_canonical (m : gmap string fvalue) language script region :
  m !! "language" = (if String.eqb language "und" then None else Some (VStr language)) →
  m !! "script" = VStr <$> script →
  m !! "region" = VStr <$> region →
  m !! "variant" = None → m !! "extension" = None → m !! "private" = None →
  meaning_to_tag m = Ok (canonical_tag language script region).
Proof.
  intros Hl Hs Hr Hv He Hp.
  unfold meaning_to_tag, append_field, append_sorted, canonical_tag.
  rewrite (default_language m language Hl), Hs, Hr, Hv, He, Hp.
  by destruct script, region.
Qed.

Lemma tag_to_meaning_canonical DB fuel normalize language script region :
  conventional_form language script region →
  normalize = false ∨
    NORMALIZED_LANGUAGES DB !! Py.lower (canonical_tag language script region) = None ∧
    NORMALIZED_LANGUAGES DB !! language = None ∧
    (∀ r, region = Some r → NORMALIZED_REGIONS DB !! r = None) →
  ∃ m, tag_to_meaning DB (S fuel) (canonical_tag language script region) normalize = Ok m ∧
       m !! "language" = (if String.eqb language "und" then None
                          else Some (VStr language)) ∧
       m !! "script" = VStr <$> script ∧
       m !! "region" = VStr <$> region ∧
       m !! "variant" = None ∧ m !! "extension" = None ∧ m !! "private" = None.
Proof.
  intros (Hl & Hn & Hh & Hs & Hr) Htables.
  rewrite tag_to_meaning_unfold.
  assert (normalize &&
          contains (NORMALIZED_LANGUAGES DB) (Py.lower (canonical_tag language script region))
          = false) as ->.
  { destruct Htables as [-> | [Hw _]]; [done|].
    rewrite (contains_None _ _ Hw). apply andb_false_r. }
  rewrite bind_ret, parse_canonical_tag, bind_ret by done.
  apply for_each_canonical_components. tauto.
Qed.

(** X16.  A tag in conventional form, [language[-Script][-REGION]], parses
    into its subtags, and writing back the record that the literal builder
    makes of it gives the same tag, whatever the tables hold; this includes
    the undetermined language [und]. *)
Theorem canonical_tag_round_trip (DB : LanguageDB) (fuel : nat)
    (language : string) (script region : option string) :
  conventional_form language script region →
  parse (canonical_tag language script region)
    = Ok (canonical_components language script region) ∧
  ∃ m, tag_to_meaning DB (S fuel) (canonical_tag language script region) false = Ok m ∧
       meaning_to_tag m = Ok (canonical_tag language script region).
Proof.
  intros Hform. split.
  - destruct Hform as (Hl & Hn & Hh & Hs & Hr). by apply parse_canonical_tag.
  - destruct (tag_to_meaning_canonical DB fuel false language script region Hform)
      as (m & Hm & Hlang & Hscript & Hregion & Hv & He & Hp); [by left|].
    exists m. split; [done|]. by apply meaning_to_tag_canonical.
Qed.

Lemma conventional_form_sr_Latn_RS : conventional_form "sr" (Some "Latn") (Some "RS").
Proof.
  unfold conventional_form, well_shaped.
  split; [simpl; lia|]. split; [reflexivity|]. split; [reflexivity|].
  split; intros x [= <-]; cbn [fst snd].
  - split; [discriminate|]. split; [done|]. split; discriminate.
  - split; [discriminate|]. split; [discriminate|]. split; [|discriminate].
    intros _. split; [by left | done].
Qed.

Lemma canonical_tag_round_trip_witness :
  conventional_form "sr" (Some "Latn") (Some "RS") ∧
  parse "sr-Latn-RS" = Ok [("language", "sr"); ("script", "Latn"); ("region", "RS")] ∧
  ∃ m, tag_to_meaning sample_DB 1 "sr-Latn-RS" false = Ok m ∧
       meaning_to_tag m = Ok "sr-Latn-RS".
Proof.
  split; [exact conventional_form_sr_Latn_RS|].
  exact (canonical_tag_round_trip sample_DB 0 "sr" (Some "Latn") (Some "RS")
           conventional_form_sr_Latn_RS).
Defined.

(** X17.  A tag in conventional form that the tables leave alone is a fixed
    point of [standardize_tag], with or without the preference for
    macrolanguages. *)
Theorem standardize_tag_fixed_point (DB : LanguageDB) (fuel : nat) (macro : bool)
    (language : string) (script region : option string) :
  conventional_form language script region →
  left_alone DB macro language script region →
  standardize_tag DB (S fuel) (canonical_tag language script region) macro
    = Ok (canonical_tag language script region).
Proof.
  intros Hform (Hwhole & Hlang & Hregion & Hscript & Hmacro).
  destruct (tag_to_meaning_canonical DB fuel true language script region Hform)
    as (m & Hm & Hl & Hs & Hr & Hv & He & Hp); [by right|].
  unfold standardize_tag. rewrite Hm, bind_ret.
  assert ((if macro then prefer_macrolanguage DB m else Ok m) = Ok m) as ->.
  { destruct macro; [|done]. unfold prefer_macrolanguage.
    rewrite (default_language m language Hl). cbn [as_str]. rewrite bind_ret.
    by rewrite (contains_None _ _ (Hmacro eq_refl)). }
  rewrite bind_ret.
  assert (simplify_script DB m = Ok m) as ->.
  { destruct script as [s|]; [|by apply simplify_script_absent].
    destruct (String.eqb_spec language "und") as [-> | _].
    - unfold simplify_script. by rewrite Hl.
    - by apply (simplify_script_other DB m language s); [| |apply Hscript]. }
  rewrite bind_ret. by apply meaning_to_tag_canonical.
Qed.

Lemma left_alone_sr_Latn_RS : left_alone sample_DB true "sr" (Some "Latn") (Some "RS").
Proof.
  unfold left_alone.
  split; [by_computation|]. split; [by_computation|].
  split; [intros r [= <-]; by_computation|].
  split; [intros s [= <-]|intros _; by_computation].
  assert (DEFAULT_SCRIPTS sample_DB !! "sr" = None) as -> by by_computation. done.
Qed.

Lemma standardize_tag_fixed_point_witness :
  conventional_form "sr" (Some "Latn") (Some "RS") ∧
  left_alone sample_DB true "sr" (Some "Latn") (Some "RS") ∧
  standardize_tag sample_DB 1 "sr-Latn-RS" true = Ok "sr-Latn-RS".
Proof.
  split; [exact conventional_form_sr_Latn_RS|].
  split; [exact left_alone_sr_Latn_RS|].
  exact (standardize_tag_fixed_point sample_DB 0 true "sr" (Some "Latn") (Some "RS")
           conventional_form_sr_Latn_RS left_alone_sr_Latn_RS).
Defined.

(** X18.  [standardize_tag] drops the script of a tag in conventional form
    when it is the default script of the language, for a language other
    than [und]: with no other replacement applying,
    [language-Script[-REGION]] becomes [language[-REGION]]. *)
Theorem standardize_tag_drops_default_script (DB : LanguageDB) (fuel : nat) (macro : bool)
    (language script : string) (region : option string) :
  conventional_form language (Some script) region →
  language ≠ "und" →
  DEFAULT_SCRIPTS DB !! language = Some script →
  NORMALIZED_LANGUAGES DB !! Py.lower (canonical_tag language (Some script) region) = None →
  NORMALIZED_LANGUAGES DB !! language = None →
  (∀ r, region = Some r → NORMALIZED_REGIONS DB !! r = None) →
  (macro = true → NORMALIZED_MACROLANGUAGES DB !! language = None) →
  standardize_tag DB (S fuel) (canonical_tag language (Some script) region) macro
    = Ok (canonical_tag language None region).
Proof.
  intros Hform Hund Hdefault Hwhole Hlang Hregion Hmacro.
  destruct (tag_to_meaning_canonical DB fuel true language (Some script) region Hform)
    as (m & Hm & Hl & Hs & Hr & Hv & He & Hp); [by right|].
  apply String.eqb_neq in Hund. rewrite Hund in Hl.
  unfold standardize_tag. rewrite Hm, bind_ret.
  assert ((if macro then prefer_macrolanguage DB m else Ok m) = Ok m) as ->.
  { destruct macro; [|done]. by apply (prefer_macrolanguage_keep DB m language), Hmacro. }
  rewrite bind_ret, (simplify_script_default DB m language script Hl Hs Hdefault), bind_ret.
  apply meaning_to_tag_canonical.
  - by rewrite lookup_delete_ne, Hund.
  - apply lookup_delete_eq.
  - by rewrite lookup_delete_ne.
  - by rewrite lookup_delete_ne.
  - by rewrite lookup_delete_ne.
  - by rewrite lookup_delete_ne.
Qed.

Lemma conventional_form_en_Latn_US : conventional_form "en" (Some "Latn") (Some "US").
Proof.
  unfold conventional_form, well_shaped.
  split; [simpl; lia|]. split; [reflexivity|]. split; [reflexivity|].
  split; intros x [= <-]; cbn [fst snd].
  - split; [discriminate|]. split; [done|]. split; discriminate.
  - split; [discriminate|]. split; [discriminate|]. split; [|discriminate].
    intros _. split; [by left | done].
Qed.

Lemma standardize_tag_drops_default_script_witness :
  conventional_form "en" (Some "Latn") (Some "US") ∧
  DEFAULT_SCRIPTS sample_DB !! "en" = Some "Latn" ∧
  standardize_tag sample_DB 1 "en-Latn-US" false = Ok "en-US".
Proof.
  split; [exact conventional_form_en_Latn_US|].
  split; [by_computation|].
  apply (standardize_tag_drops_default_script sample_DB 0 false "en" "Latn" (Some "US")).
  - exact conventional_form_en_Latn_US.
  - discriminate.
  - by_computation.
  - by_computation.
  - by_computation.
  - intros r [= <-]. by_computation.
  - discriminate.
Defined.
